(** * react-native-axios-jwt: a shallow embedding of [src/index.ts]

    The module stores an access/refresh token pair in AsyncStorage, decides
    whether the access token is (about to be) expired, refreshes it through a
    caller supplied callback, and exposes an axios request interceptor that
    queues the requests arriving while a refresh is running.

    Layout of the development:
    - [Js]       : the JavaScript values and JSON texts the code manipulates;
    - [Runtime]  : what comes from outside the file (the jwt-decode package,
                   number printing, a detached [Promise.reject]);
    - [prog]     : asynchronous functions as trees of events; every function
                   of [index.ts] is one term of this type;
    - [run]      : one call executed alone, to completion;
    - [step]     : many calls interleaved at their suspension points;
    - the notions the statements use, then the proofs: the token codec and
      the expiry policy, one refresh on its own, and the coordinator
      ([isRefreshing] and [queue]) under every interleaving; then the public
      functions on the stored pair, the interceptor as one call sees it, the
      order in which the queue is released, who writes the storage, and what
      happens when tokens are cleared or the storage fails under a refresh.

    What the model leaves out:
    - numbers are exact rationals ([NaN], the infinities and the rounding of
      doubles are not represented), values are primitives, plain objects and
      [Error] instances (no arrays, no functions);
    - the payload returned by [jwtDecode] has the type the code casts it to,
      a map from strings to numbers;
    - the text of the [TypeError]s the engine throws is fixed;
    - AsyncStorage holds the one item under [STORAGE_KEY]; in [run] it never
      fails, in [step] any storage operation may fail;
    - axios hands the interceptor a request whose [headers] exist. *)

From Stdlib Require Import ZArith QArith Lia Lqa.
From stdpp Require Import base option list gmap strings pretty.

Set Default Proof Using "Type".
Set Warnings "-register-all".
Local Open Scope Z_scope.

(** ** JavaScript values *)

Module Js.

(** The values that flow through the file: primitives, plain objects (an
    ordered list of own enumerable properties) and instances of [Error]
    (with [name], [message] and further own properties such as the
    [response] of an axios error).  Numbers are exact rationals. *)
Inductive jsval : Type :=
| VUndef
| VNull
| VBool (b : bool)
| VNum (q : Q)
| VStr (s : string)
| VObj (fields : list (string * jsval))
| VError (name message : string) (props : list (string * jsval)).

(** The text stored by [JSON.stringify] is represented by the JSON value it
    denotes. *)
Inductive json : Type :=
| JNull
| JBool (b : bool)
| JNum (q : Q)
| JStr (s : string)
| JObj (fields : list (string * json)).

(** How a promise settles. *)
Inductive settled (A : Type) : Type :=
| Resolved (a : A)
| Rejected (reason : jsval).
Arguments Resolved {A} a.
Arguments Rejected {A} reason.

(** [!!v] *)
Definition truthy (v : jsval) : bool :=
  match v with
  | VUndef | VNull => false
  | VBool b => b
  | VNum q => negb (Qeq_bool q 0)
  | VStr s => negb (String.eqb s "")
  | VObj _ | VError _ _ _ => true
  end.

(** [typeof v === 'object'] (true of [null] as well) and
    [typeof v === 'string']. *)
Definition typeof_object (v : jsval) : bool :=
  match v with
  | VNull | VObj _ | VError _ _ _ => true
  | _ => false
  end.

Definition typeof_string (v : jsval) : bool :=
  match v with
  | VStr _ => true
  | _ => false
  end.

Fixpoint lookup_field {V : Type} (key : string) (fields : list (string * V)) : option V :=
  match fields with
  | [] => None
  | (k, v) :: rest => if String.eqb k key then Some v else lookup_field key rest
  end.

(** Assignment to a property keeps the position of an existing key and
    appends a new one. *)
Fixpoint set_field {V : Type} (key : string) (v : V) (fields : list (string * V))
  : list (string * V) :=
  match fields with
  | [] => [(key, v)]
  | (k, x) :: rest =>
      if String.eqb k key then (k, v) :: rest else (k, x) :: set_field key v rest
  end.

(** [v.key] for a [v] that is neither [undefined] nor [null]; a primitive
    has none of the properties the file reads. *)
Definition get (v : jsval) (key : string) : jsval :=
  match v with
  | VObj fields => default VUndef (lookup_field key fields)
  | VError name message props =>
      if String.eqb key "message" then VStr message
      else if String.eqb key "name" then VStr name
      else default VUndef (lookup_field key props)
  | _ => VUndef
  end.

(** [v?.key] *)
Definition opt_get (v : jsval) (key : string) : jsval := get v key.

Definition TypeError (message : string) : jsval := VError "TypeError" message [].

(** [v.key] where nothing guards [v]: reading a property of [undefined] or
    [null] throws. *)
Definition member (v : jsval) (key : string) : settled jsval :=
  match v with
  | VUndef => Rejected (TypeError ("Cannot read property '" +:+ key +:+ "' of undefined"))
  | VNull => Rejected (TypeError ("Cannot read property '" +:+ key +:+ "' of null"))
  | _ => Resolved (get v key)
  end.

(** [v.key = x] in strict mode, for a truthy [v]: a primitive cannot take
    the property. *)
Definition assign (v : jsval) (key : string) (x : jsval) : settled jsval :=
  match v with
  | VObj fields => Resolved (VObj (set_field key x fields))
  | VError name message props =>
      if String.eqb key "message" then
        Resolved (VError name (match x with VStr s => s | _ => message end) props)
      else Resolved (VError name message (set_field key x props))
  | _ => Rejected (TypeError ("Cannot create property '" +:+ key +:+ "'"))
  end.

(** [status === n] for a numeric literal [n]. *)
Definition strict_eq_num (v : jsval) (n : Z) : bool :=
  match v with
  | VNum q => Qeq_bool q (inject_Z n)
  | _ => false
  end.

(** [JSON.parse]: the value a JSON text denotes. *)
Fixpoint of_json (j : json) : jsval :=
  match j with
  | JNull => VNull
  | JBool b => VBool b
  | JNum q => VNum q
  | JStr s => VStr s
  | JObj fields =>
      VObj ((fix go (l : list (string * json)) : list (string * jsval) :=
               match l with
               | [] => []
               | (k, x) :: rest => (k, of_json x) :: go rest
               end) fields)
  end.

(** [JSON.stringify]: properties holding [undefined] are left out, an
    [Error] keeps its enumerable properties only.  ([undefined] itself has no
    JSON text; neither call site passes it.) *)
Fixpoint to_json (v : jsval) : json :=
  let fix go (l : list (string * jsval)) : list (string * json) :=
    match l with
    | [] => []
    | (k, x) :: rest =>
        match x with
        | VUndef => go rest
        | _ => (k, to_json x) :: go rest
        end
    end in
  match v with
  | VUndef | VNull => JNull
  | VBool b => JBool b
  | VNum q => JNum q
  | VStr s => JStr s
  | VObj fields => JObj (go fields)
  | VError _ _ props => JObj (go props)
  end.

End Js.
Export Js.

(** ** What the file takes from its environment *)

(** [jwtDecode] is the default export of the jwt-decode package: it returns
    the decoded payload, which the code casts to [{ [key: string]: number }],
    or throws.  [Number_toString] prints a number inside a template literal.
    [Promise_reject_detached reason] is the reason with which the promise
    returned by [.catch(Promise.reject)] rejects: the handler is called
    without a receiver, so a native [Promise.reject] throws a [TypeError]
    while the promise polyfill of React Native rejects with [reason]. *)
Class Runtime : Type := {
  jwtDecode : jsval -> settled (gmap string Q);
  Number_toString : Q -> string;
  Promise_reject_detached : jsval -> jsval;
}.

Section Values.
Context `{Runtime}.

(** [String(v)], also the conversion a template literal applies. *)
Definition ToString (v : jsval) : string :=
  match v with
  | VUndef => "undefined"
  | VNull => "null"
  | VBool true => "true"
  | VBool false => "false"
  | VNum q => Number_toString q
  | VStr s => s
  | VObj _ => "[object Object]"
  | VError name message _ =>
      if String.eqb name "" then message
      else if String.eqb message "" then name
      else name +:+ ": " +:+ message
  end.

(** [new Error(message)]: no argument text when [message] is [undefined]. *)
Definition newError (message : jsval) : jsval :=
  match message with
  | VUndef => VError "Error" "" []
  | _ => VError "Error" (ToString message) []
  end.

End Values.

(** ** Storage, coordinator state and events *)

(** What [AsyncStorage] holds under [STORAGE_KEY]: a JSON text, given by the
    value it denotes, or a text [JSON.parse] rejects (the empty string is one
    of them). *)
Inductive raw : Type :=
| RawJson (j : json)
| RawText (s : string).

(** [!rawTokens] for the result of [AsyncStorage.getItem]. *)
Definition raw_absent (r : option raw) : bool :=
  match r with
  | None => true
  | Some (RawText s) => String.eqb s ""
  | Some (RawJson _) => false
  end.

(** [JSON.stringify(tokens)] *)
Definition JSON_stringify (v : jsval) : raw := RawJson (to_json v).

(** A refresh callback ([TokenRefreshRequest]) is known by its identity; what
    it answers is up to the environment.  A waiter is the [{resolve, reject}]
    pair of one promise created by the interceptor. *)
Abbreviation TokenRefreshRequest := nat (only parsing).
Abbreviation waiter := nat (only parsing).

(** The operations through which an asynchronous function of the file
    touches anything outside its local variables, each with the type of its
    result. *)
Inductive event : Type -> Type :=
| AsyncStorage_getItem : event (option raw)
| AsyncStorage_setItem (value : raw) : event unit
| AsyncStorage_removeItem : event unit
| RequestRefresh (requestRefresh : TokenRefreshRequest) (refreshToken : jsval) : event jsval
| Date_now : event Z
| GetIsRefreshing : event bool
| SetIsRefreshing (b : bool) : event unit
| GetQueue : event (list waiter)
| SetQueue (q : list waiter) : event unit
| NewWaiter : event waiter
| QueuePush (w : waiter) : event unit
| WaiterResolve (w : waiter) (value : jsval) : event unit
| WaiterReject (w : waiter) (reason : jsval) : event unit
| AwaitWaiter (w : waiter) : event jsval.

(** The events on the module-level [isRefreshing] and [queue] and on the
    promises kept in the queue. *)
Definition touches_coordinator {X : Type} (ev : event X) : bool :=
  match ev with
  | AsyncStorage_getItem | AsyncStorage_setItem _ | AsyncStorage_removeItem
  | RequestRefresh _ _ | Date_now => false
  | _ => true
  end.

(** ** Asynchronous functions as event trees *)

Inductive prog (A : Type) : Type :=
| Ret (a : A)
| Throw (e : jsval)
| Vis {X : Type} (ev : event X) (k : settled X -> prog A).
Arguments Ret {A} a.
Arguments Throw {A} e.
Arguments Vis {A X} ev k.

Fixpoint bind {A B : Type} (p : prog A) (f : A -> prog B) : prog B :=
  match p with
  | Ret a => f a
  | Throw e => Throw e
  | Vis ev k => Vis ev (fun r => bind (k r) f)
  end.

Declare Scope prog_scope.
Delimit Scope prog_scope with prog.
Bind Scope prog_scope with prog.
Notation "x ← y ; z" := (bind y (fun x => z))
  (at level 20, y at level 100, z at level 200, only parsing) : prog_scope.
Notation "x ;; z" := (bind x (fun _ => z))
  (at level 100, z at level 200, only parsing, right associativity) : prog_scope.
Local Open Scope prog_scope.

(** [try { p } catch (error) { handler error }] *)
Fixpoint try_catch {A : Type} (p : prog A) (handler : jsval -> prog A) : prog A :=
  match p with
  | Ret a => Ret a
  | Throw e => handler e
  | Vis ev k => Vis ev (fun r => try_catch (k r) handler)
  end.

(** [try { p } finally { fin }] *)
Fixpoint try_finally {A : Type} (p : prog A) (fin : prog unit) : prog A :=
  match p with
  | Ret a => bind fin (fun _ => Ret a)
  | Throw e => bind fin (fun _ => Throw e)
  | Vis ev k => Vis ev (fun r => try_finally (k r) fin)
  end.

(** [await] of an asynchronous operation; [call] of a synchronous one (a
    read or write of a module variable, [Date.now()], a method of a promise
    or of the queue); [lift] of a synchronous computation that may throw. *)
Definition lift {A : Type} (r : settled A) : prog A :=
  match r with
  | Resolved a => Ret a
  | Rejected e => Throw e
  end.

Definition await {X : Type} (ev : event X) : prog X := Vis ev lift.

Definition call {X : Type} (ev : event X) : prog X := Vis ev lift.

(** [list.forEach(f)] *)
Fixpoint forEach {A : Type} (l : list A) (f : A -> prog unit) : prog unit :=
  match l with
  | [] => Ret tt
  | x :: rest => bind (f x) (fun _ => forEach rest f)
  end.

(** ** The functions of [index.ts] *)

Record AxiosRequestConfig : Type := {
  url : string;
  headers : gmap string string;
}.

Record AuthTokenInterceptorConfig : Type := {
  header : option string;
  headerPrefix : option string;
  requestRefresh : TokenRefreshRequest;
}.

(** [requestConfig.headers[name] = value] *)
Definition set_header (requestConfig : AxiosRequestConfig) (name value : string)
  : AxiosRequestConfig :=
  {| url := url requestConfig; headers := <[name := value]> (headers requestConfig) |}.

Section Source.
Context `{Runtime}.

(** a little time before expiration to try refresh (seconds) *)
Definition EXPIRE_FUDGE : Q := 10.

(** [JSON.parse] succeeds on a JSON text; on any other text it throws, the
    handler replaces the message and throws the error again. *)
Definition getAuthTokens : prog jsval :=
  rawTokens ← await AsyncStorage_getItem;
  if raw_absent rawTokens then Ret VUndef
  else match rawTokens with
       | Some (RawJson j) => Ret (of_json j)
       | Some (RawText s) =>
           Throw (VError "SyntaxError" ("Failed to parse auth tokens: " +:+ s) [])
       | None => Ret VUndef
       end.

Definition setAuthTokens (tokens : jsval) : prog unit :=
  await (AsyncStorage_setItem (JSON_stringify tokens)).

Definition setAccessToken (token : jsval) : prog unit :=
  tokens ← getAuthTokens;
  if negb (truthy tokens) then
    Throw (newError (VStr
      "Unable to update access token since there are not tokens currently stored"))
  else
    tokens' ← lift (assign tokens "accessToken" token);
    setAuthTokens tokens'.

Definition clearAuthTokens : prog unit := await AsyncStorage_removeItem.

Definition getRefreshToken : prog jsval :=
  tokens ← getAuthTokens;
  Ret (if truthy tokens then get tokens "refreshToken" else VUndef).

Definition getAccessToken : prog jsval :=
  tokens ← getAuthTokens;
  Ret (if truthy tokens then get tokens "accessToken" else VUndef).

Definition isLoggedIn : prog bool :=
  token ← getRefreshToken;
  Ret (truthy token).

(** [decoded.exp] of the decoded payload; nothing catches what [jwtDecode]
    throws. *)
Definition getTimestampFromToken (token : jsval) : prog (option Q) :=
  decoded ← lift (jwtDecode token);
  Ret (decoded !! "exp").

(** [!expiration] holds of [undefined] and of [0]. *)
Definition getExpiresIn (token : jsval) : prog Q :=
  expiration ← getTimestampFromToken token;
  match expiration with
  | None => Ret (-1)%Q
  | Some e =>
      if Qeq_bool e 0 then Ret (-1)%Q
      else now ← call Date_now; Ret (e - inject_Z now / 1000)%Q
  end.

Definition isTokenExpired (token : jsval) : prog bool :=
  if negb (truthy token) then Ret true
  else
    expiresIn ← getExpiresIn token;
    Ret (Qeq_bool expiresIn 0 || Qle_bool expiresIn EXPIRE_FUDGE).

(** The [try]/[catch] of [refreshToken], entered with the refresh token
    that was read. *)
Definition refreshAttempt (requestRefresh : TokenRefreshRequest) (refreshToken_ : jsval)
  : prog jsval :=
  try_catch
    (newTokens ← await (RequestRefresh requestRefresh refreshToken_);
     if typeof_object newTokens && truthy (opt_get newTokens "accessToken") then
       setAuthTokens newTokens;;
       Ret (get newTokens "accessToken")
     else if typeof_string newTokens then
       setAccessToken newTokens;;
       Ret newTokens
     else
       Throw (newError (VStr
         "requestRefresh must either return a string or an object with an accessToken")))
    (fun error =>
       let status := opt_get (opt_get error "response") "status" in
       if strict_eq_num status 401 || strict_eq_num status 422 then
         await AsyncStorage_removeItem;;
         Throw (newError (VStr
           ("Got " +:+ ToString status +:+ " on token refresh; clearing both auth tokens")))
       else
         Throw (newError error)).

Definition refreshToken (requestRefresh : TokenRefreshRequest) : prog jsval :=
  refreshToken_ ← getRefreshToken;
  if negb (truthy refreshToken_) then
    Throw (newError (VStr "No refresh token available"))
  else refreshAttempt requestRefresh refreshToken_.

Definition refreshTokenIfNeeded (requestRefresh : TokenRefreshRequest) : prog jsval :=
  accessToken ← getAccessToken;
  expired ← (if negb (truthy accessToken) then Ret true else isTokenExpired accessToken);
  if (expired : bool) then refreshToken requestRefresh else Ret accessToken.

(** Function that resolves all items in the queue with the provided token *)
Definition resolveQueue (token : jsval) : prog unit :=
  q ← call GetQueue;
  forEach q (fun p => call (WaiterResolve p token));;
  call (SetQueue []).

(** Function that declines all items in the queue with the provided error *)
Definition declineQueue (error : jsval) : prog unit :=
  q ← call GetQueue;
  forEach q (fun p => call (WaiterReject p error));;
  call (SetQueue []).

(** The part of the interceptor that runs when [isRefreshing] was read as
    [false]: the [try]/[catch]/[finally] and the statements after it.
    [attempt] is what the [try] block runs up to the end of its [await]:
    [isRefreshing = true] and [refreshTokenIfNeeded(requestRefresh)], or what
    is left of them once the call is under way. *)
Definition refreshSection (header_ headerPrefix_ : string)
    (requestConfig : AxiosRequestConfig) (attempt : prog jsval)
  : prog AxiosRequestConfig :=
  accessToken ←
    try_finally
      (try_catch
         (accessToken ← attempt;
          resolveQueue accessToken;;
          Ret accessToken)
         (fun error =>
            declineQueue error;;
            message ← lift (member error "message");
            Throw (newError (VStr
              ("Unable to refresh access token for request due to token refresh error: "
               +:+ ToString message)))))
      (call (SetIsRefreshing false));
  if truthy accessToken then
    Ret (set_header requestConfig header_ (headerPrefix_ +:+ ToString accessToken))
  else Ret requestConfig.

(** The part that runs when [isRefreshing] was read as [true]: the promise
    whose [resolve] and [reject] were pushed on the queue, its [then] and its
    [catch(Promise.reject)].  [settlement] is the wait for that promise, or
    its outcome once it has settled. *)
Definition queuedRequest (header_ headerPrefix_ : string)
    (requestConfig : AxiosRequestConfig) (settlement : prog jsval)
  : prog AxiosRequestConfig :=
  try_catch
    (token ← settlement;
     Ret (set_header requestConfig header_ (headerPrefix_ +:+ ToString token)))
    (fun reason => Throw (Promise_reject_detached reason)).

(** The interceptor once [await getRefreshToken()] has returned. *)
Definition intercept (config : AuthTokenInterceptorConfig)
    (requestConfig : AxiosRequestConfig) (refreshToken_ : jsval)
  : prog AxiosRequestConfig :=
  let header_ := default "Authorization" (header config) in
  let headerPrefix_ := default "Bearer " (headerPrefix config) in
  if negb (truthy refreshToken_) then Ret requestConfig
  else
    refreshing ← call GetIsRefreshing;
    if (refreshing : bool) then
      p ← call NewWaiter;
      call (QueuePush p);;
      queuedRequest header_ headerPrefix_ requestConfig (await (AwaitWaiter p))
    else
      refreshSection header_ headerPrefix_ requestConfig
        (call (SetIsRefreshing true);;
         refreshTokenIfNeeded (requestRefresh config)).

Definition authTokenInterceptor (config : AuthTokenInterceptorConfig)
    (requestConfig : AxiosRequestConfig) : prog AxiosRequestConfig :=
  refreshToken_ ← getRefreshToken;
  intercept config requestConfig refreshToken_.

End Source.

(** ** The world the functions run in *)

(** Calls are numbered in the order of their arrival. *)
Abbreviation pid := nat (only parsing).

(** What the runs record for the properties below: writes of
    [isRefreshing], invocations of a refresh callback, pushes on the queue
    and calls of a waiter's [resolve] or [reject], each with the call that
    performed it.  The newest entry comes first. *)
Inductive obs : Type :=
| OSetRefreshing (i : pid) (b : bool)
| OCallRefresh (i : pid) (requestRefresh : TokenRefreshRequest) (refreshToken : jsval)
| OPush (i : pid) (p : waiter)
| OSettle (i : pid) (p : waiter) (o : settled jsval).

(** [storage] is the item under [STORAGE_KEY]; [clock] is [Date.now()] in
    milliseconds; [isRefreshing] and [queue] are the module variables;
    [promises] holds, for every waiter created so far, how its promise has
    settled ([None] while it is pending). *)
Record world : Type := {
  storage : option raw;
  clock : Z;
  isRefreshing : bool;
  queue : list waiter;
  promises : list (option (settled jsval));
  log : list obs;
}.

Definition set_storage (v : option raw) (w : world) : world :=
  {| storage := v; clock := clock w; isRefreshing := isRefreshing w;
     queue := queue w; promises := promises w; log := log w |}.

Definition set_clock (t : Z) (w : world) : world :=
  {| storage := storage w; clock := t; isRefreshing := isRefreshing w;
     queue := queue w; promises := promises w; log := log w |}.

Definition set_isRefreshing (b : bool) (w : world) : world :=
  {| storage := storage w; clock := clock w; isRefreshing := b;
     queue := queue w; promises := promises w; log := log w |}.

Definition set_queue (q : list waiter) (w : world) : world :=
  {| storage := storage w; clock := clock w; isRefreshing := isRefreshing w;
     queue := q; promises := promises w; log := log w |}.

Definition set_promises (ps : list (option (settled jsval))) (w : world) : world :=
  {| storage := storage w; clock := clock w; isRefreshing := isRefreshing w;
     queue := queue w; promises := ps; log := log w |}.

Definition record (o : obs) (w : world) : world :=
  {| storage := storage w; clock := clock w; isRefreshing := isRefreshing w;
     queue := queue w; promises := promises w; log := o :: log w |}.

(** [resolve] and [reject] settle a pending promise and do nothing to a
    settled one; the call is recorded either way. *)
Definition settle (i : pid) (p : waiter) (o : settled jsval) (w : world) : world :=
  record (OSettle i p o)
    match promises w !! p with
    | Some None => set_promises (<[p := Some o]> (promises w)) w
    | _ => w
    end.

(** The synchronous events, performed by call [i]; [None] for an event that
    suspends the call. *)
Definition sync_event (i : pid) {X : Type} (ev : event X) (w : world) : option (X * world) :=
  match ev in event X return option (X * world) with
  | Date_now => Some (clock w, w)
  | GetIsRefreshing => Some (isRefreshing w, w)
  | SetIsRefreshing b => Some (tt, record (OSetRefreshing i b) (set_isRefreshing b w))
  | GetQueue => Some (queue w, w)
  | SetQueue q => Some (tt, set_queue q w)
  | NewWaiter => Some (length (promises w), set_promises (promises w ++ [None]) w)
  | QueuePush p => Some (tt, record (OPush i p) (set_queue (queue w ++ [p]) w))
  | WaiterResolve p v => Some (tt, settle i p (Resolved v) w)
  | WaiterReject p e => Some (tt, settle i p (Rejected e) w)
  | AsyncStorage_getItem | AsyncStorage_setItem _ | AsyncStorage_removeItem
  | RequestRefresh _ _ | AwaitWaiter _ => None
  end.

(** What starting an asynchronous operation does at once: the refresh
    callback is invoked. *)
Definition issue (i : pid) {X : Type} (ev : event X) (w : world) : world :=
  match ev with
  | RequestRefresh cb rt => record (OCallRefresh i cb rt) w
  | _ => w
  end.

(** How the environment completes an asynchronous operation: a storage
    operation is carried out ([Normally]) or fails; a refresh callback
    replies with a value or fails; the wait for a waiter ends when its
    promise has settled. *)
Inductive answer : Type :=
| Normally
| Failing (reason : jsval)
| Replying (value : jsval).

Definition async_event {X : Type} (ev : event X) (a : answer) (w : world)
  : option (settled X * world) :=
  match ev in event X return option (settled X * world) with
  | AsyncStorage_getItem =>
      match a with
      | Normally => Some (Resolved (storage w), w)
      | Failing e => Some (Rejected e, w)
      | Replying _ => None
      end
  | AsyncStorage_setItem v =>
      match a with
      | Normally => Some (Resolved tt, set_storage (Some v) w)
      | Failing e => Some (Rejected e, w)
      | Replying _ => None
      end
  | AsyncStorage_removeItem =>
      match a with
      | Normally => Some (Resolved tt, set_storage None w)
      | Failing e => Some (Rejected e, w)
      | Replying _ => None
      end
  | RequestRefresh _ _ =>
      match a with
      | Replying v => Some (Resolved v, w)
      | Failing e => Some (Rejected e, w)
      | Normally => None
      end
  | AwaitWaiter p =>
      match a, promises w !! p with
      | Normally, Some (Some o) => Some (o, w)
      | _, _ => None
      end
  | _ => None
  end.

(** ** One call on its own *)

(** A call that runs with nothing else in between: the storage works, the
    refresh callbacks answer as [behaviour] says.  The result is [None] when
    the call waits for a promise nobody settles. *)
Definition solo_answer (behaviour : TokenRefreshRequest -> jsval -> settled jsval)
    {X : Type} (ev : event X) : answer :=
  match ev with
  | RequestRefresh cb rt =>
      match behaviour cb rt with
      | Resolved v => Replying v
      | Rejected e => Failing e
      end
  | _ => Normally
  end.

Fixpoint run (behaviour : TokenRefreshRequest -> jsval -> settled jsval)
    {A : Type} (p : prog A) (w : world) : option (settled A) * world :=
  match p with
  | Ret a => (Some (Resolved a), w)
  | Throw e => (Some (Rejected e), w)
  | Vis ev k =>
      match sync_event 0%nat ev w with
      | Some (x, w') => run behaviour (k (Resolved x)) w'
      | None =>
          match async_event ev (solo_answer behaviour ev) (issue 0%nat ev w) with
          | Some (r, w') => run behaviour (k r) w'
          | None => (None, issue 0%nat ev w)
          end
      end
  end.

(** ** Many calls interleaved *)

(** A call is about to run its next synchronous stretch, or has started an
    asynchronous operation that is not complete, or has settled. *)
Inductive task (A : Type) : Type :=
| Running (p : prog A)
| Blocked (p : prog A)
| Finished (r : settled A).
Arguments Running {A} p.
Arguments Blocked {A} p.
Arguments Finished {A} r.

Record state (A : Type) : Type := {
  world_of : world;
  pool : list (task A);
}.
Arguments world_of {A} s.
Arguments pool {A} s.

(** Call [i] runs without interruption up to its next suspension point. *)
Fixpoint run_sync (i : pid) {A : Type} (p : prog A) (w : world) : task A * world :=
  match p with
  | Ret a => (Finished (Resolved a), w)
  | Throw e => (Finished (Rejected e), w)
  | Vis ev k =>
      match sync_event i ev w with
      | Some (x, w') => run_sync i (k (Resolved x)) w'
      | None => (Blocked (Vis ev k), issue i ev w)
      end
  end.

Inductive action (A : Type) : Type :=
| Spawn (p : prog A)
| Resume (i : pid)
| Complete (i : pid) (a : answer)
| Tick (dt : Z)
| Store (v : option raw).
Arguments Spawn {A} p.
Arguments Resume {A} i.
Arguments Complete {A} i a.
Arguments Tick {A} dt.
Arguments Store {A} v.

(** A call runs its next synchronous stretch; the environment completes the
    operation a call is blocked on, and the call becomes ready to continue
    with the result. *)
Definition resume (i : pid) {A : Type} (t : task A) (w : world) : option (task A * world) :=
  match t with
  | Running p => Some (run_sync i p w)
  | _ => None
  end.

Definition complete {A : Type} (t : task A) (a : answer) (w : world)
  : option (task A * world) :=
  match t with
  | Blocked (Vis ev k) =>
      match async_event ev a w with
      | Some (r, w') => Some (Running (k r), w')
      | None => None
      end
  | _ => None
  end.

Definition update {A : Type} (i : pid) (s : state A) (tw : task A * world) : state A :=
  {| world_of := tw.2; pool := <[i := tw.1]> (pool s) |}.

(** One scheduling step: a new call arrives, a call resumes, an operation
    completes, the clock moves (by any amount: a system clock can be set
    back, and a call may have read it some microtasks before the step that
    the model makes of its stretch), or the stored item changes under the
    calls (the application has called [setAuthTokens] or [clearAuthTokens],
    or whatever else writes the storage). *)
Definition step {A : Type} (a : action A) (s : state A) : option (state A) :=
  match a with
  | Spawn p => Some {| world_of := world_of s; pool := pool s ++ [Running p] |}
  | Resume i =>
      match pool s !! i with
      | Some t => update i s <$> resume i t (world_of s)
      | None => None
      end
  | Complete i a =>
      match pool s !! i with
      | Some t => update i s <$> complete t a (world_of s)
      | None => None
      end
  | Tick dt =>
      Some {| world_of := set_clock (clock (world_of s) + dt) (world_of s);
              pool := pool s |}
  | Store v =>
      Some {| world_of := set_storage v (world_of s); pool := pool s |}
  end.

Fixpoint exec {A : Type} (acts : list (action A)) (s : state A) : option (state A) :=
  match acts with
  | [] => Some s
  | a :: rest =>
      match step a s with
      | Some s' => exec rest s'
      | None => None
      end
  end.

(** The process starts idle, with an empty queue. *)
Definition boot (stored : option raw) (now : Z) : world :=
  {| storage := stored; clock := now; isRefreshing := false; queue := [];
     promises := []; log := [] |}.

Definition initial {A : Type} (stored : option raw) (now : Z) : state A :=
  {| world_of := boot stored now; pool := [] |}.

(** * What the statements speak of *)

(** ** The stored pair, the clock and the refresh callback *)

(** Seconds left before [exp], at the time the world shows. *)
Definition secondsRemaining (exp : Q) (w : world) : Q :=
  (exp - inject_Z (clock w) / 1000)%Q.

(** What [getAuthTokens] makes of the stored item. *)
Definition stored_tokens (r : option raw) : settled jsval :=
  match r with
  | None => Resolved VUndef
  | Some (RawJson j) => Resolved (of_json j)
  | Some (RawText s) =>
      if String.eqb s "" then Resolved VUndef
      else Rejected (VError "SyntaxError" ("Failed to parse auth tokens: " +:+ s) [])
  end.

Definition stored_get (key : string) (r : option raw) : settled jsval :=
  match stored_tokens r with
  | Resolved tokens => Resolved (if truthy tokens then get tokens key else VUndef)
  | Rejected e => Rejected e
  end.

Definition of_json_fields (l : list (string * json)) : list (string * jsval) :=
  map (fun kv => (kv.1, of_json kv.2)) l.

Definition to_json_fields (l : list (string * jsval)) : list (string * json) :=
  omap (fun kv => match kv.2 with VUndef => None | x => Some (kv.1, to_json x) end) l.

(** [error.response.status] of a rejection, and whether it is the number 401
    or 422. *)
Definition status_of (error : jsval) : jsval :=
  opt_get (opt_get error "response") "status".

Definition unauthorized (error : jsval) : bool :=
  strict_eq_num (status_of error) 401 || strict_eq_num (status_of error) 422.

(** The world once the callback of call 0 has been invoked. *)
Definition invoked (cb : TokenRefreshRequest) (rt : jsval) (w : world) : world :=
  record (OCallRefresh 0%nat cb rt) w.

Definition protocol_error : jsval :=
  VError "Error"
    "requestRefresh must either return a string or an object with an accessToken" [].

(** An object that has an [accessToken]; a result that is neither a string
    nor such an object. *)
Definition has_accessToken (v : jsval) : Prop :=
  typeof_object v = true /\ get v "accessToken" <> VUndef.

Definition unrecognized (v : jsval) : Prop :=
  typeof_string v = false /\ ~ has_accessToken v.

(** ** Which events a function can perform *)

Definition is_refresh_call {X : Type} (ev : event X) : bool :=
  match ev with
  | RequestRefresh _ _ => true
  | _ => false
  end.

(** Every event of the tree satisfies [P], whatever the answers are. *)
Fixpoint all_events {A : Type} (P : forall X, event X -> Prop) (p : prog A) : Prop :=
  match p with
  | Ret _ | Throw _ => True
  | Vis ev k => P _ ev /\ forall r, all_events P (k r)
  end.

(** The function stays away from [isRefreshing], the queue and its promises. *)
Definition coord_free {A : Type} (p : prog A) : Prop :=
  all_events (fun X ev => touches_coordinator ev = false) p.

(** The function only reads the clock and uses the storage. *)
Definition quiet {A : Type} (p : prog A) : Prop :=
  all_events (fun X ev => touches_coordinator ev = false /\ is_refresh_call ev = false) p.

(** No run of the function invokes a refresh callback more than [n] times. *)
Fixpoint calls_at_most {A : Type} (n : nat) (p : prog A) : Prop :=
  match p with
  | Ret _ | Throw _ => True
  | Vis ev k =>
      if is_refresh_call ev then
        match n with
        | O => False
        | S m => forall r, calls_at_most m (k r)
        end
      else forall r, calls_at_most n (k r)
  end.

(** ** Releasing the queue *)

(** Every promise of the list is settled with [o]. *)
Definition settle_all (i : pid) (ps : list waiter) (o : settled jsval) (w : world) : world :=
  foldl (fun w p => settle i p o w) w ps.

(** What [resolveQueue] or [declineQueue] and the [finally] block leave. *)
Definition release (i : pid) (o : settled jsval) (w : world) : world :=
  record (OSetRefreshing i false)
    (set_isRefreshing false (set_queue [] (settle_all i (queue w) o w))).

(** The variables of the coordinator, the promises and the record of the
    run are the same in both worlds. *)
Definition same_coordinator (w w' : world) : Prop :=
  isRefreshing w' = isRefreshing w /\ queue w' = queue w /\
  promises w' = promises w /\ log w' = log w.

(** ** What can be seen of an interleaved run *)

(** The call is blocked on its refresh callback; the call is blocked on the
    promise of a waiter. *)
Definition awaiting_refresh {A : Type} (t : task A) : bool :=
  match t with
  | Blocked (Vis ev _) => is_refresh_call ev
  | _ => false
  end.

Definition waiting_on {A : Type} (t : task A) : option waiter :=
  match t with
  | Blocked (Vis ev _) =>
      match ev with
      | AwaitWaiter p => Some p
      | _ => None
      end
  | _ => None
  end.

(** Invocations of a refresh callback since [isRefreshing] was last set to
    [true]: those of the refresh cycle that is running, or of the last one. *)
Fixpoint calls_in_cycle (l : list obs) : nat :=
  match l with
  | [] => 0
  | OSetRefreshing _ true :: _ => 0
  | OCallRefresh _ _ _ :: rest => S (calls_in_cycle rest)
  | _ :: rest => calls_in_cycle rest
  end.

(** The call that set [isRefreshing] and has not cleared it. *)
Fixpoint flag_owner (l : list obs) : option pid :=
  match l with
  | [] => None
  | OSetRefreshing i b :: _ => if b then Some i else None
  | _ :: rest => flag_owner rest
  end.

(** The waiters on which [resolve] or [reject] was called, one entry per
    call. *)
Definition settled_waiters (l : list obs) : list waiter :=
  omap (fun o => match o with OSettle _ p _ => Some p | _ => None end) l.

(** All invocations of a refresh callback. *)
Fixpoint refresh_calls (l : list obs) : nat :=
  match l with
  | [] => 0
  | OCallRefresh _ _ _ :: rest => S (refresh_calls rest)
  | _ :: rest => refresh_calls rest
  end.

(** Only interceptor calls arrive. *)
Definition interceptor_call `{Runtime} (a : action AxiosRequestConfig) : Prop :=
  match a with
  | Spawn p => exists config requestConfig, p = authTokenInterceptor config requestConfig
  | _ => True
  end.

(** ** The invariant of the coordinator *)

(** Where an interceptor call stands: before the test of [isRefreshing]; in
    the refresh section, with a bound on the callback invocations still to
    come and whether it is blocked on the callback; queued behind a waiter;
    released, or settled. *)
Inductive role : Type :=
| Arriving
| Leading (n : nat) (calling : bool)
| Queued (p : waiter)
| Leaving.

Section Notions.
Context `{Runtime}.

Section Solo.
Variable behaviour : TokenRefreshRequest -> jsval -> settled jsval.

(** The stored access token is missing, expired or about to expire. *)
Definition access_token_stale (w : world) : Prop :=
  exists accessToken,
    run behaviour getAccessToken w = (Some (Resolved accessToken), w) /\
    run behaviour (isTokenExpired accessToken) w = (Some (Resolved true), w).

End Solo.

(** How the interceptor call that refreshed settles, and how a queued call
    settles, given the outcome of the refresh. *)
Definition section_outcome (header_ headerPrefix_ : string)
    (requestConfig : AxiosRequestConfig) (r : settled jsval) : settled AxiosRequestConfig :=
  match r with
  | Resolved accessToken =>
      Resolved (if truthy accessToken
                then set_header requestConfig header_ (headerPrefix_ +:+ ToString accessToken)
                else requestConfig)
  | Rejected error =>
      match member error "message" with
      | Resolved message =>
          Rejected (newError (VStr
            ("Unable to refresh access token for request due to token refresh error: "
             +:+ ToString message)))
      | Rejected e => Rejected e
      end
  end.

Definition queued_outcome (header_ headerPrefix_ : string)
    (requestConfig : AxiosRequestConfig) (o : settled jsval) : settled AxiosRequestConfig :=
  match o with
  | Resolved token =>
      Resolved (set_header requestConfig header_ (headerPrefix_ +:+ ToString token))
  | Rejected reason => Rejected (Promise_reject_detached reason)
  end.

(** The programs an interceptor call can be left with, by role: what is left
    of [getRefreshToken] followed by the rest of the interceptor; the refresh
    section around what is left of [refreshTokenIfNeeded]; the wait for the
    queued promise, or its result. *)
Inductive shaped : task AxiosRequestConfig -> role -> Prop :=
| shaped_arriving (config : AuthTokenInterceptorConfig) (rc : AxiosRequestConfig)
    (g : prog jsval) :
    quiet g -> shaped (Running (bind g (intercept config rc))) Arriving
| shaped_reading (config : AuthTokenInterceptorConfig) (rc : AxiosRequestConfig)
    (g : prog jsval) :
    quiet g -> shaped (Blocked (bind g (intercept config rc))) Arriving
| shaped_leading (h hp : string) (rc : AxiosRequestConfig) (q : prog jsval) (n : nat) :
    coord_free q -> calls_at_most n q ->
    shaped (Running (refreshSection h hp rc q)) (Leading n false)
| shaped_refreshing (h hp : string) (rc : AxiosRequestConfig) (X : Type)
    (ev : event X) (k : settled X -> prog jsval) (n : nat) :
    touches_coordinator ev = false ->
    (forall r, coord_free (k r)) -> (forall r, calls_at_most n (k r)) ->
    shaped (Blocked (refreshSection h hp rc (Vis ev k))) (Leading n (is_refresh_call ev))
| shaped_queued (h hp : string) (rc : AxiosRequestConfig) (p : waiter) :
    shaped (Blocked (queuedRequest h hp rc (await (AwaitWaiter p)))) (Queued p)
| shaped_released (h hp : string) (rc : AxiosRequestConfig) (o : settled jsval) :
    shaped (Running (queuedRequest h hp rc (lift o))) Leaving
| shaped_finished (r : settled AxiosRequestConfig) :
    shaped (Finished r) Leaving.

(** The invariant: every call has the shape of its role; when the flag is
    clear the queue is empty and no call is in the refresh section; when it
    is set, exactly one call is, it is the one that set the flag, and the
    callback invocations of the cycle and those it may still make are at
    most one; the waiters of the queue are distinct and pending; a queued
    call is in the queue or its promise has settled; no waiter was settled
    twice. *)
Record coordinated (s : state AxiosRequestConfig) (roles : list role) : Prop := {
  co_shaped : Forall2 shaped (pool s) roles;
  co_idle :
    isRefreshing (world_of s) = false ->
    queue (world_of s) = [] /\ flag_owner (log (world_of s)) = None /\
    forall j n b, roles !! j <> Some (Leading n b);
  co_busy :
    isRefreshing (world_of s) = true ->
    exists i n b,
      roles !! i = Some (Leading n b) /\
      (forall j n' b', roles !! j = Some (Leading n' b') -> j = i) /\
      flag_owner (log (world_of s)) = Some i /\
      (calls_in_cycle (log (world_of s)) + n <= 1)%nat /\
      (b = true -> (1 <= calls_in_cycle (log (world_of s)))%nat);
  co_calls : (calls_in_cycle (log (world_of s)) <= 1)%nat;
  co_pending : forall p, p ∈ queue (world_of s) -> promises (world_of s) !! p = Some None;
  co_nodup : NoDup (queue (world_of s));
  co_queued :
    forall j p, roles !! j = Some (Queued p) ->
      p ∈ queue (world_of s) \/ exists o, promises (world_of s) !! p = Some (Some o);
  co_settled :
    forall p, p ∈ settled_waiters (log (world_of s)) ->
      exists o, promises (world_of s) !! p = Some (Some o);
  co_once : NoDup (settled_waiters (log (world_of s)));
}.

End Notions.

(** A step that leaves the coordinator alone. *)
Inductive calm : role -> role -> Prop :=
| calm_arriving : calm Arriving Arriving
| calm_passing : calm Arriving Leaving
| calm_answered (n : nat) (b : bool) : calm (Leading n b) (Leading n false)
| calm_released (p : waiter) : calm (Queued p) Leaving
| calm_leaving : calm Leaving Leaving.

(** What a step of call [i] does to its role and to the world. *)
Inductive moves (i : pid) : role -> world -> role -> world -> Prop :=
| moves_calm (r r' : role) (w w' : world) :
    same_coordinator w w' -> calm r r' -> moves i r w r' w'
| moves_enqueue (w : world) :
    isRefreshing w = true ->
    moves i Arriving w (Queued (length (promises w)))
      (record (OPush i (length (promises w)))
         (set_queue (queue w ++ [length (promises w)])
            (set_promises (promises w ++ [None]) w)))
| moves_enter (w : world) :
    isRefreshing w = false ->
    moves i Arriving w (Leading 1 false)
      (record (OSetRefreshing i true) (set_isRefreshing true w))
| moves_issue (n m : nat) (X : Type) (ev : event X) (w : world) :
    (m + (if is_refresh_call ev then 1 else 0) <= n)%nat ->
    moves i (Leading n false) w (Leading m (is_refresh_call ev)) (issue i ev w)
| moves_release (n : nat) (o : settled jsval) (w : world) :
    moves i (Leading n false) w Leaving (release i o w).

(** ** The public functions and the interceptor on their own *)

(** The error [getAuthTokens] throws for a stored text that is not JSON, and
    the error [setAccessToken] throws when nothing is stored. *)
Definition parse_failure (text : string) : jsval :=
  VError "SyntaxError" ("Failed to parse auth tokens: " +:+ text) [].

Definition nothing_to_update : jsval :=
  VError "Error"
    "Unable to update access token since there are not tokens currently stored" [].

(** The error the interceptor throws for a refresh that failed with an error
    of message [message]. *)
Definition unable_to_refresh (message : string) : jsval :=
  VError "Error"
    ("Unable to refresh access token for request due to token refresh error: " +:+ message) [].

(** The header name and the prefix the interceptor uses. *)
Definition header_of (config : AuthTokenInterceptorConfig) : string :=
  default "Authorization" (header config).

Definition prefix_of (config : AuthTokenInterceptorConfig) : string :=
  default "Bearer " (headerPrefix config).

(** The world in which call 0 has just set [isRefreshing]. *)
Definition entered (w : world) : world :=
  record (OSetRefreshing 0%nat true) (set_isRefreshing true w).

Section Tokens.
Context `{Runtime}.


(** The message of the error [refreshToken] throws when the refresh callback,
    or a storage operation after it, fails with [error]. *)
Definition refresh_failure_message (error : jsval) : string :=
  if unauthorized error then
    "Got " +:+ ToString (status_of error) +:+ " on token refresh; clearing both auth tokens"
  else
    match error with
    | VUndef => ""
    | _ => ToString error
    end.

End Tokens.

(** ** The queue and the storage in an interleaved run *)

(** The waiters pushed on the queue since it was last released, the oldest
    first. *)
Fixpoint queued_since_release (l : list obs) : list waiter :=
  match l with
  | [] => []
  | OSetRefreshing _ false :: _ => []
  | OPush _ p :: rest => queued_since_release rest ++ [p]
  | _ :: rest => queued_since_release rest
  end.

(** The queue holds the waiters in the order in which they were pushed. *)
Definition in_push_order (w : world) : Prop :=
  queue w = queued_since_release (log w).

Definition storage_event {X : Type} (ev : event X) : bool :=
  match ev with
  | AsyncStorage_getItem | AsyncStorage_setItem _ | AsyncStorage_removeItem => true
  | _ => false
  end.

Definition writes_storage {X : Type} (ev : event X) : bool :=
  match ev with
  | AsyncStorage_setItem _ | AsyncStorage_removeItem => true
  | _ => false
  end.

(** The function reads the storage and the clock and does nothing else. *)
Definition reads_only {A : Type} (p : prog A) : Prop :=
  all_events
    (fun X ev => touches_coordinator ev = false /\ is_refresh_call ev = false /\
                 writes_storage ev = false) p.

Section Readers.
Context `{Runtime}.

(** An interceptor call that has not tested [isRefreshing] yet: what is left
    of its [getRefreshToken], which only reads, then the rest. *)
Definition reader (t : task AxiosRequestConfig) : Prop :=
  exists config rc g,
    reads_only g /\
    (t = Running (bind g (intercept config rc)) \/ t = Blocked (bind g (intercept config rc))).

Definition readers (s : state AxiosRequestConfig) (roles : list role) : Prop :=
  forall j t, roles !! j = Some Arriving -> pool s !! j = Some t -> reader t.

End Readers.

(** A call of [p] arrives in [s]; the first operation it waits for fails
    with [e]; the call settles with [e] as it is, and nothing else has
    changed. *)
Definition first_failure_reaches_caller {A : Type} (p : prog A) (e : jsval) : Prop :=
  forall s : state A,
    exec [Spawn p; Resume (length (pool s)); Complete (length (pool s)) (Failing e);
          Resume (length (pool s))] s
    = Some {| world_of := world_of s; pool := pool s ++ [Finished (Rejected e)] |}.

(** The callback of call [i] answers with [v], the call runs up to its next
    suspension, the storage operation it waits for is completed with [a],
    and the call runs on. *)
Definition answered (i : pid) (v : jsval) (a : answer) : list (action AxiosRequestConfig) :=
  [Complete i (Replying v); Resume i; Complete i a; Resume i].

(** The same, and then the operation the call waits for next completes and
    the call runs on. *)
Definition answered_and_written (i : pid) (v : jsval) : list (action AxiosRequestConfig) :=
  answered i v Normally ++ [Complete i Normally; Resume i].

(** ** A concrete runtime and concrete calls *)

Module Example.

(** A decoder for the tokens of the examples: ["expired"] carries
    [exp = 1000], ["fresh"] carries [exp = 5000], ["no-exp"] has a payload
    without [exp]; anything else is not a token, and the decoder throws its
    [InvalidTokenError] as jwt-decode does. *)
Definition decode (token : jsval) : settled (gmap string Q) :=
  match token with
  | VStr s =>
      if String.eqb s "expired" then Resolved {[ "exp" := 1000%Q ]}
      else if String.eqb s "fresh" then Resolved {[ "exp" := 5000%Q ]}
      else if String.eqb s "no-exp" then Resolved ∅
      else Rejected (VError "InvalidTokenError" "Invalid token specified" [])
  | _ => Rejected (VError "InvalidTokenError" "Invalid token specified" [])
  end.

(** Numbers print as their integer part; a detached [Promise.reject] throws,
    as the native one does. *)
#[export] Instance runtime : Runtime := {|
  jwtDecode := decode;
  Number_toString q := pretty (Qnum q / Zpos (Qden q))%Z;
  Promise_reject_detached _ := TypeError "PromiseReject called on non-object";
|}.

Definition pair (accessToken refreshToken : string) : option raw :=
  Some (RawJson (JObj [("accessToken", JStr accessToken); ("refreshToken", JStr refreshToken)])).

(** The clock shows 1100 s: ["expired"] ran out 100 s ago. *)
Definition now : Z := 1100000.

Definition config : AuthTokenInterceptorConfig :=
  {| header := None; headerPrefix := None; requestRefresh := 0%nat |}.

Definition request (path : string) : AxiosRequestConfig :=
  {| url := path; headers := ∅ |}.

Definition answers (r : settled jsval) : TokenRefreshRequest -> jsval -> settled jsval :=
  fun _ _ => r.

Definition http_error (status : Z) : jsval :=
  VError "Error" "Request failed"
    [("response", VObj [("status", VNum (inject_Z status))])].

Definition network_error : jsval := VError "Error" "Network Error" [].

End Example.

(** ** Concrete runs *)

Module Runs.
Import Example.

(** Two requests.  The first finds the access token expired and invokes the
    callback; the second arrives while the callback is outstanding and is
    queued; the callback then fails with a network error. *)
Definition failing_refresh : list (action AxiosRequestConfig) :=
  [ Spawn (authTokenInterceptor config (request "/a"));
    Spawn (authTokenInterceptor config (request "/b"));
    Resume 0%nat; Complete 0%nat Normally;
    Resume 0%nat; Complete 0%nat Normally;
    Resume 0%nat; Complete 0%nat Normally;
    Resume 0%nat;
    Resume 1%nat; Complete 1%nat Normally;
    Resume 1%nat;
    Complete 0%nat (Failing network_error);
    Resume 0%nat;
    Complete 1%nat Normally;
    Resume 1%nat ].

(** Two direct calls of [refreshTokenIfNeeded], step by step side by side,
    up to the point where each has invoked the callback. *)
Definition two_direct_calls : list (action jsval) :=
  [ Spawn (refreshTokenIfNeeded 0%nat); Spawn (refreshTokenIfNeeded 0%nat);
    Resume 0%nat; Resume 1%nat;
    Complete 0%nat Normally; Complete 1%nat Normally;
    Resume 0%nat; Resume 1%nat;
    Complete 0%nat Normally; Complete 1%nat Normally;
    Resume 0%nat; Resume 1%nat ].

Definition start {A : Type} : state A := initial (pair "expired" "r1") now.

Definition caller_error : jsval :=
  VError "Error"
    "Unable to refresh access token for request due to token refresh error: Error: Network Error"
    [].

Definition waiter_error : jsval := VError "Error" "Error: Network Error" [].

End Runs.

(** ** More concrete runs *)

Module Scenes.
Import Example.

(** A request finds the access token expired and invokes the callback. *)
Definition refresh_under_way : list (action AxiosRequestConfig) :=
  [ Spawn (authTokenInterceptor config (request "/a"));
    Resume 0%nat; Complete 0%nat Normally;
    Resume 0%nat; Complete 0%nat Normally;
    Resume 0%nat; Complete 0%nat Normally;
    Resume 0%nat ].

(** Two more requests arrive while the callback is outstanding and are
    queued, ["/b"] before ["/c"]. *)
Definition two_queued : list (action AxiosRequestConfig) :=
  refresh_under_way ++
  [ Spawn (authTokenInterceptor config (request "/b"));
    Spawn (authTokenInterceptor config (request "/c"));
    Resume 1%nat; Resume 2%nat;
    Complete 2%nat Normally; Complete 1%nat Normally;
    Resume 1%nat; Resume 2%nat ].

(** The callback then answers with the token ["fresh"], and the refreshing
    call goes on until it waits for the new record to be written. *)
Definition about_to_write : list (action AxiosRequestConfig) :=
  two_queued ++
  [ Complete 0%nat (Replying (VStr "fresh")); Resume 0%nat;
    Complete 0%nat Normally; Resume 0%nat ].

(** The new record is written; the refreshing call has its last stretch
    before it. *)
Definition about_to_release : list (action AxiosRequestConfig) :=
  about_to_write ++ [ Complete 0%nat Normally ].

(** The application clears the tokens while the callback is outstanding. *)
Definition logged_out_meanwhile : list (action AxiosRequestConfig) :=
  refresh_under_way ++ [ Store None ].

(** The application stores the pair of another login while the callback is
    outstanding. *)
Definition replaced_meanwhile : list (action AxiosRequestConfig) :=
  refresh_under_way ++ [ Store (pair "other" "r9") ].

(** The refreshing call of these runs, blocked on its callback. *)
Definition refreshing : task AxiosRequestConfig :=
  Blocked (refreshSection "Authorization" "Bearer " (request "/a")
             (refreshAttempt 0%nat (VStr "r1"))).

Definition new_pair : jsval :=
  VObj [("accessToken", VStr "fresh"); ("refreshToken", VStr "r2")].

End Scenes.

(** * Proofs *)

(** ** Running composed programs *)

Section RunFacts.
Variable behaviour : TokenRefreshRequest -> jsval -> settled jsval.

Lemma run_bind {A B : Type} (p : prog A) (f : A -> prog B) (w : world) :
  run behaviour (bind p f) w =
  match run behaviour p w with
  | (Some (Resolved a), w') => run behaviour (f a) w'
  | (Some (Rejected e), w') => (Some (Rejected e), w')
  | (None, w') => (None, w')
  end.
Proof.
  revert w. induction p as [a|e|X ev k IH]; intros w; simpl; try reflexivity.
  destruct (sync_event 0%nat ev w) as [[x w']|]; [apply IH|].
  destruct (async_event ev _ _) as [[r w']|]; [apply IH|reflexivity].
Qed.

Lemma run_try_catch {A : Type} (p : prog A) (handler : jsval -> prog A) (w : world) :
  run behaviour (try_catch p handler) w =
  match run behaviour p w with
  | (Some (Rejected e), w') => run behaviour (handler e) w'
  | other => other
  end.
Proof.
  revert w. induction p as [a|e|X ev k IH]; intros w; simpl; try reflexivity.
  destruct (sync_event 0%nat ev w) as [[x w']|]; [apply IH|].
  destruct (async_event ev _ _) as [[r w']|]; [apply IH|reflexivity].
Qed.

Lemma run_lift {A : Type} (r : settled A) (w : world) :
  run behaviour (lift r) w = (Some r, w).
Proof. destruct r; reflexivity. Qed.

End RunFacts.

(** ** The token codec and the expiry policy *)

Section Expiry.
Context `{Runtime}.
Variable behaviour : TokenRefreshRequest -> jsval -> settled jsval.

Lemma run_getTimestampFromToken (token : jsval) (w : world) :
  run behaviour (getTimestampFromToken token) w =
  match jwtDecode token with
  | Resolved decoded => (Some (Resolved (decoded !! "exp")), w)
  | Rejected e => (Some (Rejected e), w)
  end.
Proof.
  unfold getTimestampFromToken. rewrite run_bind, run_lift.
  destruct (jwtDecode token); reflexivity.
Qed.

Lemma run_getExpiresIn (token : jsval) (w : world) :
  run behaviour (getExpiresIn token) w =
  match jwtDecode token with
  | Resolved decoded =>
      match decoded !! "exp" with
      | None => (Some (Resolved (-1)%Q), w)
      | Some e =>
          if Qeq_bool e 0 then (Some (Resolved (-1)%Q), w)
          else (Some (Resolved (secondsRemaining e w)), w)
      end
  | Rejected e => (Some (Rejected e), w)
  end.
Proof.
  unfold getExpiresIn. rewrite run_bind, run_getTimestampFromToken.
  destruct (jwtDecode token) as [decoded|e]; [|reflexivity].
  destruct (decoded !! "exp") as [e|]; [|reflexivity].
  destruct (Qeq_bool e 0); reflexivity.
Qed.

Lemma run_isTokenExpired (token : jsval) (w : world) :
  run behaviour (isTokenExpired token) w =
  if negb (truthy token) then (Some (Resolved true), w)
  else
    match run behaviour (getExpiresIn token) w with
    | (Some (Resolved expiresIn), w') =>
        (Some (Resolved (Qeq_bool expiresIn 0 || Qle_bool expiresIn EXPIRE_FUDGE)), w')
    | (Some (Rejected e), w') => (Some (Rejected e), w')
    | (None, w') => (None, w')
    end.
Proof.
  unfold isTokenExpired. destruct (negb (truthy token)); [reflexivity|].
  rewrite run_bind. destruct (run behaviour (getExpiresIn token) w) as [[[]|] ?]; reflexivity.
Qed.




End Expiry.

Section JsonFacts.

Lemma of_json_obj (fields : list (string * json)) :
  of_json (JObj fields) = VObj (of_json_fields fields).
Proof.
  simpl. f_equal. induction fields as [|[k x] rest IH]; simpl; [reflexivity|].
  f_equal. exact IH.
Qed.

Lemma to_json_obj (fields : list (string * jsval)) :
  to_json (VObj fields) = JObj (to_json_fields fields).
Proof.
  simpl. f_equal. induction fields as [|[k x] rest IH]; simpl; [reflexivity|].
  destruct x; simpl; rewrite IH; reflexivity.
Qed.

Lemma of_json_defined (j : json) : of_json j <> VUndef.
Proof. destruct j; discriminate. Qed.

Lemma json_nested_ind (P : json -> Prop) :
  P JNull -> (forall b, P (JBool b)) -> (forall q, P (JNum q)) -> (forall s, P (JStr s)) ->
  (forall fields, Forall (fun kv => P kv.2) fields -> P (JObj fields)) ->
  forall j, P j.
Proof.
  intros Hnull Hbool Hnum Hstr Hobj.
  fix IH 1.
  intros [|b|q|s|fields]; [exact Hnull|apply Hbool|apply Hnum|apply Hstr|].
  apply Hobj. induction fields as [|[k x] rest IHl]; constructor; [apply IH|exact IHl].
Qed.

Lemma to_json_fields_cons (k : string) (v : jsval) (l : list (string * jsval)) :
  v <> VUndef -> to_json_fields ((k, v) :: l) = (k, to_json v) :: to_json_fields l.
Proof. intros Hv. destruct v; try reflexivity. contradiction. Qed.

Lemma to_json_of_json (j : json) : to_json (of_json j) = j.
Proof.
  induction j as [| | | |fields IH] using json_nested_ind; try reflexivity.
  rewrite of_json_obj, to_json_obj. f_equal.
  induction IH as [|[k x] rest Hx _ IHl]; [reflexivity|].
  change (of_json_fields ((k, x) :: rest)) with ((k, of_json x) :: of_json_fields rest).
  rewrite to_json_fields_cons by apply of_json_defined.
  simpl in Hx. rewrite Hx, IHl. reflexivity.
Qed.

Lemma to_json_fields_of_json (fields : list (string * json)) :
  to_json_fields (of_json_fields fields) = fields.
Proof.
  pose proof (to_json_of_json (JObj fields)) as E.
  rewrite of_json_obj, to_json_obj in E. congruence.
Qed.

Lemma lookup_of_json_fields (key : string) (fields : list (string * json)) :
  lookup_field key (of_json_fields fields) = of_json <$> lookup_field key fields.
Proof.
  induction fields as [|[k x] rest IH]; simpl; [reflexivity|].
  destruct (String.eqb k key); [reflexivity|exact IH].
Qed.

Lemma set_of_json_fields (key : string) (x : json) (fields : list (string * json)) :
  set_field key (of_json x) (of_json_fields fields) = of_json_fields (set_field key x fields).
Proof.
  induction fields as [|[k y] rest IH]; simpl; [reflexivity|].
  destruct (String.eqb k key); simpl; [reflexivity|]. rewrite IH. reflexivity.
Qed.

Lemma lookup_set_field_same {V : Type} (key : string) (v : V) (fields : list (string * V)) :
  lookup_field key (set_field key v fields) = Some v.
Proof.
  induction fields as [|[k y] rest IH]; simpl.
  - rewrite String.eqb_refl. reflexivity.
  - destruct (String.eqb k key) eqn:E; simpl; rewrite E; [reflexivity|exact IH].
Qed.

Lemma lookup_set_field_other {V : Type} (key key' : string) (v : V)
    (fields : list (string * V)) :
  key <> key' -> lookup_field key' (set_field key v fields) = lookup_field key' fields.
Proof.
  intros Hne. induction fields as [|[k y] rest IH]; simpl.
  - destruct (String.eqb key key') eqn:E; [|reflexivity].
    apply String.eqb_eq in E. contradiction.
  - destruct (String.eqb k key) eqn:E; simpl.
    + apply String.eqb_eq in E. subst k.
      destruct (String.eqb key key') eqn:E'; [|reflexivity].
      apply String.eqb_eq in E'. contradiction.
    + rewrite IH. reflexivity.
Qed.

(** A stored value with a refresh token is an object. *)
Lemma stored_refresh_token_object (r : option raw) (rt : jsval) :
  stored_get "refreshToken" r = Resolved rt -> truthy rt = true ->
  exists fields, r = Some (RawJson (JObj fields)) /\
                 lookup_field "refreshToken" (of_json_fields fields) = Some rt.
Proof.
  unfold stored_get, stored_tokens. intros Hget Hrt.
  destruct r as [[j|s]|].
  - destruct j as [|b|q|s|fields];
      try (assert (rt = VUndef) as ->
             by (simpl in Hget;
                 repeat match type of Hget with
                        | context [if ?c then _ else _] => destruct c
                        end; congruence);
           discriminate).
    exists fields. split; [reflexivity|].
    rewrite of_json_obj in Hget. simpl in Hget. injection Hget as <-.
    destruct (lookup_field _ _); [reflexivity|discriminate].
  - destruct (String.eqb s ""); [|discriminate]. injection Hget as <-. discriminate.
  - injection Hget as <-. discriminate.
Qed.

End JsonFacts.

(** ** One refresh on its own *)

Section Refresh.
Context `{Runtime}.
Variable behaviour : TokenRefreshRequest -> jsval -> settled jsval.

Lemma run_getAuthTokens (w : world) :
  run behaviour getAuthTokens w = (Some (stored_tokens (storage w)), w).
Proof.
  unfold getAuthTokens, await. simpl.
  destruct (storage w) as [[j|s]|]; simpl; try reflexivity.
  destruct (String.eqb s ""); reflexivity.
Qed.

Lemma run_stored_get (key : string) (w : world) :
  run behaviour
    (tokens ← getAuthTokens; Ret (if truthy tokens then get tokens key else VUndef)) w
  = (Some (stored_get key (storage w)), w).
Proof.
  rewrite run_bind, run_getAuthTokens. unfold stored_get.
  destruct (stored_tokens (storage w)); reflexivity.
Qed.

Lemma run_getRefreshToken (w : world) :
  run behaviour getRefreshToken w = (Some (stored_get "refreshToken" (storage w)), w).
Proof. apply run_stored_get. Qed.

Lemma run_getAccessToken (w : world) :
  run behaviour getAccessToken w = (Some (stored_get "accessToken" (storage w)), w).
Proof. apply run_stored_get. Qed.

Lemma run_isLoggedIn (w : world) :
  run behaviour isLoggedIn w =
  match stored_get "refreshToken" (storage w) with
  | Resolved token => (Some (Resolved (truthy token)), w)
  | Rejected e => (Some (Rejected e), w)
  end.
Proof.
  unfold isLoggedIn. rewrite run_bind, run_getRefreshToken.
  destruct (stored_get _ _); reflexivity.
Qed.

Lemma run_refreshToken (cb : TokenRefreshRequest) (w : world) :
  run behaviour (refreshToken cb) w =
  match stored_get "refreshToken" (storage w) with
  | Resolved rt =>
      if truthy rt then run behaviour (refreshAttempt cb rt) w
      else (Some (Rejected (newError (VStr "No refresh token available"))), w)
  | Rejected e => (Some (Rejected e), w)
  end.
Proof.
  unfold refreshToken. rewrite run_bind, run_getRefreshToken.
  destruct (stored_get _ _) as [rt|e]; [|reflexivity].
  destruct (truthy rt); reflexivity.
Qed.

Lemma run_refreshAttempt_rejected (cb : TokenRefreshRequest) (rt e : jsval) (w : world) :
  behaviour cb rt = Rejected e ->
  run behaviour (refreshAttempt cb rt) w =
  if unauthorized e then
    (Some (Rejected (newError (VStr
       ("Got " +:+ ToString (status_of e) +:+ " on token refresh; clearing both auth tokens")))),
     set_storage None (invoked cb rt w))
  else (Some (Rejected (newError e)), invoked cb rt w).
Proof.
  intros Hb. unfold refreshAttempt, await. simpl. rewrite Hb. simpl.
  fold (status_of e). fold (unauthorized e).
  destruct (unauthorized e); reflexivity.
Qed.

Lemma run_refreshAttempt_violation (cb : TokenRefreshRequest) (rt v : jsval) (w : world) :
  behaviour cb rt = Resolved v ->
  typeof_object v && truthy (opt_get v "accessToken") = false ->
  typeof_string v = false ->
  run behaviour (refreshAttempt cb rt) w =
  (Some (Rejected (newError protocol_error)), invoked cb rt w).
Proof.
  intros Hb Hobj Hstr. unfold refreshAttempt, await. simpl. rewrite Hb. simpl.
  rewrite Hobj, Hstr. reflexivity.
Qed.

Lemma run_refreshAttempt_string (cb : TokenRefreshRequest) (rt : jsval) (s : string)
    (fields : list (string * json)) (w : world) :
  behaviour cb rt = Resolved (VStr s) ->
  storage w = Some (RawJson (JObj fields)) ->
  run behaviour (refreshAttempt cb rt) w =
  (Some (Resolved (VStr s)),
   set_storage (Some (RawJson (JObj (set_field "accessToken" (JStr s) fields))))
     (invoked cb rt w)).
Proof.
  intros Hb Hst. unfold refreshAttempt, await. simpl. rewrite Hb. simpl.
  rewrite Hst. simpl.
  pose proof (of_json_obj fields) as Ho. simpl in Ho. injection Ho as Ho. rewrite Ho.
  change (set_field "accessToken" (VStr s) (of_json_fields fields))
    with (set_field "accessToken" (of_json (JStr s)) (of_json_fields fields)).
  rewrite set_of_json_fields. unfold JSON_stringify.
  rewrite to_json_obj, to_json_fields_of_json. reflexivity.
Qed.

End Refresh.

(** ** The refresh, call by call *)

Section RefreshClaims.
Context `{Runtime}.
Variable behaviour : TokenRefreshRequest -> jsval -> settled jsval.

Lemma run_isTokenExpired_total (token : jsval) (w : world) :
  exists r, run behaviour (isTokenExpired token) w = (Some r, w).
Proof.
  rewrite run_isTokenExpired, run_getExpiresIn.
  destruct (negb (truthy token)); [eauto|].
  destruct (jwtDecode token) as [decoded|e]; [|eauto].
  destruct (decoded !! "exp") as [e|]; [|eauto].
  destruct (Qeq_bool e 0); eauto.
Qed.

Lemma run_refreshTokenIfNeeded (cb : TokenRefreshRequest) (w : world) :
  run behaviour (refreshTokenIfNeeded cb) w =
  match stored_get "accessToken" (storage w) with
  | Resolved accessToken =>
      match run behaviour (isTokenExpired accessToken) w with
      | (Some (Resolved true), w') => run behaviour (refreshToken cb) w'
      | (Some (Resolved false), w') => (Some (Resolved accessToken), w')
      | (Some (Rejected e), w') => (Some (Rejected e), w')
      | (None, w') => (None, w')
      end
  | Rejected e => (Some (Rejected e), w)
  end.
Proof.
  unfold refreshTokenIfNeeded. rewrite run_bind, run_getAccessToken.
  destruct (stored_get _ _) as [accessToken|e]; [|reflexivity].
  rewrite run_bind. destruct (negb (truthy accessToken)) eqn:Ht.
  - rewrite run_isTokenExpired, Ht. reflexivity.
  - destruct (run behaviour (isTokenExpired accessToken) w) as [[[[|]|e]|] w']; reflexivity.
Qed.

Lemma run_refreshTokenIfNeeded_stale (cb : TokenRefreshRequest) (w : world) :
  access_token_stale behaviour w ->
  run behaviour (refreshTokenIfNeeded cb) w = run behaviour (refreshToken cb) w.
Proof.
  intros (accessToken & Ha & He). rewrite run_refreshTokenIfNeeded.
  rewrite run_getAccessToken in Ha. injection Ha as ->. rewrite He. reflexivity.
Qed.

(** C2.  With a refresh token stored, a rejection of the refresh callback
    makes [refreshToken] fail, and on the way the stored pair is removed
    exactly when [error.response.status] is 401 or 422: then nobody is logged
    in any more; after any other rejection the storage is as it was and
    [getRefreshToken] returns the same token. *)
Theorem refresh_failure_classification (cb : TokenRefreshRequest) (rt e : jsval) (w : world) :
  run behaviour getRefreshToken w = (Some (Resolved rt), w) ->
  truthy rt = true ->
  behaviour cb rt = Rejected e ->
  exists err w',
    run behaviour (refreshToken cb) w = (Some (Rejected err), w') /\
    (storage w' = None <-> unauthorized e = true) /\
    (unauthorized e = true ->
     run behaviour isLoggedIn w' = (Some (Resolved false), w')) /\
    (unauthorized e = false ->
     storage w' = storage w /\
     run behaviour getRefreshToken w' = (Some (Resolved rt), w')).
Proof.
  intros Hrt Ht Hb. rewrite run_getRefreshToken in Hrt. injection Hrt as Hrt.
  rewrite run_refreshToken, Hrt, Ht, (run_refreshAttempt_rejected _ _ _ _ _ Hb).
  destruct (stored_refresh_token_object _ _ Hrt Ht) as (fields & Hst & _).
  destruct (unauthorized e); eexists _, _; (split; [reflexivity|]).
  - split; [split; reflexivity|]. split; [|discriminate].
    intros _. rewrite run_isLoggedIn. reflexivity.
  - split.
    { split; [|discriminate]. simpl. rewrite Hst. discriminate. }
    split; [discriminate|].
    intros _. split; [reflexivity|].
    rewrite run_getRefreshToken. simpl. rewrite Hrt. reflexivity.
Qed.

(** C7.  With a refresh token stored and the access token missing or
    expired, a callback that resolves to the bare string [s] makes
    [refreshTokenIfNeeded] return [s]; the stored record is the old one with
    [accessToken] set to [s], so the access token read back is [s] and the
    refresh token read back is the old one. *)
Theorem bare_token_refresh (cb : TokenRefreshRequest) (rt : jsval) (s : string) (w : world) :
  run behaviour getRefreshToken w = (Some (Resolved rt), w) ->
  truthy rt = true ->
  access_token_stale behaviour w ->
  behaviour cb rt = Resolved (VStr s) ->
  exists w',
    run behaviour (refreshTokenIfNeeded cb) w = (Some (Resolved (VStr s)), w') /\
    run behaviour getAccessToken w' = (Some (Resolved (VStr s)), w') /\
    run behaviour getRefreshToken w' = (Some (Resolved rt), w') /\
    exists fields,
      storage w = Some (RawJson (JObj fields)) /\
      storage w' = Some (RawJson (JObj (set_field "accessToken" (JStr s) fields))).
Proof.
  intros Hrt Ht Hstale Hb. rewrite run_getRefreshToken in Hrt. injection Hrt as Hrt.
  destruct (stored_refresh_token_object _ _ Hrt Ht) as (fields & Hst & Hf).
  rewrite (run_refreshTokenIfNeeded_stale _ _ Hstale), run_refreshToken, Hrt, Ht.
  rewrite (run_refreshAttempt_string _ _ _ _ _ _ Hb Hst).
  eexists. split; [reflexivity|].
  rewrite run_getAccessToken, run_getRefreshToken. simpl.
  unfold stored_get, stored_tokens. rewrite !of_json_obj. simpl.
  rewrite <- set_of_json_fields, lookup_set_field_same.
  rewrite lookup_set_field_other by discriminate. rewrite Hf.
  repeat split. exists fields. split; [exact Hst|reflexivity].
Qed.

(** C5, as the code has it.  When no refresh token is stored,
    [refreshTokenIfNeeded] invokes no callback and changes nothing, and it
    never returns [undefined]: it fails with "No refresh token available"
    when there is no access token either, and a token it returns is the
    stored access token, found not expired.  It is the interceptor that lets
    the request pass as it came. *)
Theorem no_refresh_token_stored (cb : TokenRefreshRequest) (rt : jsval) (w : world) :
  run behaviour getRefreshToken w = (Some (Resolved rt), w) ->
  truthy rt = false ->
  (exists r,
     run behaviour (refreshTokenIfNeeded cb) w = (Some r, w) /\
     r <> Resolved VUndef /\
     forall accessToken,
       run behaviour getAccessToken w = (Some (Resolved accessToken), w) ->
       (truthy accessToken = false ->
        r = Rejected (newError (VStr "No refresh token available"))) /\
       (forall token, r = Resolved token ->
          token = accessToken /\
          run behaviour (isTokenExpired accessToken) w = (Some (Resolved false), w))) /\
  (forall config requestConfig,
     run behaviour (authTokenInterceptor config requestConfig) w
     = (Some (Resolved requestConfig), w)).
Proof.
  intros Hrt Ht. rewrite run_getRefreshToken in Hrt. injection Hrt as Hrt. split.
  - rewrite run_refreshTokenIfNeeded, run_getAccessToken.
    assert (Hat : exists accessToken, stored_get "accessToken" (storage w) = Resolved accessToken).
    { unfold stored_get in *. destruct (stored_tokens (storage w)); [eauto|discriminate]. }
    destruct Hat as [accessToken Hat]. rewrite Hat.
    pose proof (run_isTokenExpired behaviour accessToken w) as He.
    destruct (run_isTokenExpired_total accessToken w) as [r Hr]. rewrite Hr.
    destruct r as [[|]|e].
    + rewrite run_refreshToken, Hrt, Ht. eexists. split; [reflexivity|].
      split; [discriminate|]. intros a [= <-]. split; [reflexivity|discriminate].
    + eexists. split; [reflexivity|].
      assert (truthy accessToken = true) as Hta.
      { destruct (truthy accessToken); [reflexivity|]. simpl in He. congruence. }
      split; [intros [= ->]; discriminate|].
      intros a [= <-]. split; [congruence|].
      intros token [= <-]. split; [reflexivity|exact Hr].
    + eexists. split; [reflexivity|]. split; [discriminate|].
      intros a [= <-]. split; [|discriminate].
      intros Hf. rewrite Hf in He. simpl in He. congruence.
  - intros config requestConfig. unfold authTokenInterceptor.
    rewrite run_bind, run_getRefreshToken, Hrt. unfold intercept. rewrite Ht. reflexivity.
Qed.

End RefreshClaims.

Section EventFacts.
Context `{Runtime}.

Lemma all_events_bind {A B : Type} (P : forall X, event X -> Prop)
    (p : prog A) (f : A -> prog B) :
  all_events P p -> (forall a, all_events P (f a)) -> all_events P (bind p f).
Proof.
  intros Hp Hf. induction p as [a|e|X ev k IH]; simpl; [apply Hf|exact I|].
  destruct Hp as [Hev Hk]. split; [exact Hev|]. intros r. apply IH, Hk.
Qed.

Lemma all_events_try_catch {A : Type} (P : forall X, event X -> Prop)
    (p : prog A) (handler : jsval -> prog A) :
  all_events P p -> (forall e, all_events P (handler e)) -> all_events P (try_catch p handler).
Proof.
  intros Hp Hh. induction p as [a|e|X ev k IH]; simpl; [exact I|apply Hh|].
  destruct Hp as [Hev Hk]. split; [exact Hev|]. intros r. apply IH, Hk.
Qed.

Lemma all_events_lift {A : Type} (P : forall X, event X -> Prop) (r : settled A) :
  all_events P (lift r).
Proof. destruct r; exact I. Qed.

Lemma all_events_await {X : Type} (P : forall X, event X -> Prop) (ev : event X) :
  P X ev -> all_events P (await ev).
Proof. intros Hev. split; [exact Hev|]. intros r. apply all_events_lift. Qed.

Lemma all_events_weaken {A : Type} (P Q : forall X, event X -> Prop) (p : prog A) :
  (forall X ev, P X ev -> Q X ev) -> all_events P p -> all_events Q p.
Proof.
  intros HPQ. induction p as [a|e|X ev k IH]; simpl; try tauto.
  intros [Hev Hk]. split; [apply HPQ, Hev|]. intros r. apply IH, Hk.
Qed.

Lemma quiet_coord_free {A : Type} (p : prog A) : quiet p -> coord_free p.
Proof. apply all_events_weaken. tauto. Qed.

Lemma calls_at_most_mono {A : Type} (n m : nat) (p : prog A) :
  (n <= m)%nat -> calls_at_most n p -> calls_at_most m p.
Proof.
  revert n m. induction p as [a|e|X ev k IH]; simpl; try tauto.
  intros n m Hnm. destruct (is_refresh_call ev).
  - destruct n as [|n]; [tauto|]. destruct m as [|m]; [lia|].
    intros Hk r. apply (IH r n m); [lia|apply Hk].
  - intros Hk r. apply (IH r n m); [lia|apply Hk].
Qed.

Lemma quiet_calls {A : Type} (n : nat) (p : prog A) : quiet p -> calls_at_most n p.
Proof.
  induction p as [a|e|X ev k IH]; simpl; try tauto.
  intros [[_ Hev] Hk]. rewrite Hev. intros r. apply IH, Hk.
Qed.

Lemma calls_at_most_bind {A B : Type} (n : nat) (p : prog A) (f : A -> prog B) :
  calls_at_most n p -> (forall a, quiet (f a)) -> calls_at_most n (bind p f).
Proof.
  intros Hp Hf. revert n Hp. induction p as [a|e|X ev k IH]; simpl; intros n Hp.
  - apply quiet_calls, Hf.
  - exact I.
  - destruct (is_refresh_call ev).
    + destruct n as [|n]; [exact Hp|]. intros r. apply IH, Hp.
    + intros r. apply IH, Hp.
Qed.

Lemma calls_at_most_try_catch {A : Type} (n : nat) (p : prog A) (handler : jsval -> prog A) :
  calls_at_most n p -> (forall e, quiet (handler e)) -> calls_at_most n (try_catch p handler).
Proof.
  intros Hp Hh. revert n Hp. induction p as [a|e|X ev k IH]; simpl; intros n Hp.
  - exact I.
  - apply quiet_calls, Hh.
  - destruct (is_refresh_call ev).
    + destruct n as [|n]; [exact Hp|]. intros r. apply IH, Hp.
    + intros r. apply IH, Hp.
Qed.

Lemma calls_after_quiet {A B : Type} (n : nat) (p : prog A) (f : A -> prog B) :
  quiet p -> (forall a, calls_at_most n (f a)) -> calls_at_most n (bind p f).
Proof.
  intros Hp Hf. induction p as [a|e|X ev k IH]; simpl; [apply Hf|exact I|].
  destruct Hp as [[_ Hev] Hk]. rewrite Hev. intros r. apply IH, Hk.
Qed.

Ltac quiet_step :=
  first
    [ apply all_events_bind; [|intros ?]
    | apply all_events_await; split; reflexivity
    | apply all_events_lift
    | exact I ].

Lemma quiet_getAuthTokens : quiet getAuthTokens.
Proof.
  unfold quiet, getAuthTokens. quiet_step; [quiet_step|].
  destruct (raw_absent a); [exact I|]. destruct a as [[j|s]|]; exact I.
Qed.

Lemma quiet_getRefreshToken : quiet getRefreshToken.
Proof. apply all_events_bind; [apply quiet_getAuthTokens|intros ?; exact I]. Qed.

Lemma quiet_getAccessToken : quiet getAccessToken.
Proof. apply all_events_bind; [apply quiet_getAuthTokens|intros ?; exact I]. Qed.

Lemma quiet_setAuthTokens (tokens : jsval) : quiet (setAuthTokens tokens).
Proof. unfold quiet, setAuthTokens. quiet_step. Qed.

Lemma quiet_setAccessToken (token : jsval) : quiet (setAccessToken token).
Proof.
  apply all_events_bind; [apply quiet_getAuthTokens|]. intros tokens.
  destruct (negb (truthy tokens)); [exact I|].
  apply all_events_bind; [apply all_events_lift|]. intros ?. apply quiet_setAuthTokens.
Qed.

Lemma quiet_isTokenExpired (token : jsval) : quiet (isTokenExpired token).
Proof.
  unfold isTokenExpired. destruct (negb (truthy token)); [exact I|].
  apply all_events_bind; [|intros ?; exact I].
  unfold getExpiresIn. apply all_events_bind.
  - unfold getTimestampFromToken. apply all_events_bind; [apply all_events_lift|].
    intros ?. exact I.
  - intros [e|]; [|exact I]. destruct (Qeq_bool e 0); [exact I|].
    apply all_events_bind; [apply all_events_await; split; reflexivity|intros ?; exact I].
Qed.

Lemma coord_free_refreshAttempt (cb : TokenRefreshRequest) (rt : jsval) :
  coord_free (refreshAttempt cb rt).
Proof.
  unfold refreshAttempt. apply all_events_try_catch.
  - apply all_events_bind; [apply all_events_await; reflexivity|]. intros v.
    destruct (typeof_object v && truthy (opt_get v "accessToken")).
    { apply all_events_bind; [apply quiet_coord_free, quiet_setAuthTokens|intros ?; exact I]. }
    destruct (typeof_string v); [|exact I].
    apply all_events_bind; [apply quiet_coord_free, quiet_setAccessToken|intros ?; exact I].
  - intros e. cbv beta zeta. destruct (_ || _); [|exact I].
    apply all_events_bind; [apply all_events_await; reflexivity|intros ?; exact I].
Qed.

Lemma calls_await_refresh {B : Type} (n : nat) (cb : TokenRefreshRequest) (rt : jsval)
    (f : jsval -> prog B) :
  (forall v, calls_at_most n (f v)) ->
  calls_at_most (S n) (bind (await (RequestRefresh cb rt)) f).
Proof. intros Hf. simpl. intros [v|e]; simpl; [apply Hf|exact I]. Qed.

Lemma calls_refreshAttempt (cb : TokenRefreshRequest) (rt : jsval) :
  calls_at_most 1 (refreshAttempt cb rt).
Proof.
  unfold refreshAttempt. apply calls_at_most_try_catch.
  - apply calls_await_refresh. intros v.
    destruct (typeof_object v && truthy (opt_get v "accessToken")).
    { apply quiet_calls.
      apply all_events_bind; [apply quiet_setAuthTokens|intros ?; exact I]. }
    destruct (typeof_string v); [|exact I].
    apply quiet_calls.
    apply all_events_bind; [apply quiet_setAccessToken|intros ?; exact I].
  - intros e. cbv beta zeta. destruct (_ || _); [|exact I].
    apply all_events_bind; [apply all_events_await; split; reflexivity|intros ?; exact I].
Qed.

Lemma coord_free_refreshToken (cb : TokenRefreshRequest) : coord_free (refreshToken cb).
Proof.
  apply all_events_bind; [apply quiet_coord_free, quiet_getRefreshToken|]. intros rt.
  destruct (negb (truthy rt)); [exact I|apply coord_free_refreshAttempt].
Qed.

Lemma calls_refreshToken (cb : TokenRefreshRequest) : calls_at_most 1 (refreshToken cb).
Proof.
  apply calls_after_quiet; [apply quiet_getRefreshToken|]. intros rt.
  destruct (negb (truthy rt)); [exact I|apply calls_refreshAttempt].
Qed.

Lemma coord_free_refreshTokenIfNeeded (cb : TokenRefreshRequest) :
  coord_free (refreshTokenIfNeeded cb).
Proof.
  apply all_events_bind; [apply quiet_coord_free, quiet_getAccessToken|]. intros accessToken.
  apply all_events_bind.
  - destruct (negb (truthy accessToken)); [exact I|].
    apply quiet_coord_free, quiet_isTokenExpired.
  - intros [|]; [apply coord_free_refreshToken|exact I].
Qed.

Lemma calls_refreshTokenIfNeeded (cb : TokenRefreshRequest) :
  calls_at_most 1 (refreshTokenIfNeeded cb).
Proof.
  apply calls_after_quiet; [apply quiet_getAccessToken|]. intros accessToken.
  apply calls_after_quiet.
  - destruct (negb (truthy accessToken)); [exact I|apply quiet_isTokenExpired].
  - intros [|]; [apply calls_refreshToken|exact I].
Qed.

End EventFacts.

(** ** Synchronous stretches of composed programs *)

Section SyncFacts.
Context `{Runtime}.
Variable i : pid.

Lemma run_sync_bind {A B : Type} (p : prog A) (f : A -> prog B) (w : world) :
  run_sync i (bind p f) w =
  match run_sync i p w with
  | (Finished (Resolved a), w') => run_sync i (f a) w'
  | (Finished (Rejected e), w') => (Finished (Rejected e), w')
  | (Blocked p', w') => (Blocked (bind p' f), w')
  | (Running p', w') => (Running (bind p' f), w')
  end.
Proof.
  revert w. induction p as [a|e|X ev k IH]; intros w; simpl; try reflexivity.
  destruct (sync_event i ev w) as [[x w']|]; [apply IH|reflexivity].
Qed.

Lemma run_sync_try_catch {A : Type} (p : prog A) (handler : jsval -> prog A) (w : world) :
  run_sync i (try_catch p handler) w =
  match run_sync i p w with
  | (Finished (Resolved a), w') => (Finished (Resolved a), w')
  | (Finished (Rejected e), w') => run_sync i (handler e) w'
  | (Blocked p', w') => (Blocked (try_catch p' handler), w')
  | (Running p', w') => (Running (try_catch p' handler), w')
  end.
Proof.
  revert w. induction p as [a|e|X ev k IH]; intros w; simpl; try reflexivity.
  destruct (sync_event i ev w) as [[x w']|]; [apply IH|reflexivity].
Qed.

Lemma run_sync_try_finally {A : Type} (p : prog A) (fin : prog unit) (w : world) :
  run_sync i (try_finally p fin) w =
  match run_sync i p w with
  | (Finished r, w') => run_sync i (bind fin (fun _ => lift r)) w'
  | (Blocked p', w') => (Blocked (try_finally p' fin), w')
  | (Running p', w') => (Running (try_finally p' fin), w')
  end.
Proof.
  revert w. induction p as [a|e|X ev k IH]; intros w; simpl; try reflexivity.
  destruct (sync_event i ev w) as [[x w']|]; [apply IH|reflexivity].
Qed.

Lemma run_sync_lift {A : Type} (r : settled A) (w : world) :
  run_sync i (lift r) w = (Finished r, w).
Proof. destruct r; reflexivity. Qed.

Lemma run_sync_forEach_resolve (ps : list waiter) (token : jsval) (w : world) :
  run_sync i (forEach ps (fun p => call (WaiterResolve p token))) w =
  (Finished (Resolved tt), settle_all i ps (Resolved token) w).
Proof.
  revert w. induction ps as [|p ps IH]; intros w; [reflexivity|].
  cbn [forEach]. rewrite run_sync_bind. simpl. apply IH.
Qed.

Lemma run_sync_forEach_reject (ps : list waiter) (error : jsval) (w : world) :
  run_sync i (forEach ps (fun p => call (WaiterReject p error))) w =
  (Finished (Resolved tt), settle_all i ps (Rejected error) w).
Proof.
  revert w. induction ps as [|p ps IH]; intros w; [reflexivity|].
  cbn [forEach]. rewrite run_sync_bind. simpl. apply IH.
Qed.

Lemma run_sync_resolveQueue (token : jsval) (w : world) :
  run_sync i (resolveQueue token) w =
  (Finished (Resolved tt), set_queue [] (settle_all i (queue w) (Resolved token) w)).
Proof.
  unfold resolveQueue. rewrite run_sync_bind. simpl.
  rewrite run_sync_bind, run_sync_forEach_resolve. reflexivity.
Qed.

Lemma run_sync_declineQueue (error : jsval) (w : world) :
  run_sync i (declineQueue error) w =
  (Finished (Resolved tt), set_queue [] (settle_all i (queue w) (Rejected error) w)).
Proof.
  unfold declineQueue. rewrite run_sync_bind. simpl.
  rewrite run_sync_bind, run_sync_forEach_reject. reflexivity.
Qed.

Lemma queue_settle_all (ps : list waiter) (o : settled jsval) (w : world) :
  queue (settle_all i ps o w) = queue w.
Proof.
  revert w. induction ps as [|p ps IH]; intros w; [reflexivity|].
  change (queue (settle_all i ps o (settle i p o w)) = queue w).
  rewrite IH. unfold settle.
  destruct (promises w !! p) as [[?|]|]; reflexivity.
Qed.

Lemma run_sync_refreshSection (h hp : string) (rc : AxiosRequestConfig)
    (q : prog jsval) (w : world) :
  run_sync i (refreshSection h hp rc q) w =
  match run_sync i q w with
  | (Finished r, w') => (Finished (section_outcome h hp rc r), release i r w')
  | (Blocked q', w') => (Blocked (refreshSection h hp rc q'), w')
  | (Running q', w') => (Running (refreshSection h hp rc q'), w')
  end.
Proof.
  unfold refreshSection.
  rewrite run_sync_bind, run_sync_try_finally, run_sync_try_catch, run_sync_bind.
  destruct (run_sync i q w) as [[q'|q'|[token|error]] w']; try reflexivity.
  - rewrite run_sync_bind, run_sync_resolveQueue. simpl.
    destruct (truthy token); reflexivity.
  - rewrite run_sync_bind, run_sync_declineQueue, run_sync_bind, run_sync_lift.
    unfold section_outcome.
    destruct (member error "message") as [m|e]; reflexivity.
Qed.

Lemma run_sync_queuedRequest_settled (h hp : string) (rc : AxiosRequestConfig)
    (o : settled jsval) (w : world) :
  run_sync i (queuedRequest h hp rc (lift o)) w = (Finished (queued_outcome h hp rc o), w).
Proof. destruct o; reflexivity. Qed.

End SyncFacts.

(** ** Local steps of an interceptor call *)

Section WorldFacts.
Variable i : pid.

Lemma elem_of_rev {A : Type} (x : A) (l : list A) : x ∈ rev l <-> x ∈ l.
Proof. rewrite !list_elem_of_In. symmetry. apply in_rev. Qed.

Lemma NoDup_rev_stable {A : Type} (l : list A) : NoDup l -> NoDup (rev l).
Proof. rewrite !NoDup_ListNoDup. apply List.NoDup_rev. Qed.

Lemma same_coordinator_refl (w : world) : same_coordinator w w.
Proof. repeat split. Qed.

Lemma async_event_quiet {X : Type} (ev : event X) (a : answer) (w w' : world)
    (r : settled X) :
  touches_coordinator ev = false ->
  async_event ev a w = Some (r, w') -> same_coordinator w w'.
Proof.
  intros Hev Ha. destruct ev; try discriminate; simpl in Ha;
    destruct a; try discriminate; injection Ha as _ <-; repeat split.
Qed.

Lemma calls_in_cycle_issue {X : Type} (ev : event X) (w : world) :
  calls_in_cycle (log (issue i ev w)) =
  (calls_in_cycle (log w) + (if is_refresh_call ev then 1 else 0))%nat.
Proof. destruct ev; simpl; lia. Qed.

Lemma issue_same {X : Type} (ev : event X) (w : world) :
  isRefreshing (issue i ev w) = isRefreshing w /\
  queue (issue i ev w) = queue w /\
  promises (issue i ev w) = promises w /\
  storage (issue i ev w) = storage w /\
  flag_owner (log (issue i ev w)) = flag_owner (log w) /\
  settled_waiters (log (issue i ev w)) = settled_waiters (log w).
Proof. destruct ev; repeat split. Qed.

Lemma settle_all_cons (p : waiter) (ps : list waiter) (o : settled jsval) (w : world) :
  settle_all i (p :: ps) o w = settle_all i ps o (settle i p o w).
Proof. reflexivity. Qed.

Lemma promises_settle (p p' : waiter) (o : settled jsval) (w : world) :
  promises (settle i p o w) !! p' =
  match promises w !! p' with
  | Some None => if decide (p' = p) then Some (Some o) else Some None
  | other => other
  end.
Proof.
  unfold settle. simpl. destruct (promises w !! p) as [[x|]|] eqn:Hp; simpl.
  - destruct (promises w !! p') as [[y|]|] eqn:Hp'; try reflexivity.
    destruct (decide (p' = p)) as [->|]; [congruence|reflexivity].
  - destruct (decide (p' = p)) as [->|Hne].
    + rewrite list_lookup_insert_eq by (eapply lookup_lt_Some; eassumption).
      rewrite Hp. reflexivity.
    + rewrite list_lookup_insert_ne by congruence.
      destruct (promises w !! p') as [[y|]|]; reflexivity.
  - destruct (promises w !! p') as [[y|]|] eqn:Hp'; try reflexivity.
    destruct (decide (p' = p)) as [->|]; [congruence|reflexivity].
Qed.

Lemma promises_settle_all (ps : list waiter) (p' : waiter) (o : settled jsval) (w : world) :
  promises (settle_all i ps o w) !! p' =
  match promises w !! p' with
  | Some None => if decide (p' ∈ ps) then Some (Some o) else Some None
  | other => other
  end.
Proof.
  revert w. induction ps as [|p ps IH]; intros w.
  - simpl. destruct (promises w !! p') as [[y|]|]; reflexivity.
  - rewrite settle_all_cons, IH, promises_settle.
    destruct (promises w !! p') as [[y|]|]; try reflexivity.
    destruct (decide (p' = p)) as [->|Hne].
    + destruct (decide (p ∈ p :: ps)) as [|Hn]; [reflexivity|].
      exfalso. apply Hn. left.
    + destruct (decide (p' ∈ ps)) as [Hin|Hn];
        destruct (decide (p' ∈ p :: ps)) as [Hin'|Hn']; try reflexivity.
      * exfalso. apply Hn'. right. exact Hin.
      * exfalso. apply Hn. apply elem_of_cons in Hin' as [?|?]; [contradiction|assumption].
Qed.

Lemma log_settle_all (ps : list waiter) (o : settled jsval) (w : world) :
  log (settle_all i ps o w) = rev (map (fun p => OSettle i p o) ps) ++ log w.
Proof.
  revert w. induction ps as [|p ps IH]; intros w; [reflexivity|].
  rewrite settle_all_cons, IH. simpl. rewrite <- app_assoc. simpl.
  destruct (promises w !! p) as [[?|]|]; reflexivity.
Qed.

Lemma settle_all_same (ps : list waiter) (o : settled jsval) (w : world) :
  storage (settle_all i ps o w) = storage w /\
  clock (settle_all i ps o w) = clock w /\
  isRefreshing (settle_all i ps o w) = isRefreshing w.
Proof.
  revert w. induction ps as [|p ps IH]; intros w; [repeat split|].
  rewrite settle_all_cons. destruct (IH (settle i p o w)) as (-> & -> & ->).
  unfold settle. destruct (promises w !! p) as [[?|]|]; repeat split.
Qed.

Lemma calls_in_cycle_settles (l : list obs) (ps : list waiter) (o : settled jsval) :
  calls_in_cycle (map (fun p => OSettle i p o) ps ++ l) = calls_in_cycle l.
Proof. induction ps as [|p ps IH]; simpl; [reflexivity|exact IH]. Qed.

Lemma settled_waiters_settles (l : list obs) (ps : list waiter) (o : settled jsval) :
  settled_waiters (map (fun p => OSettle i p o) ps ++ l) = ps ++ settled_waiters l.
Proof.
  induction ps as [|p ps IH]; simpl; [reflexivity|].
  unfold settled_waiters in *. simpl. rewrite IH. reflexivity.
Qed.

Lemma calls_in_cycle_settle_all (ps : list waiter) (o : settled jsval) (w : world) :
  calls_in_cycle (log (settle_all i ps o w)) = calls_in_cycle (log w).
Proof. rewrite log_settle_all, <- map_rev. apply calls_in_cycle_settles. Qed.

Lemma settled_waiters_settle_all (ps : list waiter) (o : settled jsval) (w : world) :
  settled_waiters (log (settle_all i ps o w)) = rev ps ++ settled_waiters (log w).
Proof. rewrite log_settle_all, <- map_rev. apply settled_waiters_settles. Qed.

Lemma log_release (o : settled jsval) (w : world) :
  log (release i o w) =
  OSetRefreshing i false :: map (fun p => OSettle i p o) (rev (queue w)) ++ log w.
Proof.
  unfold release. simpl. rewrite log_settle_all, map_rev. reflexivity.
Qed.

Lemma promises_release (o : settled jsval) (w : world) (p : waiter) :
  promises (release i o w) !! p =
  match promises w !! p with
  | Some None => if decide (p ∈ queue w) then Some (Some o) else Some None
  | other => other
  end.
Proof. unfold release. simpl. apply promises_settle_all. Qed.

Lemma release_same (o : settled jsval) (w : world) :
  storage (release i o w) = storage w /\
  isRefreshing (release i o w) = false /\
  queue (release i o w) = [].
Proof.
  unfold release. simpl. destruct (settle_all_same (queue w) o w) as (-> & _ & _).
  repeat split.
Qed.

End WorldFacts.

Section LocalSteps.
Context `{Runtime}.
Variable i : pid.

Lemma run_sync_quiet {A : Type} (g : prog A) (w : world) :
  quiet g ->
  (exists r, run_sync i g w = (Finished r, w)) \/
  (exists g', run_sync i g w = (Blocked g', w) /\ quiet g').
Proof.
  induction g as [a|e|X ev k IH]; intros Hq; simpl; [left; eauto..|].
  destruct Hq as [[Hc Hr] Hk].
  destruct ev as [ |value| |cb rt| | |fl| |qu| |p|p v|p e|p ]; try discriminate; simpl;
    try (right; eexists; split; [reflexivity|]; split; [split; reflexivity|exact Hk]).
  apply IH, Hk.
Qed.

Lemma run_sync_attempt (q : prog jsval) (w : world) (n : nat) :
  coord_free q -> calls_at_most n q ->
  (exists r, run_sync i q w = (Finished r, w)) \/
  (exists X (ev : event X) k m,
     run_sync i q w = (Blocked (Vis ev k), issue i ev w) /\
     touches_coordinator ev = false /\
     (forall r, coord_free (k r)) /\ (forall r, calls_at_most m (k r)) /\
     (m + (if is_refresh_call ev then 1 else 0) <= n)%nat).
Proof.
  induction q as [a|e|X ev k IH]; intros Hq Hn; simpl; [left; eauto..|].
  destruct Hq as [Hc Hk]. simpl in Hn.
  destruct ev as [ |value| |cb rt| | |fl| |qu| |p|p v|p e|p ]; try discriminate; simpl in *.
  - right. exists _, AsyncStorage_getItem, k, n. repeat split; auto. simpl. lia.
  - right. exists _, (AsyncStorage_setItem value), k, n. repeat split; auto. simpl. lia.
  - right. exists _, AsyncStorage_removeItem, k, n. repeat split; auto. simpl. lia.
  - destruct n as [|m]; [contradiction|].
    right. exists _, (RequestRefresh cb rt), k, m.
    repeat split; auto. simpl. lia.
  - apply IH; [apply Hk|apply Hn].
Qed.

Lemma refreshTokenIfNeeded_head (cb : TokenRefreshRequest) :
  exists k, refreshTokenIfNeeded cb = Vis AsyncStorage_getItem k.
Proof. eexists. reflexivity. Qed.

Lemma run_sync_intercept_idle (config : AuthTokenInterceptorConfig)
    (rc : AxiosRequestConfig) (a : jsval) (w : world) :
  truthy a = true -> isRefreshing w = false ->
  run_sync i (intercept config rc a) w =
  run_sync i
    (refreshSection (default "Authorization" (header config))
       (default "Bearer " (headerPrefix config)) rc
       (refreshTokenIfNeeded (requestRefresh config)))
    (record (OSetRefreshing i true) (set_isRefreshing true w)).
Proof.
  intros Ht Hflag. unfold intercept. rewrite Ht. simpl. rewrite Hflag. reflexivity.
Qed.

Lemma run_sync_intercept_busy (config : AuthTokenInterceptorConfig)
    (rc : AxiosRequestConfig) (a : jsval) (w : world) :
  truthy a = true -> isRefreshing w = true ->
  run_sync i (intercept config rc a) w =
  (Blocked (queuedRequest (default "Authorization" (header config))
              (default "Bearer " (headerPrefix config)) rc
              (await (AwaitWaiter (length (promises w))))),
   record (OPush i (length (promises w)))
     (set_queue (queue w ++ [length (promises w)])
        (set_promises (promises w ++ [None]) w))).
Proof.
  intros Ht Hflag. unfold intercept. rewrite Ht. simpl. rewrite Hflag. reflexivity.
Qed.

Lemma run_sync_intercept_pass (config : AuthTokenInterceptorConfig)
    (rc : AxiosRequestConfig) (a : jsval) (w : world) :
  truthy a = false ->
  run_sync i (intercept config rc a) w = (Finished (Resolved rc), w).
Proof. intros Ht. unfold intercept. rewrite Ht. reflexivity. Qed.

Lemma resume_intercept (config : AuthTokenInterceptorConfig) (rc : AxiosRequestConfig)
    (a : jsval) (w : world) (t' : task AxiosRequestConfig) (w' : world) :
  run_sync i (intercept config rc a) w = (t', w') ->
  exists r', shaped t' r' /\ moves i Arriving w r' w'.
Proof.
  destruct (truthy a) eqn:Ht.
  - destruct (isRefreshing w) eqn:Hflag.
    + rewrite run_sync_intercept_busy by assumption. intros [= <- <-].
      eexists. split; [apply shaped_queued|]. apply moves_enqueue. exact Hflag.
    + rewrite run_sync_intercept_idle by assumption.
      destruct (refreshTokenIfNeeded_head (requestRefresh config)) as [k Hk].
      pose proof (coord_free_refreshTokenIfNeeded (requestRefresh config)) as Hcf.
      pose proof (calls_refreshTokenIfNeeded (requestRefresh config)) as Hca.
      rewrite Hk in Hcf, Hca |- *. destruct Hcf as [_ Hcf]. simpl in Hca.
      intros [= <- <-].
      eexists. split; [|apply moves_enter; exact Hflag].
      exact (shaped_refreshing _ _ rc _ AsyncStorage_getItem k 1 eq_refl Hcf Hca).
  - rewrite run_sync_intercept_pass by assumption. intros [= <- <-].
    eexists. split; [apply shaped_finished|].
    apply moves_calm; [apply same_coordinator_refl|constructor].
Qed.

Lemma resume_shaped (t : task AxiosRequestConfig) (r : role) (w : world)
    (t' : task AxiosRequestConfig) (w' : world) :
  shaped t r -> resume i t w = Some (t', w') ->
  exists r', shaped t' r' /\ moves i r w r' w'.
Proof.
  intros Hs. destruct Hs as [config rc g Hg|config rc g Hg|h hp rc q n Hcf Hca
                            |h hp rc X ev k n Hev Hcf Hca|h hp rc p|h hp rc o|res];
    simpl; try discriminate.
  - rewrite run_sync_bind.
    destruct (run_sync_quiet g w Hg) as [[[a|e] ->]|(g' & -> & Hg')].
    + intros [= Hr]. apply (resume_intercept _ _ _ _ _ _ Hr).
    + intros [= <- <-]. eexists. split; [apply shaped_finished|].
      apply moves_calm; [apply same_coordinator_refl|constructor].
    + intros [= <- <-]. eexists. split; [apply shaped_reading, Hg'|].
      apply moves_calm; [apply same_coordinator_refl|constructor].
  - rewrite run_sync_refreshSection.
    destruct (run_sync_attempt q w n Hcf Hca)
      as [[o ->]|(X & ev & k & m & -> & Hev & Hk & Hm & Hle)];
      intros [= <- <-].
    + eexists. split; [apply shaped_finished|apply moves_release].
    + exists (Leading m (is_refresh_call ev)).
      split; [exact (shaped_refreshing h hp rc X ev k m Hev Hk Hm)|].
      apply moves_issue. exact Hle.
  - rewrite run_sync_queuedRequest_settled. intros [= <- <-].
    eexists. split; [apply shaped_finished|].
    apply moves_calm; [apply same_coordinator_refl|constructor].
Qed.

Lemma complete_shaped (t : task AxiosRequestConfig) (r : role) (a : answer) (w : world)
    (t' : task AxiosRequestConfig) (w' : world) :
  shaped t r -> complete t a w = Some (t', w') ->
  exists r', shaped t' r' /\ moves i r w r' w'.
Proof.
  intros Hs. destruct Hs as [config rc g Hg|config rc g Hg|h hp rc q n Hcf Hca
                            |h hp rc X ev k n Hev Hcf Hca|h hp rc p|h hp rc o|res];
    simpl; try discriminate.
  - destruct g as [v|e|X ev k]; simpl.
    + unfold intercept. destruct (truthy v); simpl; discriminate.
    + discriminate.
    + destruct Hg as [[Hc Hr] Hk].
      destruct (async_event ev a w) as [[x w1]|] eqn:Ha; [|discriminate].
      intros [= <- <-]. eexists. split; [apply shaped_arriving, Hk|].
      apply moves_calm; [|constructor]. eapply async_event_quiet; eassumption.
  - destruct (async_event ev a w) as [[x w1]|] eqn:Ha; [|discriminate].
    intros [= <- <-]. eexists. split; [apply (shaped_leading h hp rc (k x) n); auto|].
    apply moves_calm; [|constructor]. eapply async_event_quiet; eassumption.
  - destruct a; try discriminate.
    destruct (promises w !! p) as [[o|]|]; try discriminate.
    intros [= <- <-]. eexists. split; [apply shaped_released|].
    apply moves_calm; [apply same_coordinator_refl|constructor].
Qed.

End LocalSteps.

Section Preservation.
Context `{Runtime}.

Lemma coordinated_calm (s : state AxiosRequestConfig) (roles : list role) (i : pid)
    (t' : task AxiosRequestConfig) (r r' : role) (w' : world) :
  coordinated s roles -> roles !! i = Some r -> shaped t' r' ->
  same_coordinator (world_of s) w' -> calm r r' ->
  coordinated {| world_of := w'; pool := <[i := t']> (pool s) |} (<[i := r']> roles).
Proof.
  intros [Hsh Hidle Hbusy Hcalls Hpend Hnd Hq Hset Honce] Hi Ht' (Hf & Hqu & Hpr & Hlog) Hcalm.
  constructor; simpl; rewrite ?Hf, ?Hqu, ?Hpr, ?Hlog; auto.
  - apply Forall2_insert; assumption.
  - intros Hfl. destruct (Hidle Hfl) as (Hq0 & Ho & Hno). repeat split; auto.
    intros j n b Hj. apply list_lookup_insert_Some in Hj as [(<- & Hr & _)|(_ & Hj)].
    + subst r'. inversion Hcalm; subst. eapply Hno; eassumption.
    + eapply Hno; eassumption.
  - intros Hfl. destruct (Hbusy Hfl) as (i0 & n & b & Hi0 & Huniq & Hown & Hsum & Hb).
    destruct (decide (i0 = i)) as [->|Hne].
    + rewrite Hi in Hi0. injection Hi0 as ->. inversion Hcalm; subst.
      exists i, n, false. split.
      { apply list_lookup_insert_eq. eapply lookup_lt_Some; eassumption. }
      split; [|split; [exact Hown|split; [exact Hsum|discriminate]]].
      intros j n' b' Hj. apply list_lookup_insert_Some in Hj as [(<- & _ & _)|(_ & Hj)];
        [reflexivity|eauto].
    + exists i0, n, b. split; [rewrite list_lookup_insert_ne by congruence; exact Hi0|].
      split; [|auto].
      intros j n' b' Hj. apply list_lookup_insert_Some in Hj as [(<- & Hr & _)|(_ & Hj)];
        [|eauto].
      subst r'. inversion Hcalm; subst. eapply Huniq; eassumption.
  - intros j p Hj. apply list_lookup_insert_Some in Hj as [(<- & Hr & _)|(_ & Hj)];
      [subst r'; inversion Hcalm|eauto].
Qed.

Lemma coordinated_enqueue (s : state AxiosRequestConfig) (roles : list role) (i : pid)
    (t' : task AxiosRequestConfig) :
  let w := world_of s in
  let p := length (promises w) in
  coordinated s roles -> roles !! i = Some Arriving -> shaped t' (Queued p) ->
  isRefreshing w = true ->
  coordinated
    {| world_of := record (OPush i p) (set_queue (queue w ++ [p])
                                         (set_promises (promises w ++ [None]) w));
       pool := <[i := t']> (pool s) |}
    (<[i := Queued p]> roles).
Proof.
  intros w p [Hsh Hidle Hbusy Hcalls Hpend Hnd Hq Hset Honce] Hi Ht' Hfl.
  fold w in Hidle, Hbusy, Hcalls, Hpend, Hnd, Hq, Hset, Honce.
  assert (Hfresh : p ∉ queue w).
  { intros Hin. apply Hpend, lookup_lt_Some in Hin. unfold p in Hin. lia. }
  constructor; simpl; auto.
  - apply Forall2_insert; assumption.
  - congruence.
  - intros _. destruct (Hbusy Hfl) as (i0 & n & b & Hi0 & Huniq & Hown & Hsum & Hb).
    assert (i0 <> i) by congruence.
    exists i0, n, b. split; [rewrite list_lookup_insert_ne by congruence; exact Hi0|].
    split; [|auto].
    intros j n' b' Hj. apply list_lookup_insert_Some in Hj as [(_ & [=] & _)|(_ & Hj)]; eauto.
  - intros p' Hin. apply elem_of_app in Hin as [Hin|Hin].
    + rewrite lookup_app_l by (eapply lookup_lt_Some; eauto). auto.
    + apply list_elem_of_singleton in Hin as ->. apply list_lookup_middle. reflexivity.
  - apply NoDup_app. split; [exact Hnd|]. split; [|apply NoDup_singleton].
    intros x Hx Hx'. apply list_elem_of_singleton in Hx' as ->. contradiction.
  - intros j p' Hj. apply list_lookup_insert_Some in Hj as [(<- & [= <-] & _)|(_ & Hj)].
    + left. apply elem_of_app. right. apply list_elem_of_singleton. reflexivity.
    + destruct (Hq j p' Hj) as [Hin|[o Ho]].
      * left. apply elem_of_app. left. exact Hin.
      * right. exists o. rewrite lookup_app_l by (eapply lookup_lt_Some; eauto). exact Ho.
  - intros p' Hp'. destruct (Hset p' Hp') as [o Ho]. exists o.
    rewrite lookup_app_l by (eapply lookup_lt_Some; eauto). exact Ho.
Qed.

Lemma coordinated_enter (s : state AxiosRequestConfig) (roles : list role) (i : pid)
    (t' : task AxiosRequestConfig) :
  let w := world_of s in
  coordinated s roles -> roles !! i = Some Arriving -> shaped t' (Leading 1 false) ->
  isRefreshing w = false ->
  coordinated
    {| world_of := record (OSetRefreshing i true) (set_isRefreshing true w);
       pool := <[i := t']> (pool s) |}
    (<[i := Leading 1 false]> roles).
Proof.
  intros w [Hsh Hidle Hbusy Hcalls Hpend Hnd Hq Hset Honce] Hi Ht' Hfl.
  fold w in Hidle, Hbusy, Hcalls, Hpend, Hnd, Hq, Hset, Honce.
  destruct (Hidle Hfl) as (Hq0 & Ho & Hno).
  constructor; simpl; auto.
  - apply Forall2_insert; assumption.
  - discriminate.
  - intros _. exists i, 1%nat, false. split.
    { apply list_lookup_insert_eq. eapply lookup_lt_Some; eassumption. }
    split; [|repeat split; [lia|discriminate]].
    intros j n' b' Hj. apply list_lookup_insert_Some in Hj as [(<- & _ & _)|(_ & Hj)];
      [reflexivity|]. exfalso. eapply Hno; eassumption.
  - intros j p Hj. apply list_lookup_insert_Some in Hj as [(_ & [=] & _)|(_ & Hj)]; eauto.
Qed.

Lemma leading_busy (s : state AxiosRequestConfig) (roles : list role) (i : pid)
    (n : nat) (b : bool) :
  coordinated s roles -> roles !! i = Some (Leading n b) ->
  isRefreshing (world_of s) = true /\
  flag_owner (log (world_of s)) = Some i /\
  (calls_in_cycle (log (world_of s)) + n <= 1)%nat /\
  (b = true -> (1 <= calls_in_cycle (log (world_of s)))%nat) /\
  (forall j n' b', roles !! j = Some (Leading n' b') -> j = i).
Proof.
  intros Hco Hi. destruct (isRefreshing (world_of s)) eqn:Hfl.
  - destruct (co_busy _ _ Hco Hfl) as (i0 & n0 & b0 & Hi0 & Huniq & Hown & Hsum & Hb).
    pose proof (Huniq _ _ _ Hi) as ->. rewrite Hi in Hi0. injection Hi0 as <- <-.
    repeat split; auto.
  - destruct (co_idle _ _ Hco Hfl) as (_ & _ & Hno). exfalso. eapply Hno; eassumption.
Qed.

Lemma coordinated_issue (s : state AxiosRequestConfig) (roles : list role) (i : pid)
    (t' : task AxiosRequestConfig) (n m : nat) (X : Type) (ev : event X) :
  let w := world_of s in
  coordinated s roles -> roles !! i = Some (Leading n false) ->
  shaped t' (Leading m (is_refresh_call ev)) ->
  (m + (if is_refresh_call ev then 1 else 0) <= n)%nat ->
  coordinated {| world_of := issue i ev w; pool := <[i := t']> (pool s) |}
    (<[i := Leading m (is_refresh_call ev)]> roles).
Proof.
  intros w Hco Hi Ht' Hle.
  destruct (leading_busy _ _ _ _ _ Hco Hi) as (Hfl & Hown & Hsum & _ & Huniq).
  destruct Hco as [Hsh Hidle Hbusy Hcalls Hpend Hnd Hq Hset Honce].
  fold w in Hidle, Hbusy, Hcalls, Hpend, Hnd, Hq, Hset, Honce, Hfl, Hown, Hsum.
  destruct (issue_same i ev w) as (Ef & Eq & Ep & _ & Eo & Es).
  pose proof (calls_in_cycle_issue i ev w) as Ec.
  constructor; simpl; rewrite ?Ef, ?Eq, ?Ep, ?Eo, ?Es, ?Ec; auto.
  - apply Forall2_insert; assumption.
  - congruence.
  - intros _. exists i, m, (is_refresh_call ev). split.
    { apply list_lookup_insert_eq. eapply lookup_lt_Some; eassumption. }
    split.
    { intros j n' b' Hj.
      apply list_lookup_insert_Some in Hj as [(<- & _ & _)|(_ & Hj)]; [reflexivity|eauto]. }
    split; [exact Hown|]. split.
    + destruct (is_refresh_call ev); lia.
    + intros ->. lia.
  - destruct (is_refresh_call ev); lia.
  - intros j p Hj. apply list_lookup_insert_Some in Hj as [(_ & [=] & _)|(_ & Hj)]; eauto.
Qed.

Lemma coordinated_release (s : state AxiosRequestConfig) (roles : list role) (i : pid)
    (t' : task AxiosRequestConfig) (n : nat) (o : settled jsval) :
  let w := world_of s in
  coordinated s roles -> roles !! i = Some (Leading n false) -> shaped t' Leaving ->
  coordinated {| world_of := release i o w; pool := <[i := t']> (pool s) |}
    (<[i := Leaving]> roles).
Proof.
  intros w Hco Hi Ht'.
  destruct (leading_busy _ _ _ _ _ Hco Hi) as (Hfl & Hown & Hsum & _ & Huniq).
  destruct Hco as [Hsh Hidle Hbusy Hcalls Hpend Hnd Hq Hset Honce].
  fold w in Hidle, Hbusy, Hcalls, Hpend, Hnd, Hq, Hset, Honce, Hfl, Hown, Hsum.
  destruct (release_same i o w) as (_ & Ef & Eq).
  constructor; simpl;
    rewrite ?calls_in_cycle_settle_all, ?settled_waiters_settle_all; auto.
  - apply Forall2_insert; assumption.
  - intros _. repeat split.
    intros j n' b' Hj. apply list_lookup_insert_Some in Hj as [(_ & [=] & _)|(Hne & Hj)].
    apply Hne. symmetry. eapply Huniq; eassumption.
  - discriminate.
  - intros p Hp. inversion Hp.
  - apply NoDup_nil_2.
  - intros j p Hj. apply list_lookup_insert_Some in Hj as [(_ & [=] & _)|(_ & Hj)].
    right. rewrite promises_settle_all.
    destruct (Hq j p Hj) as [Hin|[x Hx]].
    + rewrite (Hpend p Hin). rewrite decide_True by exact Hin. eauto.
    + rewrite Hx. eauto.
  - intros p. rewrite elem_of_app, elem_of_rev.
    rewrite promises_settle_all. intros [Hin|Hin].
    + rewrite (Hpend p Hin). rewrite decide_True by exact Hin. eauto.
    + destruct (Hset p Hin) as [x Hx]. rewrite Hx. eauto.
  - apply NoDup_app. split; [apply NoDup_rev_stable, Hnd|].
    split; [|exact Honce].
    intros p Hp Hp'. rewrite elem_of_rev in Hp.
    destruct (Hset p Hp') as [x Hx]. rewrite (Hpend p Hp) in Hx. discriminate.
Qed.

Lemma coordinated_update (s : state AxiosRequestConfig) (roles : list role) (i : pid)
    (t' : task AxiosRequestConfig) (r r' : role) (w' : world) :
  coordinated s roles -> roles !! i = Some r -> shaped t' r' ->
  moves i r (world_of s) r' w' ->
  coordinated {| world_of := w'; pool := <[i := t']> (pool s) |} (<[i := r']> roles).
Proof.
  intros Hco Hi Ht' Hm. remember (world_of s) as w eqn:Hw.
  destruct Hm as [r r' w w' Hsame Hcalm|w Hfl|w Hfl|n m X ev w Hle|n o w]; subst w.
  - eapply coordinated_calm; eassumption.
  - apply coordinated_enqueue; assumption.
  - apply coordinated_enter; assumption.
  - eapply coordinated_issue; eassumption.
  - eapply coordinated_release; eassumption.
Qed.

Lemma coordinated_initial (stored : option raw) (now : Z) :
  coordinated (initial stored now) [].
Proof.
  constructor; simpl.
  - constructor.
  - intros _. repeat split. intros j n b Hj. rewrite lookup_nil in Hj. discriminate.
  - discriminate.
  - lia.
  - intros p Hp. inversion Hp.
  - apply NoDup_nil_2.
  - intros j p Hj. rewrite lookup_nil in Hj. discriminate.
  - intros p Hp. inversion Hp.
  - apply NoDup_nil_2.
Qed.

Lemma coordinated_step (a : action AxiosRequestConfig) (s s' : state AxiosRequestConfig)
    (roles : list role) :
  interceptor_call a -> coordinated s roles -> step a s = Some s' ->
  exists roles', coordinated s' roles'.
Proof.
  intros Ha Hco Hstep. destruct a as [p|i|i a|dt|v]; simpl in Hstep.
  - destruct Ha as (config & rc & ->). injection Hstep as <-.
    exists (roles ++ [Arriving]).
    destruct Hco as [Hsh Hidle Hbusy Hcalls Hpend Hnd Hq Hset Honce].
    constructor; simpl; auto.
    + apply Forall2_app; [exact Hsh|]. constructor; [|constructor].
      exact (shaped_arriving config rc getRefreshToken quiet_getRefreshToken).
    + intros Hfl. destruct (Hidle Hfl) as (Hq0 & Ho & Hno). repeat split; auto.
      intros j n b Hj. apply lookup_app_Some in Hj as [Hj|[_ Hj]]; [eapply Hno; eauto|].
      destruct (j - length roles)%nat; discriminate.
    + intros Hfl. destruct (Hbusy Hfl) as (i0 & n & b & Hi0 & Huniq & Hrest).
      exists i0, n, b. split; [apply lookup_app_l_Some, Hi0|]. split; [|exact Hrest].
      intros j n' b' Hj. apply lookup_app_Some in Hj as [Hj|[_ Hj]]; [eauto|].
      destruct (j - length roles)%nat; discriminate.
    + intros j p Hj. apply lookup_app_Some in Hj as [Hj|[_ Hj]]; [eauto|].
      destruct (j - length roles)%nat; discriminate.
  - destruct (pool s !! i) as [t|] eqn:Ht; [|discriminate].
    destruct (resume i t (world_of s)) as [[t' w']|] eqn:Hr; [|discriminate].
    injection Hstep as <-.
    destruct (Forall2_lookup_l _ _ _ _ _ (co_shaped _ _ Hco) Ht) as (r & Hi & Hsr).
    destruct (resume_shaped i t r _ _ _ Hsr Hr) as (r' & Hs' & Hm).
    exists (<[i := r']> roles). eapply coordinated_update; eassumption.
  - destruct (pool s !! i) as [t|] eqn:Ht; [|discriminate].
    destruct (complete t a (world_of s)) as [[t' w']|] eqn:Hr; [|discriminate].
    injection Hstep as <-.
    destruct (Forall2_lookup_l _ _ _ _ _ (co_shaped _ _ Hco) Ht) as (r & Hi & Hsr).
    destruct (complete_shaped i t r _ _ _ _ Hsr Hr) as (r' & Hs' & Hm).
    exists (<[i := r']> roles). eapply coordinated_update; eassumption.
  - injection Hstep as <-.
    exists roles. destruct Hco as [Hsh Hidle Hbusy Hcalls Hpend Hnd Hq Hset Honce].
    constructor; simpl; auto.
  - injection Hstep as <-.
    exists roles. destruct Hco as [Hsh Hidle Hbusy Hcalls Hpend Hnd Hq Hset Honce].
    constructor; simpl; auto.
Qed.

Lemma coordinated_exec (acts : list (action AxiosRequestConfig))
    (s s' : state AxiosRequestConfig) (roles : list role) :
  Forall interceptor_call acts -> coordinated s roles -> exec acts s = Some s' ->
  exists roles', coordinated s' roles'.
Proof.
  revert s roles. induction acts as [|a acts IH]; intros s roles Hall Hco Hex; simpl in Hex.
  - injection Hex as <-. eauto.
  - apply Forall_cons in Hall as [Ha Hall].
    destruct (step a s) as [s1|] eqn:Hstep; [|discriminate].
    destruct (coordinated_step _ _ _ _ Ha Hco Hstep) as [roles1 Hco1].
    eapply IH; eassumption.
Qed.

End Preservation.

(** ** What the invariant says of the calls *)

Section Observations.
Context `{Runtime}.

Lemma shaped_awaiting_refresh (t : task AxiosRequestConfig) (r : role) :
  shaped t r -> awaiting_refresh t = true -> exists n, r = Leading n true.
Proof.
  intros Hs. destruct Hs as [config rc g Hg|config rc g Hg|h hp rc q n Hcf Hca
                            |h hp rc X ev k n Hev Hcf Hca|h hp rc p|h hp rc o|res];
    simpl; try discriminate.
  - destruct g as [v|e|X ev k]; simpl.
    + unfold intercept. destruct (truthy v); simpl; discriminate.
    + discriminate.
    + destruct Hg as [[_ Hr] _]. rewrite Hr. discriminate.
  - intros ->. eauto.
Qed.

Lemma shaped_waiting_on (t : task AxiosRequestConfig) (r : role) (p : waiter) :
  shaped t r -> waiting_on t = Some p ->
  r = Queued p /\
  exists h hp rc, t = Blocked (queuedRequest h hp rc (await (AwaitWaiter p))).
Proof.
  intros Hs. destruct Hs as [config rc g Hg|config rc g Hg|h hp rc q n Hcf Hca
                            |h hp rc X ev k n Hev Hcf Hca|h hp rc p'|h hp rc o|res];
    simpl; try discriminate.
  - destruct g as [v|e|X ev k]; simpl.
    + unfold intercept. destruct (truthy v); simpl; discriminate.
    + discriminate.
    + destruct Hg as [[Hc _] _]. destruct ev; discriminate.
  - destruct ev; discriminate.
  - intros [= ->]. split; [reflexivity|]. eauto.
Qed.

Lemma shaped_leading_unsettled (t : task AxiosRequestConfig) (n : nat) (b : bool) :
  shaped t (Leading n b) -> forall r, t <> Finished r.
Proof. intros Hs r ->. inversion Hs. Qed.

Lemma complete_same (t : task AxiosRequestConfig) (r : role) (a : answer) (w : world)
    (t' : task AxiosRequestConfig) (w' : world) :
  shaped t r -> complete t a w = Some (t', w') ->
  same_coordinator w w' /\ forall x, t' <> Finished x.
Proof.
  intros Hs. destruct Hs as [config rc g Hg|config rc g Hg|h hp rc q n Hcf Hca
                            |h hp rc X ev k n Hev Hcf Hca|h hp rc p|h hp rc o|res];
    simpl; try discriminate.
  - destruct g as [v|e|X ev k]; simpl.
    + unfold intercept. destruct (truthy v); simpl; discriminate.
    + discriminate.
    + destruct Hg as [[Hc Hr] Hk].
      destruct (async_event ev a w) as [[x w1]|] eqn:Ha; [|discriminate].
      intros [= <- <-]. split; [eapply async_event_quiet; eassumption|discriminate].
  - destruct (async_event ev a w) as [[x w1]|] eqn:Ha; [|discriminate].
    intros [= <- <-]. split; [eapply async_event_quiet; eassumption|discriminate].
  - destruct a; try discriminate.
    destruct (promises w !! p) as [[o|]|]; try discriminate.
    intros [= <- <-]. split; [apply same_coordinator_refl|discriminate].
Qed.

Lemma moves_clears (i : pid) (r r' : role) (w w' : world) :
  moves i r w r' w' -> isRefreshing w = true -> isRefreshing w' = false ->
  exists n, r = Leading n false.
Proof.
  intros Hm Ht Hf. destruct Hm as [r r' w w' (Hsame & _) _|w _|w Hfl|n m X ev w _|n o w].
  - congruence.
  - simpl in Hf. congruence.
  - congruence.
  - destruct (issue_same i ev w) as (E & _). congruence.
  - eauto.
Qed.

Lemma resume_leading (i : pid) (t : task AxiosRequestConfig) (n : nat) (b : bool)
    (w : world) (t' : task AxiosRequestConfig) (w' : world) :
  shaped t (Leading n b) -> resume i t w = Some (t', w') ->
  (isRefreshing w' = isRefreshing w /\ queue w' = queue w /\ forall x, t' <> Finished x) \/
  (exists h hp rc o, t' = Finished (section_outcome h hp rc o) /\ w' = release i o w).
Proof.
  intros Hs. inversion Hs as [| |h hp rc q n' Hcf Hca| | | |]; subst; simpl; try discriminate.
  rewrite run_sync_refreshSection.
  destruct (run_sync_attempt i q w n Hcf Hca)
    as [[o ->]|(X & ev & k & m & -> & Hev & Hk & Hm & Hle)];
    intros [= <- <-].
  - right. exists h, hp, rc, o. split; reflexivity.
  - left. destruct (issue_same i ev w) as (E1 & E2 & _).
    split; [exact E1|]. split; [exact E2|]. intros x. discriminate.
Qed.

(** The step that clears [isRefreshing] is the return of the call that set
    it: the call settles as the outcome [o] of its refresh says, every
    waiter of the queue is settled with [o], and the queue is emptied. *)
Lemma clearing_step (s s' : state AxiosRequestConfig) (roles : list role)
    (a : action AxiosRequestConfig) :
  coordinated s roles -> step a s = Some s' ->
  isRefreshing (world_of s) = true -> isRefreshing (world_of s') = false ->
  exists i o h hp rc,
    a = Resume i /\ flag_owner (log (world_of s)) = Some i /\
    pool s' !! i = Some (Finished (section_outcome h hp rc o)) /\
    world_of s' = release i o (world_of s).
Proof.
  intros Hco Hstep Ht Hf. destruct a as [p|i|i a|dt|v]; simpl in Hstep.
  - injection Hstep as <-. simpl in Hf. congruence.
  - destruct (pool s !! i) as [t|] eqn:Hi; [|discriminate].
    destruct (resume i t (world_of s)) as [[t' w']|] eqn:Hr; [|discriminate].
    injection Hstep as <-. simpl in *.
    destruct (Forall2_lookup_l _ _ _ _ _ (co_shaped _ _ Hco) Hi) as (r & Hri & Hsr).
    destruct (resume_shaped i t r _ _ _ Hsr Hr) as (r' & Hs' & Hm).
    destruct (moves_clears _ _ _ _ _ Hm Ht Hf) as [n ->].
    destruct (leading_busy _ _ _ _ _ Hco Hri) as (_ & Hown & _).
    destruct (resume_leading _ _ _ _ _ _ _ Hsr Hr) as [(E & _)|(h & hp & rc & o & -> & ->)];
      [congruence|].
    exists i, o, h, hp, rc. repeat split; auto.
    apply list_lookup_insert_eq. eapply lookup_lt_Some; eassumption.
  - destruct (pool s !! i) as [t|] eqn:Hi; [|discriminate].
    destruct (complete t a (world_of s)) as [[t' w']|] eqn:Hr; [|discriminate].
    injection Hstep as <-. simpl in *.
    destruct (Forall2_lookup_l _ _ _ _ _ (co_shaped _ _ Hco) Hi) as (r & Hri & Hsr).
    destruct (complete_same _ _ _ _ _ _ Hsr Hr) as ((E & _) & _). congruence.
  - injection Hstep as <-. simpl in Hf. congruence.
  - injection Hstep as <-. simpl in Hf. congruence.
Qed.

(** The step in which the call that holds the flag settles clears the flag
    and empties the queue. *)
Lemma owner_returns (s s' : state AxiosRequestConfig) (roles : list role)
    (a : action AxiosRequestConfig) (i : pid) (x : settled AxiosRequestConfig) :
  coordinated s roles -> step a s = Some s' ->
  flag_owner (log (world_of s)) = Some i -> pool s' !! i = Some (Finished x) ->
  isRefreshing (world_of s') = false /\ queue (world_of s') = [].
Proof.
  intros Hco Hstep Hown Hfin.
  assert (Hfl : isRefreshing (world_of s) = true).
  { destruct (isRefreshing (world_of s)) eqn:E; [reflexivity|].
    destruct (co_idle _ _ Hco E) as (_ & Hnone & _). congruence. }
  destruct (co_busy _ _ Hco Hfl) as (i0 & n & b & Hi0 & _ & Hown0 & _).
  assert (i0 = i) as -> by congruence.
  destruct (Forall2_lookup_r _ _ _ _ _ (co_shaped _ _ Hco) Hi0) as (t & Hti & Hst).
  pose proof (shaped_leading_unsettled _ _ _ Hst) as Hunsettled.
  destruct a as [p|j|j a|dt|v]; simpl in Hstep.
  - injection Hstep as <-. simpl in Hfin.
    rewrite lookup_app_l in Hfin by (eapply lookup_lt_Some; eassumption).
    rewrite Hti in Hfin. injection Hfin as ->. exfalso. eapply Hunsettled; reflexivity.
  - destruct (pool s !! j) as [tj|] eqn:Hj; [|discriminate].
    destruct (resume j tj (world_of s)) as [[t' w']|] eqn:Hr; [|discriminate].
    injection Hstep as <-. simpl in *.
    destruct (decide (j = i)) as [->|Hne].
    + rewrite Hti in Hj. injection Hj as <-.
      rewrite list_lookup_insert_eq in Hfin by (eapply lookup_lt_Some; eassumption).
      injection Hfin as ->.
      destruct (resume_leading _ _ _ _ _ _ _ Hst Hr)
        as [(_ & _ & Hno)|(h & hp & rc & o & _ & ->)].
      * exfalso. eapply Hno; reflexivity.
      * destruct (release_same i o (world_of s)) as (_ & -> & ->). split; reflexivity.
    + rewrite list_lookup_insert_ne in Hfin by congruence.
      rewrite Hti in Hfin. injection Hfin as ->. exfalso. eapply Hunsettled; reflexivity.
  - destruct (pool s !! j) as [tj|] eqn:Hj; [|discriminate].
    destruct (complete tj a (world_of s)) as [[t' w']|] eqn:Hr; [|discriminate].
    injection Hstep as <-. simpl in *.
    destruct (decide (j = i)) as [->|Hne].
    + rewrite Hti in Hj. injection Hj as <-.
      rewrite list_lookup_insert_eq in Hfin by (eapply lookup_lt_Some; eassumption).
      injection Hfin as ->.
      destruct (complete_same _ _ _ _ _ _ Hst Hr) as (_ & Hno).
      exfalso. eapply Hno; reflexivity.
    + rewrite list_lookup_insert_ne in Hfin by congruence.
      rewrite Hti in Hfin. injection Hfin as ->. exfalso. eapply Hunsettled; reflexivity.
  - injection Hstep as <-. simpl in Hfin.
    rewrite Hti in Hfin. injection Hfin as ->. exfalso. eapply Hunsettled; reflexivity.
  - injection Hstep as <-. simpl in Hfin.
    rewrite Hti in Hfin. injection Hfin as ->. exfalso. eapply Hunsettled; reflexivity.
Qed.

(** A queued call whose promise has settled with [o] settles itself as [o]
    says: the completion of its wait and its last stretch are enabled and
    lead there. *)
Lemma queued_call_settles (s : state AxiosRequestConfig) (j : pid) (h hp : string)
    (rc : AxiosRequestConfig) (p : waiter) (o : settled jsval) :
  pool s !! j = Some (Blocked (queuedRequest h hp rc (await (AwaitWaiter p)))) ->
  promises (world_of s) !! p = Some (Some o) ->
  exists s',
    exec [Complete j Normally; Resume j] s = Some s' /\
    pool s' !! j = Some (Finished (queued_outcome h hp rc o)) /\
    world_of s' = world_of s.
Proof.
  intros Hj Hp. pose proof (lookup_lt_Some _ _ _ Hj) as Hlt.
  simpl. rewrite Hj. simpl. rewrite Hp. simpl.
  rewrite list_lookup_insert_eq by exact Hlt. simpl.
  change (run_sync j (try_catch _ _) (world_of s))
    with (run_sync j (queuedRequest h hp rc (lift o)) (world_of s)).
  rewrite run_sync_queuedRequest_settled. simpl.
  eexists. split; [reflexivity|]. simpl. split; [|reflexivity].
  apply list_lookup_insert_eq. rewrite length_insert. exact Hlt.
Qed.

End Observations.

(** ** The coordinator, claim by claim *)

Section CoordinatorClaims.
Context `{Runtime}.

Lemma length_append (a b : string) :
  String.length (a +:+ b) = (String.length a + String.length b)%nat.
Proof. induction a as [|c a IH]; simpl; [reflexivity|]. rewrite IH. reflexivity. Qed.

(** The error the refreshing call throws is never the error its refresh
    threw: it is a new [Error] whose message extends that of the other. *)
Lemma wrapped_error_differs (h hp : string) (rc : AxiosRequestConfig) (e : jsval) :
  section_outcome h hp rc (Rejected e) <> Rejected e.
Proof.
  unfold section_outcome.
  destruct e as [| |b|q|s|fields|name message props]; simpl; try discriminate.
  intros [= _ Hm _]. apply (f_equal String.length) in Hm.
  rewrite length_append in Hm. simpl in Hm. lia.
Qed.

(** C9.  In every state that interceptor calls can reach, the queue is
    empty whenever [isRefreshing] is false, and [isRefreshing] is true only
    while the call that set it has not settled; the step in which that call
    settles, with a result or with an error, leaves [isRefreshing] false and
    the queue empty. *)
Theorem coordinator_state_invariant (acts : list (action AxiosRequestConfig))
    (stored : option raw) (now : Z) (s : state AxiosRequestConfig) :
  Forall interceptor_call acts ->
  exec acts (initial stored now) = Some s ->
  (isRefreshing (world_of s) = false ->
   queue (world_of s) = [] /\ flag_owner (log (world_of s)) = None) /\
  (isRefreshing (world_of s) = true ->
   exists i t,
     flag_owner (log (world_of s)) = Some i /\ pool s !! i = Some t /\
     forall x, t <> Finished x) /\
  (forall a s' i x,
     step a s = Some s' ->
     flag_owner (log (world_of s)) = Some i ->
     pool s' !! i = Some (Finished x) ->
     isRefreshing (world_of s') = false /\ queue (world_of s') = []).
Proof.
  intros Hall Hex.
  destruct (coordinated_exec _ _ _ _ Hall (coordinated_initial stored now) Hex)
    as [roles Hco].
  split; [|split].
  - intros Hfl. destruct (co_idle _ _ Hco Hfl) as (Hq & Ho & _). split; assumption.
  - intros Hfl. destruct (co_busy _ _ Hco Hfl) as (i & n & b & Hi & _ & Hown & _).
    destruct (Forall2_lookup_r _ _ _ _ _ (co_shaped _ _ Hco) Hi) as (t & Hti & Hst).
    exists i, t. repeat split; [exact Hown|exact Hti|].
    eapply shaped_leading_unsettled; eassumption.
  - intros a s' i x Hstep Hown Hfin. eapply owner_returns; eassumption.
Qed.

(** C1.  In every state that interceptor calls can reach:
    - a call that reads [isRefreshing] as false sets it in the same
      synchronous stretch, before its first suspension in the refresh path,
      and a call that reads it as true joins the queue;
    - at most one refresh callback has been invoked since the flag was last
      set, and while a call waits for its callback the flag is set, that
      call is the one that set it, and the callback has been invoked exactly
      once in this cycle;
    - a call waiting for its queued promise is in the queue of the running
      cycle, its promise pending, or its promise has settled;
    - the flag is cleared only by the step in which the refreshing call
      returns, which settles every waiter of the queue with the outcome [o]
      of the one refresh and settles the call itself as [o] says;
    - a queued call whose promise settled with [o] settles as [o] says. *)
Theorem single_flight_refresh (acts : list (action AxiosRequestConfig))
    (stored : option raw) (now : Z) (s : state AxiosRequestConfig) :
  Forall interceptor_call acts ->
  exec acts (initial stored now) = Some s ->
  (forall i config rc a w,
     truthy a = true ->
     if isRefreshing w then
       exists t w',
         run_sync i (intercept config rc a) w = (t, w') /\
         waiting_on t = Some (length (promises w)) /\
         queue w' = queue w ++ [length (promises w)] /\
         refresh_calls (log w') = refresh_calls (log w)
     else
       exists t w',
         run_sync i (intercept config rc a) w = (Blocked t, w') /\
         isRefreshing w' = true /\ flag_owner (log w') = Some i) /\
  (calls_in_cycle (log (world_of s)) <= 1)%nat /\
  (forall i t,
     pool s !! i = Some t -> awaiting_refresh t = true ->
     isRefreshing (world_of s) = true /\
     flag_owner (log (world_of s)) = Some i /\
     calls_in_cycle (log (world_of s)) = 1%nat) /\
  (forall j t p,
     pool s !! j = Some t -> waiting_on t = Some p ->
     (exists h hp rc, t = Blocked (queuedRequest h hp rc (await (AwaitWaiter p)))) /\
     ((isRefreshing (world_of s) = true /\ p ∈ queue (world_of s) /\
       promises (world_of s) !! p = Some None) \/
      exists o, promises (world_of s) !! p = Some (Some o))) /\
  (forall a s',
     step a s = Some s' ->
     isRefreshing (world_of s) = true -> isRefreshing (world_of s') = false ->
     exists i o h hp rc,
       a = Resume i /\ flag_owner (log (world_of s)) = Some i /\
       pool s' !! i = Some (Finished (section_outcome h hp rc o)) /\
       queue (world_of s') = [] /\
       forall p, p ∈ queue (world_of s) -> promises (world_of s') !! p = Some (Some o)) /\
  (forall j h hp rc p o,
     pool s !! j = Some (Blocked (queuedRequest h hp rc (await (AwaitWaiter p)))) ->
     promises (world_of s) !! p = Some (Some o) ->
     exists s',
       exec [Complete j Normally; Resume j] s = Some s' /\
       pool s' !! j = Some (Finished (queued_outcome h hp rc o))).
Proof.
  intros Hall Hex.
  destruct (coordinated_exec _ _ _ _ Hall (coordinated_initial stored now) Hex)
    as [roles Hco].
  split; [|split; [|split; [|split; [|split]]]].
  - intros i config rc a w Ha. destruct (isRefreshing w) eqn:Hfl.
    + rewrite run_sync_intercept_busy by assumption.
      eexists _, _. split; [reflexivity|]. repeat split.
    + rewrite run_sync_intercept_idle by assumption.
      destruct (refreshTokenIfNeeded_head (requestRefresh config)) as [k ->].
      eexists _, _. split; [reflexivity|]. split; reflexivity.
  - exact (co_calls _ _ Hco).
  - intros i t Hi Haw.
    destruct (Forall2_lookup_l _ _ _ _ _ (co_shaped _ _ Hco) Hi) as (r & Hri & Hsr).
    destruct (shaped_awaiting_refresh _ _ Hsr Haw) as [n ->].
    destruct (leading_busy _ _ _ _ _ Hco Hri) as (Hfl & Hown & Hsum & Hone & _).
    specialize (Hone eq_refl). repeat split; [assumption..|lia].
  - intros j t p Hj Hw.
    destruct (Forall2_lookup_l _ _ _ _ _ (co_shaped _ _ Hco) Hj) as (r & Hrj & Hsr).
    destruct (shaped_waiting_on _ _ _ Hsr Hw) as (-> & Hshape). split; [exact Hshape|].
    destruct (co_queued _ _ Hco _ _ Hrj) as [Hin|Hset]; [left|right; exact Hset].
    split; [|split; [exact Hin|apply (co_pending _ _ Hco), Hin]].
    destruct (isRefreshing (world_of s)) eqn:Hfl; [reflexivity|].
    destruct (co_idle _ _ Hco Hfl) as (Hq & _). rewrite Hq in Hin. inversion Hin.
  - intros a s' Hstep Ht Hf.
    destruct (clearing_step _ _ _ _ Hco Hstep Ht Hf)
      as (i & o & h & hp & rc & -> & Hown & Hfin & Hw).
    exists i, o, h, hp, rc. repeat split; try assumption.
    + rewrite Hw. apply release_same.
    + intros p Hp. rewrite Hw, promises_release, (co_pending _ _ Hco p Hp).
      rewrite decide_True by exact Hp. reflexivity.
  - intros j h hp rc p o Hj Hp.
    destruct (queued_call_settles _ _ _ _ _ _ _ Hj Hp) as (s' & Hs' & Hfin & _).
    exists s'. split; assumption.
Qed.

(** C6, as the code has it.  In every state that interceptor calls can
    reach, [resolve] or [reject] has been called at most once on any waiter.
    The step that clears the flag settles every waiter of the queue with the
    one outcome [o] of the refresh and leaves none in the queue; when the
    refresh failed with [e], all of them are rejected with [e] and the
    refreshing call is rejected too, with another error: a new [Error] made
    from the message of [e].  A queued call whose promise was rejected with
    [e] is rejected, so no request whose refresh failed passes through. *)
Theorem refresh_failure_propagation (acts : list (action AxiosRequestConfig))
    (stored : option raw) (now : Z) (s : state AxiosRequestConfig) :
  Forall interceptor_call acts ->
  exec acts (initial stored now) = Some s ->
  NoDup (settled_waiters (log (world_of s))) /\
  (forall a s',
     step a s = Some s' ->
     isRefreshing (world_of s) = true -> isRefreshing (world_of s') = false ->
     exists i o h hp rc,
       a = Resume i /\
       pool s' !! i = Some (Finished (section_outcome h hp rc o)) /\
       queue (world_of s') = [] /\
       (forall p, p ∈ queue (world_of s) ->
                  promises (world_of s') !! p = Some (Some o)) /\
       forall e, o = Rejected e ->
         exists e', section_outcome h hp rc o = Rejected e' /\ e' <> e) /\
  (forall j t p,
     pool s !! j = Some t -> waiting_on t = Some p ->
     p ∈ queue (world_of s) \/ exists o, promises (world_of s) !! p = Some (Some o)) /\
  (forall j h hp rc p e,
     pool s !! j = Some (Blocked (queuedRequest h hp rc (await (AwaitWaiter p)))) ->
     promises (world_of s) !! p = Some (Some (Rejected e)) ->
     exists s',
       exec [Complete j Normally; Resume j] s = Some s' /\
       pool s' !! j = Some (Finished (Rejected (Promise_reject_detached e)))).
Proof.
  intros Hall Hex.
  destruct (coordinated_exec _ _ _ _ Hall (coordinated_initial stored now) Hex)
    as [roles Hco].
  split; [exact (co_once _ _ Hco)|split; [|split]].
  - intros a s' Hstep Ht Hf.
    destruct (clearing_step _ _ _ _ Hco Hstep Ht Hf)
      as (i & o & h & hp & rc & -> & Hown & Hfin & Hw).
    exists i, o, h, hp, rc. repeat split; try assumption.
    + rewrite Hw. apply release_same.
    + intros p Hp. rewrite Hw, promises_release, (co_pending _ _ Hco p Hp).
      rewrite decide_True by exact Hp. reflexivity.
    + intros e ->. pose proof (wrapped_error_differs h hp rc e) as Hne.
      destruct (section_outcome h hp rc (Rejected e)) as [x|e'] eqn:Ho.
      * unfold section_outcome in Ho. destruct (member e "message"); discriminate.
      * exists e'. split; [reflexivity|]. congruence.
  - intros j t p Hj Hw.
    destruct (Forall2_lookup_l _ _ _ _ _ (co_shaped _ _ Hco) Hj) as (r & Hrj & Hsr).
    destruct (shaped_waiting_on _ _ _ Hsr Hw) as (-> & _).
    exact (co_queued _ _ Hco _ _ Hrj).
  - intros j h hp rc p e Hj Hp.
    destruct (queued_call_settles _ _ _ _ _ _ _ Hj Hp) as (s' & Hs' & Hfin & _).
    exists s'. split; assumption.
Qed.

End CoordinatorClaims.

(** ** A callback that answers with something else *)

Section ProtocolViolation.
Context `{Runtime}.

Lemma unrecognized_object_test (v : jsval) :
  unrecognized v -> typeof_object v && truthy (opt_get v "accessToken") = false.
Proof.
  intros [_ Hno]. destruct (typeof_object v) eqn:Eo; [|reflexivity]. simpl.
  unfold opt_get. destruct (get v "accessToken") eqn:Eg; try reflexivity;
    exfalso; apply Hno; (split; [exact Eo|rewrite Eg; discriminate]).
Qed.

Lemma refreshAttempt_unrecognized (cb : TokenRefreshRequest) (rt : jsval) :
  exists k,
    refreshAttempt cb rt = Vis (RequestRefresh cb rt) k /\
    forall v, unrecognized v -> k (Resolved v) = Throw (newError protocol_error).
Proof.
  eexists. split; [reflexivity|]. intros v Hv.
  pose proof (unrecognized_object_test v Hv) as Ho. destruct Hv as [Hs _].
  cbn [bind lift try_catch]. rewrite Ho, Hs. reflexivity.
Qed.

(** C8.  With a refresh token stored, a callback that resolves to a value
    that is neither a string nor an object with an [accessToken] makes
    [refreshToken], and [refreshTokenIfNeeded] when the access token is
    stale, fail with an [Error] made from "requestRefresh must either return
    a string or an object with an accessToken", the storage being as it was.
    In the interceptor, the call that waits for such an answer settles with
    the error that wraps it, and every waiter of the queue is rejected with
    it; the storage is as it was. *)
Theorem protocol_violation (behaviour : TokenRefreshRequest -> jsval -> settled jsval)
    (cb : TokenRefreshRequest) (rt v : jsval) (w : world) :
  run behaviour getRefreshToken w = (Some (Resolved rt), w) ->
  truthy rt = true ->
  behaviour cb rt = Resolved v ->
  unrecognized v ->
  (run behaviour (refreshToken cb) w
   = (Some (Rejected (newError protocol_error)), invoked cb rt w) /\
   storage (invoked cb rt w) = storage w) /\
  (access_token_stale behaviour w ->
   run behaviour (refreshTokenIfNeeded cb) w
   = (Some (Rejected (newError protocol_error)), invoked cb rt w)) /\
  (forall (s : state AxiosRequestConfig) i h hp rc,
     pool s !! i = Some (Blocked (refreshSection h hp rc (refreshAttempt cb rt))) ->
     exists s',
       exec [Complete i (Replying v); Resume i] s = Some s' /\
       storage (world_of s') = storage (world_of s) /\
       pool s' !! i
       = Some (Finished (section_outcome h hp rc (Rejected (newError protocol_error)))) /\
       isRefreshing (world_of s') = false /\ queue (world_of s') = [] /\
       forall p, p ∈ queue (world_of s) -> promises (world_of s) !! p = Some None ->
         promises (world_of s') !! p = Some (Some (Rejected (newError protocol_error)))).
Proof.
  intros Hrt Ht Hb Hv. rewrite run_getRefreshToken in Hrt. injection Hrt as Hrt.
  assert (Hrun : run behaviour (refreshToken cb) w
                 = (Some (Rejected (newError protocol_error)), invoked cb rt w)).
  { rewrite run_refreshToken, Hrt, Ht.
    apply (run_refreshAttempt_violation behaviour cb rt v w);
      [exact Hb|apply unrecognized_object_test, Hv|apply Hv]. }
  split; [split; [exact Hrun|reflexivity]|split].
  - intros Hstale. rewrite (run_refreshTokenIfNeeded_stale _ _ _ Hstale). exact Hrun.
  - intros s i h hp rc Hi. pose proof (lookup_lt_Some _ _ _ Hi) as Hlt.
    destruct (refreshAttempt_unrecognized cb rt) as (k & Hk & Hkv).
    rewrite Hk in Hi. simpl. rewrite Hi. simpl.
    rewrite list_lookup_insert_eq by exact Hlt. simpl.
    change (run_sync i (bind _ _) (world_of s))
      with (run_sync i (refreshSection h hp rc (k (Resolved v))) (world_of s)).
    rewrite run_sync_refreshSection, (Hkv v Hv). simpl run_sync. simpl.
    eexists. split; [reflexivity|]. simpl.
    destruct (settle_all_same i (queue (world_of s)) (Rejected (newError protocol_error))
                (world_of s)) as (Hst & _).
    split; [exact Hst|]. split.
    { apply list_lookup_insert_eq. rewrite length_insert. exact Hlt. }
    split; [reflexivity|]. split; [reflexivity|].
    intros p Hp Hpend. rewrite promises_settle_all, Hpend.
    rewrite decide_True by exact Hp. reflexivity.
Qed.

End ProtocolViolation.

(** ** [refreshTokenIfNeeded] called directly *)

Section DirectCalls.
Context `{Runtime}.
Variable behaviour : TokenRefreshRequest -> jsval -> settled jsval.

(** A function that stays away from the coordinator neither reads nor
    writes [isRefreshing] and the queue: run with other values of them, it
    gives the same result and leaves them as they are. *)
Lemma run_coord_free {A : Type} (p : prog A) (w : world) (b : bool) (q : list waiter) :
  coord_free p ->
  run behaviour p (set_isRefreshing b (set_queue q w)) =
  let '(r, w') := run behaviour p w in (r, set_isRefreshing b (set_queue q w')).
Proof.
  revert w. induction p as [a|e|X ev k IH]; intros w Hp; simpl; try reflexivity.
  destruct Hp as [Hev Hk].
  destruct ev as [ |value| |cb rt| | |fl| |qu| |p|p v|p e|p ]; try discriminate; simpl.
  - apply (IH _ w), Hk.
  - apply (IH _ (set_storage (Some value) w)), Hk.
  - apply (IH _ (set_storage None w)), Hk.
  - destruct (behaviour cb rt); apply (IH _ (record (OCallRefresh 0 cb rt) w)), Hk.
  - apply (IH _ w), Hk.
Qed.

Lemma run_coord_free_same {A : Type} (p : prog A) (w : world) :
  coord_free p ->
  isRefreshing (run behaviour p w).2 = isRefreshing w /\
  queue (run behaviour p w).2 = queue w /\
  promises (run behaviour p w).2 = promises w.
Proof.
  revert w. induction p as [a|e|X ev k IH]; intros w Hp; simpl; [repeat split..|].
  destruct Hp as [Hev Hk].
  destruct ev as [ |value| |cb rt| | |fl| |qu| |p|p v|p e|p ]; try discriminate; simpl.
  - apply (IH _ w), Hk.
  - apply (IH _ (set_storage (Some value) w)), Hk.
  - apply (IH _ (set_storage None w)), Hk.
  - destruct (behaviour cb rt); apply (IH _ (record (OCallRefresh 0 cb rt) w)), Hk.
  - apply (IH _ w), Hk.
Qed.

End DirectCalls.

(** ** [refreshTokenIfNeeded] and the coordinator *)

(** C10.  [refreshTokenIfNeeded] performs no event on [isRefreshing], the
    queue or its promises: run with other values of the flag and the queue
    it gives the same result, and it leaves them as they are.  So nothing
    keeps two direct calls apart: in the run [two_direct_calls] both have
    invoked the refresh callback and both wait for it, and the flag was
    never written. *)
Theorem direct_refresh_bypasses_coordinator :
  (forall (R : Runtime) cb, coord_free (refreshTokenIfNeeded cb)) /\
  (forall (R : Runtime) behaviour cb w b q,
     run behaviour (refreshTokenIfNeeded cb) (set_isRefreshing b (set_queue q w)) =
     let '(r, w') := run behaviour (refreshTokenIfNeeded cb) w in
     (r, set_isRefreshing b (set_queue q w'))) /\
  (forall (R : Runtime) behaviour cb w,
     isRefreshing (run behaviour (refreshTokenIfNeeded cb) w).2 = isRefreshing w /\
     queue (run behaviour (refreshTokenIfNeeded cb) w).2 = queue w /\
     promises (run behaviour (refreshTokenIfNeeded cb) w).2 = promises w) /\
  (fun s => (log (world_of s), awaiting_refresh <$> pool s))
    <$> exec Runs.two_direct_calls Runs.start
  = Some ([OCallRefresh 1 0 (VStr "r1"); OCallRefresh 0 0 (VStr "r1")], [true; true]).
Proof.
  split; [|split; [|split]].
  - intros R cb. apply coord_free_refreshTokenIfNeeded.
  - intros R behaviour cb w b q. apply run_coord_free, coord_free_refreshTokenIfNeeded.
  - intros R behaviour cb w. apply run_coord_free_same, coord_free_refreshTokenIfNeeded.
  - vm_compute. reflexivity.
Qed.

(** ** The stored pair through the public functions *)

Section StoredPair.
Context `{Runtime}.
Variable behaviour : TokenRefreshRequest -> jsval -> settled jsval.

Lemma lookup_to_json_fields (key : string) (fields : list (string * jsval)) (v : jsval) :
  lookup_field key fields = Some v -> v <> VUndef ->
  lookup_field key (to_json_fields fields) = Some (to_json v).
Proof.
  intros Hl Hv. induction fields as [|[k x] rest IH]; [discriminate|].
  simpl in Hl. destruct (String.eqb k key) eqn:E.
  - injection Hl as ->. rewrite to_json_fields_cons by exact Hv. simpl. rewrite E. reflexivity.
  - destruct x; try (rewrite to_json_fields_cons by discriminate; simpl; rewrite E);
      apply IH, Hl.
Qed.

Lemma lookup_to_json_fields_none (key : string) (fields : list (string * jsval)) :
  lookup_field key fields = None -> lookup_field key (to_json_fields fields) = None.
Proof.
  induction fields as [|[k x] rest IH]; [reflexivity|].
  intros Hl. simpl in Hl. destruct (String.eqb k key) eqn:E; [discriminate|].
  destruct x; try (rewrite to_json_fields_cons by discriminate; simpl; rewrite E);
    apply IH, Hl.
Qed.

(** What is read back from a record written by [setAuthTokens]. *)
Lemma stored_get_stringify (key : string) (fields : list (string * jsval)) :
  stored_get key (Some (JSON_stringify (VObj fields))) =
  Resolved (default VUndef (of_json <$> lookup_field key (to_json_fields fields))).
Proof.
  unfold stored_get, stored_tokens, JSON_stringify.
  rewrite to_json_obj, of_json_obj. simpl. rewrite lookup_of_json_fields. reflexivity.
Qed.

Lemma run_setAuthTokens (tokens : jsval) (w : world) :
  run behaviour (setAuthTokens tokens) w =
  (Some (Resolved tt), set_storage (Some (JSON_stringify tokens)) w).
Proof. reflexivity. Qed.

Lemma run_setAccessToken (token : jsval) (w : world) :
  run behaviour (setAccessToken token) w =
  match stored_tokens (storage w) with
  | Resolved tokens =>
      if truthy tokens then
        match assign tokens "accessToken" token with
        | Resolved tokens' =>
            (Some (Resolved tt), set_storage (Some (JSON_stringify tokens')) w)
        | Rejected e => (Some (Rejected e), w)
        end
      else (Some (Rejected nothing_to_update), w)
  | Rejected e => (Some (Rejected e), w)
  end.
Proof.
  unfold setAccessToken. rewrite run_bind, run_getAuthTokens.
  destruct (stored_tokens (storage w)) as [tokens|e]; [|reflexivity].
  destruct (truthy tokens); [|reflexivity]. simpl.
  rewrite run_bind, run_lift.
  destruct (assign tokens "accessToken" token); reflexivity.
Qed.

(** X1.  Whatever was stored before, after [setAuthTokens] of an object
    whose [accessToken] and [refreshToken] are the strings [a] and [r],
    [getAccessToken] returns [a], [getRefreshToken] returns [r], and
    [isLoggedIn] tells whether [r] is a non-empty string. *)
Theorem stored_pair_round_trip (fields : list (string * jsval)) (a r : string) (w : world) :
  lookup_field "accessToken" fields = Some (VStr a) ->
  lookup_field "refreshToken" fields = Some (VStr r) ->
  exists w',
    run behaviour (setAuthTokens (VObj fields)) w = (Some (Resolved tt), w') /\
    run behaviour getAccessToken w' = (Some (Resolved (VStr a)), w') /\
    run behaviour getRefreshToken w' = (Some (Resolved (VStr r)), w') /\
    run behaviour isLoggedIn w' = (Some (Resolved (negb (String.eqb r ""))), w').
Proof.
  intros Ha Hr. eexists. split; [apply run_setAuthTokens|].
  rewrite run_getAccessToken, run_getRefreshToken, run_isLoggedIn. simpl storage.
  rewrite !stored_get_stringify.
  rewrite (lookup_to_json_fields _ _ _ Ha), (lookup_to_json_fields _ _ _ Hr) by discriminate.
  repeat split.
Qed.

(** X2.  Whatever was stored before, a record or a text that does not
    parse, after [clearAuthTokens] both getters return [undefined],
    [isLoggedIn] returns [false], [refreshTokenIfNeeded] fails with "No
    refresh token available" without invoking the callback, and the
    interceptor returns the request as it came. *)
Theorem cleared_storage_is_logged_out (w : world) :
  exists w',
    run behaviour clearAuthTokens w = (Some (Resolved tt), w') /\
    storage w' = None /\
    run behaviour getAccessToken w' = (Some (Resolved VUndef), w') /\
    run behaviour getRefreshToken w' = (Some (Resolved VUndef), w') /\
    run behaviour isLoggedIn w' = (Some (Resolved false), w') /\
    (forall cb,
       run behaviour (refreshTokenIfNeeded cb) w'
       = (Some (Rejected (VError "Error" "No refresh token available" [])), w')) /\
    (forall config requestConfig,
       run behaviour (authTokenInterceptor config requestConfig) w'
       = (Some (Resolved requestConfig), w')).
Proof.
  eexists. split; [reflexivity|]. repeat split.
Qed.

(** X3.  When [getAuthTokens] finds nothing (no item, an empty text, or a
    JSON text for a falsy value), [setAccessToken] fails with "Unable to
    update access token since there are not tokens currently stored" and
    writes nothing. *)
Theorem setAccessToken_nothing_stored (token tokens : jsval) (w : world) :
  run behaviour getAuthTokens w = (Some (Resolved tokens), w) ->
  truthy tokens = false ->
  run behaviour (setAccessToken token) w = (Some (Rejected nothing_to_update), w).
Proof.
  rewrite run_getAuthTokens. intros [= Hst] Ht.
  rewrite run_setAccessToken, Hst, Ht. reflexivity.
Qed.


(** X5.  When the stored text is not JSON, every function that reads the
    record fails with the [SyntaxError] whose message is "Failed to parse
    auth tokens: " followed by the stored text: the getters, [isLoggedIn],
    [setAccessToken], [refreshTokenIfNeeded] and the interceptor.  None of
    them changes anything: the text stays stored, no callback is invoked and
    [isRefreshing] is not touched. *)
Theorem malformed_record_surfaces (text : string) (w : world) :
  storage w = Some (RawText text) -> text <> "" ->
  run behaviour getAccessToken w = (Some (Rejected (parse_failure text)), w) /\
  run behaviour getRefreshToken w = (Some (Rejected (parse_failure text)), w) /\
  run behaviour isLoggedIn w = (Some (Rejected (parse_failure text)), w) /\
  (forall token,
     run behaviour (setAccessToken token) w = (Some (Rejected (parse_failure text)), w)) /\
  (forall cb,
     run behaviour (refreshTokenIfNeeded cb) w = (Some (Rejected (parse_failure text)), w)) /\
  (forall config requestConfig,
     run behaviour (authTokenInterceptor config requestConfig) w
     = (Some (Rejected (parse_failure text)), w)).
Proof.
  intros Hst Hne.
  assert (Htok : stored_tokens (storage w) = Rejected (parse_failure text)).
  { rewrite Hst. simpl. destruct (String.eqb text "") eqn:E; [|reflexivity].
    apply String.eqb_eq in E. contradiction. }
  assert (Hget : forall key, stored_get key (storage w) = Rejected (parse_failure text)).
  { intros key. unfold stored_get. rewrite Htok. reflexivity. }
  split; [rewrite run_getAccessToken, Hget; reflexivity|].
  split; [rewrite run_getRefreshToken, Hget; reflexivity|].
  split; [rewrite run_isLoggedIn, Hget; reflexivity|].
  split; [intros token; rewrite run_setAccessToken, Htok; reflexivity|].
  split.
  - intros cb. rewrite run_refreshTokenIfNeeded, Hget. reflexivity.
  - intros config rc. unfold authTokenInterceptor.
    rewrite run_bind, run_getRefreshToken, Hget. reflexivity.
Qed.

End StoredPair.

(** ** The interceptor on its own *)

Section SoloInterceptor.
Context `{Runtime}.
Variable behaviour : TokenRefreshRequest -> jsval -> settled jsval.

Lemma run_finished {A : Type} (p : prog A) (w w' : world) (r : settled A) :
  run_sync 0%nat p w = (Finished r, w') -> run behaviour p w = (Some r, w').
Proof.
  revert w. induction p as [a|e|X ev k IH]; intros w; simpl.
  - intros [= <- <-]. reflexivity.
  - intros [= <- <-]. reflexivity.
  - destruct (sync_event 0%nat ev w) as [[x w1]|]; [apply IH|discriminate].
Qed.

Lemma run_try_finally {A : Type} (p : prog A) (fin : prog unit) (w : world) :
  run behaviour (try_finally p fin) w =
  match run behaviour p w with
  | (Some r, w') => run behaviour (bind fin (fun _ => lift r)) w'
  | (None, w') => (None, w')
  end.
Proof.
  revert w. induction p as [a|e|X ev k IH]; intros w; simpl; try reflexivity.
  destruct (sync_event 0%nat ev w) as [[x w']|]; [apply IH|].
  destruct (async_event ev _ _) as [[r w']|]; [apply IH|reflexivity].
Qed.

Lemma run_refreshSection (h hp : string) (rc : AxiosRequestConfig) (q : prog jsval)
    (w : world) :
  run behaviour (refreshSection h hp rc q) w =
  match run behaviour q w with
  | (Some r, w') => (Some (section_outcome h hp rc r), release 0%nat r w')
  | (None, w') => (None, w')
  end.
Proof.
  unfold refreshSection.
  rewrite run_bind, run_try_finally, run_try_catch, run_bind.
  destruct (run behaviour q w) as [[[token|error]|] w']; try reflexivity.
  - rewrite run_bind, (run_finished _ _ _ _ (run_sync_resolveQueue 0%nat token w')).
    simpl. destruct (truthy token); reflexivity.
  - rewrite run_bind, (run_finished _ _ _ _ (run_sync_declineQueue 0%nat error w')).
    rewrite run_bind, run_lift. unfold section_outcome.
    destruct (member error "message") as [m|e]; reflexivity.
Qed.

(** The interceptor, alone and idle, with a refresh token stored. *)
Lemma run_interceptor_idle (config : AuthTokenInterceptorConfig) (rc : AxiosRequestConfig)
    (rt : jsval) (w : world) :
  isRefreshing w = false ->
  stored_get "refreshToken" (storage w) = Resolved rt -> truthy rt = true ->
  run behaviour (authTokenInterceptor config rc) w =
  match run behaviour (refreshTokenIfNeeded (requestRefresh config)) (entered w) with
  | (Some r, w') =>
      (Some (section_outcome (header_of config) (prefix_of config) rc r), release 0%nat r w')
  | (None, w') => (None, w')
  end.
Proof.
  intros Hfl Hrt Ht. unfold authTokenInterceptor.
  rewrite run_bind, run_getRefreshToken, Hrt. unfold intercept. rewrite Ht.
  cbn [negb]. rewrite run_bind. simpl run at 1. rewrite Hfl.
  rewrite <- run_refreshSection. reflexivity.
Qed.



Lemma isTokenExpired_same_clock (token : jsval) (w w' : world) (r : settled bool) :
  clock w' = clock w ->
  run behaviour (isTokenExpired token) w = (Some r, w) ->
  run behaviour (isTokenExpired token) w' = (Some r, w').
Proof.
  intros Hc. rewrite !run_isTokenExpired, !run_getExpiresIn.
  unfold secondsRemaining. rewrite Hc.
  destruct (negb (truthy token)); [intros [= <-]; reflexivity|].
  destruct (jwtDecode token) as [decoded|e]; [|intros [= <-]; reflexivity].
  destruct (decoded !! "exp") as [e|]; [|intros [= <-]; reflexivity].
  destruct (Qeq_bool e 0); intros [= <-]; reflexivity.
Qed.

Lemma access_token_stale_same (w w' : world) :
  storage w' = storage w -> clock w' = clock w ->
  access_token_stale behaviour w -> access_token_stale behaviour w'.
Proof.
  intros Hs Hc (accessToken & Ha & He). exists accessToken.
  rewrite run_getAccessToken in Ha |- *. rewrite Hs.
  injection Ha as Ha. rewrite Ha. split; [reflexivity|].
  eapply isTokenExpired_same_clock; eassumption.
Qed.

Lemma refresh_calls_settles (i : pid) (l : list obs) (ps : list waiter) (o : settled jsval) :
  refresh_calls (map (fun p => OSettle i p o) ps ++ l) = refresh_calls l.
Proof. induction ps as [|p ps IH]; simpl; [reflexivity|exact IH]. Qed.

Lemma refresh_calls_release (i : pid) (o : settled jsval) (w : world) :
  refresh_calls (log (release i o w)) = refresh_calls (log w).
Proof. rewrite log_release. simpl. apply refresh_calls_settles. Qed.


(** With a stale access token and a callback that resolves to a string. *)
Lemma run_interceptor_string (config : AuthTokenInterceptorConfig) (rc : AxiosRequestConfig)
    (rt : jsval) (s : string) (fields : list (string * json)) (w : world) :
  isRefreshing w = false ->
  stored_get "refreshToken" (storage w) = Resolved rt -> truthy rt = true ->
  storage w = Some (RawJson (JObj fields)) ->
  access_token_stale behaviour w ->
  behaviour (requestRefresh config) rt = Resolved (VStr s) ->
  run behaviour (authTokenInterceptor config rc) w =
  (Some (section_outcome (header_of config) (prefix_of config) rc (Resolved (VStr s))),
   release 0%nat (Resolved (VStr s))
     (set_storage (Some (RawJson (JObj (set_field "accessToken" (JStr s) fields))))
        (invoked (requestRefresh config) rt (entered w)))).
Proof.
  intros Hfl Hrt Ht Hst Hstale Hb.
  rewrite (run_interceptor_idle _ _ _ _ Hfl Hrt Ht).
  rewrite (run_refreshTokenIfNeeded_stale behaviour _ (entered w))
    by (apply (access_token_stale_same w); [reflexivity|reflexivity|exact Hstale]).
  rewrite run_refreshToken. change (storage (entered w)) with (storage w).
  rewrite Hrt, Ht.
  rewrite (run_refreshAttempt_string behaviour _ _ s fields (entered w) Hb Hst).
  reflexivity.
Qed.

(** With a stale access token and a callback that rejects. *)
Lemma run_interceptor_rejected (config : AuthTokenInterceptorConfig)
    (rc : AxiosRequestConfig) (rt e : jsval) (w : world) :
  isRefreshing w = false ->
  stored_get "refreshToken" (storage w) = Resolved rt -> truthy rt = true ->
  access_token_stale behaviour w ->
  behaviour (requestRefresh config) rt = Rejected e ->
  run behaviour (authTokenInterceptor config rc) w =
  (Some (Rejected (unable_to_refresh (refresh_failure_message e))),
   release 0%nat
     (Rejected (VError "Error" (refresh_failure_message e) []))
     ((if unauthorized e then set_storage None else id)
        (invoked (requestRefresh config) rt (entered w)))).
Proof.
  intros Hfl Hrt Ht Hstale Hb.
  rewrite (run_interceptor_idle _ _ _ _ Hfl Hrt Ht).
  rewrite (run_refreshTokenIfNeeded_stale behaviour _ (entered w))
    by (apply (access_token_stale_same w); [reflexivity|reflexivity|exact Hstale]).
  rewrite run_refreshToken. change (storage (entered w)) with (storage w).
  rewrite Hrt, Ht.
  rewrite (run_refreshAttempt_rejected behaviour _ _ e (entered w) Hb).
  unfold refresh_failure_message. destruct (unauthorized e); [reflexivity|].
  destruct e; reflexivity.
Qed.

End SoloInterceptor.

Section RefreshOutcomes.
Context `{Runtime}.
Variable behaviour : TokenRefreshRequest -> jsval -> settled jsval.

Lemma run_refreshAttempt_object (cb : TokenRefreshRequest) (rt v : jsval) (w : world) :
  behaviour cb rt = Resolved v ->
  typeof_object v = true -> truthy (get v "accessToken") = true ->
  run behaviour (refreshAttempt cb rt) w =
  (Some (Resolved (get v "accessToken")),
   set_storage (Some (JSON_stringify v)) (invoked cb rt w)).
Proof.
  intros Hb Ho Ha. unfold refreshAttempt, await. simpl. rewrite Hb. simpl.
  unfold opt_get. rewrite Ho, Ha. reflexivity.
Qed.

(** X6.  With a refresh token stored and the access token missing or
    expired, a callback that resolves to an object whose [accessToken] is the
    non-empty string [a] makes [refreshTokenIfNeeded] return [a] after one
    invocation; the stored record is replaced by the whole object.  The
    refresh token read back is the one of the object; when the object has
    none, no refresh token is stored any more and [isLoggedIn] is [false]. *)
Theorem pair_refresh_replaces_record (cb : TokenRefreshRequest) (rt : jsval)
    (fields : list (string * jsval)) (a : string) (w : world) :
  run behaviour getRefreshToken w = (Some (Resolved rt), w) ->
  truthy rt = true ->
  access_token_stale behaviour w ->
  behaviour cb rt = Resolved (VObj fields) ->
  lookup_field "accessToken" fields = Some (VStr a) -> a <> "" ->
  exists w',
    run behaviour (refreshTokenIfNeeded cb) w = (Some (Resolved (VStr a)), w') /\
    storage w' = Some (JSON_stringify (VObj fields)) /\
    refresh_calls (log w') = S (refresh_calls (log w)) /\
    run behaviour getAccessToken w' = (Some (Resolved (VStr a)), w') /\
    (forall r, lookup_field "refreshToken" fields = Some (VStr r) ->
       run behaviour getRefreshToken w' = (Some (Resolved (VStr r)), w')) /\
    (lookup_field "refreshToken" fields = None ->
       run behaviour getRefreshToken w' = (Some (Resolved VUndef), w') /\
       run behaviour isLoggedIn w' = (Some (Resolved false), w')).
Proof.
  intros Hrt Ht Hstale Hb Ha Hne. rewrite run_getRefreshToken in Hrt. injection Hrt as Hrt.
  assert (Hacc : get (VObj fields) "accessToken" = VStr a) by (simpl; rewrite Ha; reflexivity).
  assert (Hta : truthy (VStr a) = true).
  { simpl. destruct (String.eqb a "") eqn:E; [|reflexivity].
    apply String.eqb_eq in E. contradiction. }
  rewrite (run_refreshTokenIfNeeded_stale _ _ _ Hstale), run_refreshToken, Hrt, Ht.
  rewrite (run_refreshAttempt_object cb rt (VObj fields) w Hb eq_refl)
    by (rewrite Hacc; exact Hta).
  rewrite Hacc. eexists. split; [reflexivity|]. split; [reflexivity|].
  split; [reflexivity|].
  rewrite run_getAccessToken, run_getRefreshToken, run_isLoggedIn. simpl storage.
  rewrite !stored_get_stringify.
  rewrite (lookup_to_json_fields _ _ _ Ha) by discriminate.
  split; [reflexivity|]. split.
  - intros r Hr. rewrite (lookup_to_json_fields _ _ _ Hr) by discriminate. reflexivity.
  - intros Hr. rewrite (lookup_to_json_fields_none _ _ Hr). split; reflexivity.
Qed.


Lemma truthy_string (s : string) : s <> "" -> truthy (VStr s) = true.
Proof.
  intros Hne. simpl. destruct (String.eqb s "") eqn:E; [|reflexivity].
  apply String.eqb_eq in E. contradiction.
Qed.


(** X9.  Idle, with a refresh token [rt] stored and the access token
    missing or expired, when the callback resolves to the non-empty string
    [s] the interceptor returns the request with the header set to the
    prefix followed by [s].  Between setting and clearing [isRefreshing] it
    has invoked the callback once, with [rt]; afterwards [s] is the stored
    access token and [rt] still the stored refresh token. *)
Theorem interceptor_refreshes_stale_token (config : AuthTokenInterceptorConfig)
    (requestConfig : AxiosRequestConfig) (rt : jsval) (s : string) (w : world) :
  isRefreshing w = false -> queue w = [] ->
  run behaviour getRefreshToken w = (Some (Resolved rt), w) -> truthy rt = true ->
  access_token_stale behaviour w ->
  behaviour (requestRefresh config) rt = Resolved (VStr s) -> s <> "" ->
  exists requestConfig' w',
    run behaviour (authTokenInterceptor config requestConfig) w
    = (Some (Resolved requestConfig'), w') /\
    url requestConfig' = url requestConfig /\
    headers requestConfig'
    = <[header_of config := prefix_of config +:+ s]> (headers requestConfig) /\
    run behaviour getAccessToken w' = (Some (Resolved (VStr s)), w') /\
    run behaviour getRefreshToken w' = (Some (Resolved rt), w') /\
    log w' = OSetRefreshing 0%nat false
               :: OCallRefresh 0%nat (requestRefresh config) rt
               :: OSetRefreshing 0%nat true :: log w /\
    isRefreshing w' = false /\ queue w' = [].
Proof.
  intros Hfl Hq Hrt Ht Hstale Hb Hne.
  rewrite run_getRefreshToken in Hrt. injection Hrt as Hrt.
  destruct (stored_refresh_token_object _ _ Hrt Ht) as (fields & Hst & Hf).
  rewrite (run_interceptor_string behaviour config requestConfig rt s fields w)
    by assumption.
  unfold section_outcome. rewrite (truthy_string s Hne).
  eexists _, _. split; [reflexivity|]. split; [reflexivity|]. split; [reflexivity|].
  rewrite run_getAccessToken, run_getRefreshToken, log_release.
  match goal with
  | |- context [release 0%nat ?o ?w0] =>
      destruct (release_same 0%nat o w0) as (-> & -> & ->)
  end.
  simpl storage. unfold stored_get, stored_tokens. rewrite !of_json_obj. simpl.
  rewrite <- set_of_json_fields, lookup_set_field_same.
  rewrite lookup_set_field_other by discriminate. rewrite Hf, Hq.
  repeat split.
Qed.

(** X10.  Idle, with a refresh token stored and the access token missing
    or expired, when the callback rejects with [e] the interceptor rejects
    with a new [Error] whose message is "Unable to refresh access token for
    request due to token refresh error: " followed by the message of the
    error of [refreshToken]: "Got <status> on token refresh; clearing both
    auth tokens" when [e.response.status] is 401 or 422, and the text of [e]
    otherwise.  In the first case the stored record is gone, in the second it
    is as it was; [isRefreshing] is false again. *)
Theorem interceptor_failure_message (config : AuthTokenInterceptorConfig)
    (requestConfig : AxiosRequestConfig) (rt e : jsval) (w : world) :
  isRefreshing w = false ->
  run behaviour getRefreshToken w = (Some (Resolved rt), w) -> truthy rt = true ->
  access_token_stale behaviour w ->
  behaviour (requestRefresh config) rt = Rejected e ->
  exists w',
    run behaviour (authTokenInterceptor config requestConfig) w
    = (Some (Rejected (unable_to_refresh (refresh_failure_message e))), w') /\
    storage w' = (if unauthorized e then None else storage w) /\
    refresh_calls (log w') = S (refresh_calls (log w)) /\
    isRefreshing w' = false /\ queue w' = [].
Proof.
  intros Hfl Hrt Ht Hstale Hb.
  rewrite run_getRefreshToken in Hrt. injection Hrt as Hrt.
  rewrite (run_interceptor_rejected behaviour config requestConfig rt e w) by assumption.
  eexists. split; [reflexivity|].
  rewrite refresh_calls_release.
  match goal with
  | |- context [release 0%nat ?o ?w0] =>
      destruct (release_same 0%nat o w0) as (-> & -> & ->)
  end.
  destruct (unauthorized e); repeat split.
Qed.


Lemma append_empty (s : string) : s +:+ "" = s.
Proof.
  induction s as [|c s IH]; [reflexivity|].
  change (String c s +:+ "") with (String c (s +:+ "")). rewrite IH. reflexivity.
Qed.

(** X12.  A callback that resolves to the empty string is taken at its
    word: the empty string becomes the stored access token.  The request of
    the refreshing call is returned as it came, with no header set, while a
    queued call whose waiter was resolved with the empty string gets the
    header set to the bare prefix. *)
Theorem empty_token_sends_no_header (config : AuthTokenInterceptorConfig)
    (requestConfig : AxiosRequestConfig) (rt : jsval) (w : world) :
  isRefreshing w = false ->
  run behaviour getRefreshToken w = (Some (Resolved rt), w) -> truthy rt = true ->
  access_token_stale behaviour w ->
  behaviour (requestRefresh config) rt = Resolved (VStr "") ->
  (exists w',
     run behaviour (authTokenInterceptor config requestConfig) w
     = (Some (Resolved requestConfig), w') /\
     run behaviour getAccessToken w' = (Some (Resolved (VStr "")), w') /\
     refresh_calls (log w') = S (refresh_calls (log w))) /\
  (forall (s : state AxiosRequestConfig) j h hp rc p,
     pool s !! j = Some (Blocked (queuedRequest h hp rc (await (AwaitWaiter p)))) ->
     promises (world_of s) !! p = Some (Some (Resolved (VStr ""))) ->
     exists s',
       exec [Complete j Normally; Resume j] s = Some s' /\
       pool s' !! j = Some (Finished (Resolved (set_header rc h hp)))).
Proof.
  intros Hfl Hrt Ht Hstale Hb. split.
  - rewrite run_getRefreshToken in Hrt. injection Hrt as Hrt.
    destruct (stored_refresh_token_object _ _ Hrt Ht) as (fields & Hst & Hf).
    rewrite (run_interceptor_string behaviour config requestConfig rt "" fields w)
      by assumption.
    eexists. split; [reflexivity|].
    rewrite run_getAccessToken, refresh_calls_release.
    match goal with
    | |- context [storage (release 0%nat ?o ?w0)] =>
        destruct (release_same 0%nat o w0) as (-> & _)
    end.
    simpl storage. unfold stored_get, stored_tokens. rewrite !of_json_obj. simpl.
    rewrite <- set_of_json_fields, lookup_set_field_same. split; reflexivity.
  - intros s j h hp rc p Hj Hp.
    destruct (queued_call_settles s j h hp rc p _ Hj Hp) as (s' & Hs' & Hfin & _).
    exists s'. split; [exact Hs'|]. rewrite Hfin. unfold queued_outcome. simpl.
    rewrite append_empty. reflexivity.
Qed.

(** X13.  When the decoder rejects the stored access token, the error
    comes before any refresh: [refreshTokenIfNeeded] fails with the decoder's
    error, invokes no callback and writes nothing, so the next call finds
    the same token and fails the same way.  The interceptor, idle and with a
    refresh token stored, rejects the request with the error that wraps the
    decoder's message. *)
Theorem undecodable_token_blocks_refresh (token : jsval) (name message : string)
    (props : list (string * jsval)) (w : world) :
  run behaviour getAccessToken w = (Some (Resolved token), w) ->
  truthy token = true ->
  jwtDecode token = Rejected (VError name message props) ->
  (forall cb,
     run behaviour (refreshTokenIfNeeded cb) w
     = (Some (Rejected (VError name message props)), w)) /\
  (forall config requestConfig rt,
     isRefreshing w = false ->
     run behaviour getRefreshToken w = (Some (Resolved rt), w) -> truthy rt = true ->
     exists w',
       run behaviour (authTokenInterceptor config requestConfig) w
       = (Some (Rejected (unable_to_refresh message)), w') /\
       storage w' = storage w /\
       refresh_calls (log w') = refresh_calls (log w) /\
       isRefreshing w' = false /\ queue w' = []).
Proof.
  intros Ha Ht Hd. rewrite run_getAccessToken in Ha. injection Ha as Ha.
  assert (Hrun : forall cb w1, storage w1 = storage w ->
            run behaviour (refreshTokenIfNeeded cb) w1
            = (Some (Rejected (VError name message props)), w1)).
  { intros cb w1 Hst. rewrite run_refreshTokenIfNeeded, Hst, Ha.
    rewrite run_isTokenExpired, run_getExpiresIn, Ht, Hd. reflexivity. }
  split; [intros cb; apply Hrun; reflexivity|].
  intros config rc rt Hfl Hrt Htr. rewrite run_getRefreshToken in Hrt. injection Hrt as Hrt.
  rewrite (run_interceptor_idle behaviour _ _ _ _ Hfl Hrt Htr), Hrun by reflexivity.
  eexists. split; [reflexivity|]. rewrite refresh_calls_release.
  destruct (release_same 0%nat (Rejected (VError name message props)) (entered w))
    as (-> & -> & ->).
  repeat split.
Qed.

(** What [refreshAttempt] returns is the answer of the callback when that
    is a string, and its truthy [accessToken] otherwise. *)
Lemma run_refreshAttempt_resolved (cb : TokenRefreshRequest) (rt token : jsval)
    (w w' : world) :
  run behaviour (refreshAttempt cb rt) w = (Some (Resolved token), w') ->
  exists v,
    behaviour cb rt = Resolved v /\
    ((typeof_object v = true /\ token = get v "accessToken" /\ truthy token = true) \/
     (v = token /\ typeof_string token = true)).
Proof.
  unfold refreshAttempt. rewrite run_try_catch, run_bind.
  unfold await. cbn [run sync_event async_event solo_answer issue].
  destruct (behaviour cb rt) as [v|e] eqn:Hb; cbn [lift run].
  - destruct (typeof_object v && truthy (opt_get v "accessToken")) eqn:Ho.
    + apply andb_prop in Ho as [Ho Ha]. rewrite run_bind, run_setAuthTokens.
      cbn [run]. intros [= <- _]. exists v. split; [reflexivity|]. left. auto.
    + destruct (typeof_string v) eqn:Hs.
      * rewrite run_bind, run_setAccessToken.
        destruct (stored_tokens _) as [tokens|e].
        -- destruct (truthy tokens).
           ++ destruct (assign tokens "accessToken" v) as [tokens'|e].
              ** cbn [run]. intros [= <- _]. exists v. split; [reflexivity|]. right. auto.
              ** cbv beta zeta. destruct (_ || _); [|discriminate].
                 rewrite run_bind. cbn. discriminate.
           ++ cbv beta zeta. destruct (_ || _); [|discriminate].
              rewrite run_bind. cbn. discriminate.
        -- cbv beta zeta. destruct (_ || _); [|discriminate].
           rewrite run_bind. cbn. discriminate.
      * cbn [run]. cbv beta zeta. destruct (_ || _); [|discriminate].
        rewrite run_bind. cbn. discriminate.
  - cbv beta zeta. destruct (_ || _); [|discriminate].
    rewrite run_bind. cbn. discriminate.
Qed.

(** X14.  A token that [refreshTokenIfNeeded] returns is never [undefined]:
    it is truthy, or it is the empty string, and then the empty string is
    what the callback resolved to. *)
Theorem refresh_result_is_a_token (cb : TokenRefreshRequest) (token : jsval) (w w' : world) :
  run behaviour (refreshTokenIfNeeded cb) w = (Some (Resolved token), w') ->
  truthy token = true \/
  (token = VStr "" /\ exists rt, behaviour cb rt = Resolved (VStr "")).
Proof.
  rewrite run_refreshTokenIfNeeded.
  destruct (stored_get "accessToken" (storage w)) as [accessToken|e]; [|discriminate].
  pose proof (run_isTokenExpired behaviour accessToken w) as He.
  destruct (run_isTokenExpired_total behaviour accessToken w) as [r Hr]. rewrite Hr.
  destruct r as [[|]|e]; [| |discriminate].
  - rewrite run_refreshToken.
    destruct (stored_get "refreshToken" (storage w)) as [rt|e]; [|discriminate].
    destruct (truthy rt); [|discriminate].
    intros Hrun.
    destruct (run_refreshAttempt_resolved _ _ _ _ _ Hrun)
      as (v & Hb & [(_ & _ & Ht)|(-> & Hs)]); [left; exact Ht|].
    destruct token as [| | | |s| |]; try discriminate.
    destruct (String.eqb s "") eqn:E.
    + apply String.eqb_eq in E. subst s. right. split; [reflexivity|]. eauto.
    + left. simpl. rewrite E. reflexivity.
  - intros [= <- <-]. left.
    destruct (truthy accessToken); [reflexivity|]. simpl in He. congruence.
Qed.

End RefreshOutcomes.

(** ** The order of release and the writers of the storage *)

Section PushOrder.
Context `{Runtime}.

Lemma moves_push_order (i : pid) (r r' : role) (w w' : world) :
  moves i r w r' w' -> in_push_order w -> in_push_order w'.
Proof.
  unfold in_push_order.
  intros Hm Hq. destruct Hm as [r r' w w' (_ & Hqu & _ & Hlog) _|w _|w _|n m X ev w _|n o w].
  - rewrite Hqu, Hlog. exact Hq.
  - simpl. rewrite Hq. reflexivity.
  - simpl. exact Hq.
  - destruct (issue_same i ev w) as (_ & -> & _). rewrite Hq.
    destruct ev; reflexivity.
  - destruct (release_same i o w) as (_ & _ & ->). rewrite log_release. reflexivity.
Qed.

Lemma push_order_step (a : action AxiosRequestConfig) (s s' : state AxiosRequestConfig)
    (roles : list role) :
  coordinated s roles -> in_push_order (world_of s) -> step a s = Some s' ->
  in_push_order (world_of s').
Proof.
  intros Hco Hq Hstep. destruct a as [p|i|i a|dt|v]; simpl in Hstep.
  - injection Hstep as <-. exact Hq.
  - destruct (pool s !! i) as [t|] eqn:Ht; [|discriminate].
    destruct (resume i t (world_of s)) as [[t' w']|] eqn:Hr; [|discriminate].
    injection Hstep as <-.
    destruct (Forall2_lookup_l _ _ _ _ _ (co_shaped _ _ Hco) Ht) as (r & Hi & Hsr).
    destruct (resume_shaped i t r _ _ _ Hsr Hr) as (r' & _ & Hm).
    exact (moves_push_order _ _ _ _ _ Hm Hq).
  - destruct (pool s !! i) as [t|] eqn:Ht; [|discriminate].
    destruct (complete t a (world_of s)) as [[t' w']|] eqn:Hr; [|discriminate].
    injection Hstep as <-.
    destruct (Forall2_lookup_l _ _ _ _ _ (co_shaped _ _ Hco) Ht) as (r & Hi & Hsr).
    destruct (complete_shaped i t r _ _ _ _ Hsr Hr) as (r' & _ & Hm).
    exact (moves_push_order _ _ _ _ _ Hm Hq).
  - injection Hstep as <-. exact Hq.
  - injection Hstep as <-. exact Hq.
Qed.

Lemma push_order_exec (acts : list (action AxiosRequestConfig))
    (s s' : state AxiosRequestConfig) (roles : list role) :
  Forall interceptor_call acts -> coordinated s roles -> in_push_order (world_of s) ->
  exec acts s = Some s' ->
  in_push_order (world_of s') /\ exists roles', coordinated s' roles'.
Proof.
  revert s roles. induction acts as [|a acts IH]; intros s roles Hall Hco Hq Hex; simpl in Hex.
  - injection Hex as <-. split; [exact Hq|eauto].
  - apply Forall_cons in Hall as [Ha Hall].
    destruct (step a s) as [s1|] eqn:Hstep; [|discriminate].
    destruct (coordinated_step _ _ _ _ Ha Hco Hstep) as [roles1 Hco1].
    apply (IH s1 roles1 Hall Hco1); [|exact Hex].
    exact (push_order_step _ _ _ _ Hco Hq Hstep).
Qed.

(** X15.  In every state that interceptor calls can reach, the queue
    holds the waiters pushed since the last release, in the order of their
    pushes; and the step that clears [isRefreshing] calls [resolve], or
    [reject], on them in that order, with one and the same outcome, before
    it clears the flag. *)
Theorem waiters_released_in_push_order (acts : list (action AxiosRequestConfig))
    (stored : option raw) (now : Z) (s : state AxiosRequestConfig) :
  Forall interceptor_call acts ->
  exec acts (initial stored now) = Some s ->
  queue (world_of s) = queued_since_release (log (world_of s)) /\
  forall a s',
    step a s = Some s' ->
    isRefreshing (world_of s) = true -> isRefreshing (world_of s') = false ->
    exists i o,
      log (world_of s')
      = OSetRefreshing i false
          :: rev (map (fun p => OSettle i p o) (queued_since_release (log (world_of s))))
          ++ log (world_of s).
Proof.
  intros Hall Hex.
  destruct (push_order_exec _ _ _ _ Hall (coordinated_initial stored now) eq_refl Hex)
    as (Hq & roles & Hco).
  split; [exact Hq|].
  intros a s' Hstep Ht Hf.
  destruct (clearing_step _ _ _ _ Hco Hstep Ht Hf) as (i & o & h & hp & rc & _ & _ & _ & ->).
  exists i, o. rewrite log_release, map_rev, Hq. reflexivity.
Qed.

End PushOrder.

Section SingleWriter.
Context `{Runtime}.

Lemma reads_only_quiet {A : Type} (g : prog A) : reads_only g -> quiet g.
Proof. apply all_events_weaken. tauto. Qed.

Lemma reads_only_getRefreshToken : reads_only getRefreshToken.
Proof.
  apply all_events_bind; [|intros ?; exact I].
  unfold getAuthTokens. apply all_events_bind.
  - apply all_events_await. repeat split.
  - intros a. destruct (raw_absent a); [exact I|]. destruct a as [[j|s]|]; exact I.
Qed.

Lemma sync_event_storage (i : pid) {X : Type} (ev : event X) (w w' : world) (x : X) :
  sync_event i ev w = Some (x, w') -> storage w' = storage w.
Proof.
  destruct ev; simpl; try discriminate; intros [= _ <-]; try reflexivity;
    unfold settle; simpl; destruct (promises w !! _) as [[?|]|]; reflexivity.
Qed.

Lemma run_sync_storage (i : pid) {A : Type} (p : prog A) (w : world) :
  storage (run_sync i p w).2 = storage w.
Proof.
  revert w. induction p as [a|e|X ev k IH]; intros w; simpl; try reflexivity.
  destruct (sync_event i ev w) as [[x w']|] eqn:Hs.
  - rewrite IH. eapply sync_event_storage, Hs.
  - simpl. destruct (issue_same i ev w) as (_ & _ & _ & Hst & _). exact Hst.
Qed.

Lemma run_sync_reads_only (i : pid) {A : Type} (g : prog A) (w : world) :
  reads_only g ->
  (exists r, run_sync i g w = (Finished r, w)) \/
  (exists g', run_sync i g w = (Blocked g', w) /\ reads_only g').
Proof.
  induction g as [a|e|X ev k IH]; intros Hg; simpl; [left; eauto..|].
  destruct Hg as [(Hc & Hr & Hw) Hk].
  destruct ev as [ |value| |cb rt| | |fl| |qu| |p|p v|p e|p ]; try discriminate; simpl.
  - right. eexists. split; [reflexivity|]. split; [repeat split|exact Hk].
  - apply IH, Hk.
Qed.

(** The rest of the interceptor does not leave a call where it was. *)
Lemma resume_intercept_leaves (i : pid) (config : AuthTokenInterceptorConfig)
    (rc : AxiosRequestConfig) (a : jsval) (w : world) (t' : task AxiosRequestConfig)
    (w' : world) :
  run_sync i (intercept config rc a) w = (t', w') ->
  exists r', shaped t' r' /\ moves i Arriving w r' w' /\ r' <> Arriving.
Proof.
  destruct (truthy a) eqn:Ht.
  - destruct (isRefreshing w) eqn:Hflag.
    + rewrite run_sync_intercept_busy by assumption. intros [= <- <-].
      eexists. split; [apply shaped_queued|]. split; [|discriminate].
      apply moves_enqueue. exact Hflag.
    + rewrite run_sync_intercept_idle by assumption.
      destruct (refreshTokenIfNeeded_head (requestRefresh config)) as [k Hk].
      pose proof (coord_free_refreshTokenIfNeeded (requestRefresh config)) as Hcf.
      pose proof (calls_refreshTokenIfNeeded (requestRefresh config)) as Hca.
      rewrite Hk in Hcf, Hca |- *. destruct Hcf as [_ Hcf]. simpl in Hca.
      intros [= <- <-].
      eexists. split; [|split; [apply moves_enter; exact Hflag|discriminate]].
      exact (shaped_refreshing _ _ rc _ AsyncStorage_getItem k 1 eq_refl Hcf Hca).
  - rewrite run_sync_intercept_pass by assumption. intros [= <- <-].
    eexists. split; [apply shaped_finished|]. split; [|discriminate].
    apply moves_calm; [apply same_coordinator_refl|constructor].
Qed.

Lemma resume_reader (i : pid) (t : task AxiosRequestConfig) (w : world)
    (t' : task AxiosRequestConfig) (w' : world) :
  reader t -> resume i t w = Some (t', w') ->
  exists r', shaped t' r' /\ moves i Arriving w r' w' /\ (r' = Arriving -> reader t').
Proof.
  intros (config & rc & g & Hg & [->| ->]); simpl; [|discriminate].
  rewrite run_sync_bind.
  destruct (run_sync_reads_only i g w Hg) as [[[a|e] ->]|(g' & -> & Hg')].
  - intros [= Hr].
    destruct (resume_intercept_leaves _ _ _ _ _ _ _ Hr) as (r' & Hs & Hm & Hne).
    exists r'. split; [exact Hs|]. split; [exact Hm|]. intros ->. contradiction.
  - intros [= <- <-]. exists Leaving. split; [apply shaped_finished|].
    split; [|discriminate].
    apply moves_calm; [apply same_coordinator_refl|constructor].
  - intros [= <- <-]. exists Arriving.
    split; [apply shaped_reading, reads_only_quiet, Hg'|].
    split; [apply moves_calm; [apply same_coordinator_refl|constructor]|].
    intros _. exists config, rc, g'. split; [exact Hg'|]. right. reflexivity.
Qed.

Lemma complete_reader (i : pid) (t : task AxiosRequestConfig) (a : answer) (w : world)
    (t' : task AxiosRequestConfig) (w' : world) :
  reader t -> complete t a w = Some (t', w') ->
  shaped t' Arriving /\ moves i Arriving w Arriving w' /\ reader t' /\
  storage w' = storage w.
Proof.
  intros (config & rc & g & Hg & [->| ->]); simpl; [discriminate|].
  destruct g as [v|e|X ev k]; simpl.
  - unfold intercept. destruct (truthy v); simpl; discriminate.
  - discriminate.
  - destruct Hg as [(Hc & Hr & Hw) Hk].
    destruct (async_event ev a w) as [[x w1]|] eqn:Ha; [|discriminate].
    intros [= <- <-].
    split; [apply shaped_arriving, reads_only_quiet, Hk|].
    split; [apply moves_calm; [|constructor]; eapply async_event_quiet; eassumption|].
    split; [exists config, rc, (k x); split; [apply Hk|left; reflexivity]|].
    destruct ev; try discriminate; simpl in Ha; destruct a; try discriminate;
      injection Ha as _ <-; reflexivity.
Qed.

Lemma moves_keeps_away (i : pid) (r r' : role) (w w' : world) :
  moves i r w r' w' -> r <> Arriving -> r' <> Arriving.
Proof.
  intros Hm Hr. destruct Hm as [r r' w w' _ Hcalm|w _|w _|n m X ev w _|n o w];
    try discriminate; try contradiction.
  destruct Hcalm; try discriminate; contradiction.
Qed.

Lemma readers_update (s : state AxiosRequestConfig) (roles : list role) (i : pid)
    (t' : task AxiosRequestConfig) (r' : role) (w' : world) :
  readers s roles -> (r' = Arriving -> reader t') ->
  length (pool s) = length roles ->
  readers {| world_of := w'; pool := <[i := t']> (pool s) |} (<[i := r']> roles).
Proof.
  intros Hrd Hnew Hlen j t Hj Ht. simpl in Ht.
  destruct (decide (j = i)) as [->|Hne].
  - apply list_lookup_insert_Some in Hj as [(_ & Hr & _)|(Hne & _)]; [|contradiction].
    apply list_lookup_insert_Some in Ht as [(_ & <- & _)|(Hne & _)]; [|contradiction].
    apply Hnew. congruence.
  - rewrite list_lookup_insert_ne in Hj by congruence.
    rewrite list_lookup_insert_ne in Ht by congruence.
    eapply Hrd; eassumption.
Qed.

(** A completion that changes the stored item belongs to a call in the
    refresh section. *)
Lemma complete_storage (i : pid) (t : task AxiosRequestConfig) (r : role) (a : answer)
    (w : world) (t' : task AxiosRequestConfig) (w' : world) :
  shaped t r -> (r = Arriving -> reader t) -> complete t a w = Some (t', w') ->
  storage w' <> storage w -> exists n b, r = Leading n b.
Proof.
  intros Hs Hrd Hc Hne. destruct r as [|n b|p|]; [|eauto| |].
  - destruct (complete_reader i _ _ _ _ _ (Hrd eq_refl) Hc) as (_ & _ & _ & E).
    contradiction.
  - inversion Hs; subst. simpl in Hc. destruct a; try discriminate.
    destruct (promises w !! p) as [[o|]|]; try discriminate.
    injection Hc as _ <-. contradiction.
  - inversion Hs; subst; discriminate.
Qed.

Lemma arriving_or_not (r : role) : r = Arriving \/ r <> Arriving.
Proof. destruct r; [left; reflexivity|right; discriminate..]. Qed.

Lemma guarded_step (a : action AxiosRequestConfig) (s s' : state AxiosRequestConfig)
    (roles : list role) :
  interceptor_call a -> coordinated s roles -> readers s roles -> step a s = Some s' ->
  exists roles', coordinated s' roles' /\ readers s' roles'.
Proof.
  intros Ha Hco Hrd Hstep.
  pose proof (Forall2_length _ _ _ (co_shaped _ _ Hco)) as Hlen.
  destruct a as [p|i|i a|dt|v]; simpl in Hstep.
  - destruct Ha as (config & rc & ->). injection Hstep as <-.
    exists (roles ++ [Arriving]).
    destruct Hco as [Hsh Hidle Hbusy Hcalls Hpend Hnd Hq Hset Honce].
    split.
    + constructor; simpl; auto.
      * apply Forall2_app; [exact Hsh|]. constructor; [|constructor].
        exact (shaped_arriving config rc getRefreshToken quiet_getRefreshToken).
      * intros Hfl. destruct (Hidle Hfl) as (Hq0 & Ho & Hno). repeat split; auto.
        intros j n b Hj. apply lookup_app_Some in Hj as [Hj|[_ Hj]]; [eapply Hno; eauto|].
        destruct (j - length roles)%nat; discriminate.
      * intros Hfl. destruct (Hbusy Hfl) as (i0 & n & b & Hi0 & Huniq & Hrest).
        exists i0, n, b. split; [apply lookup_app_l_Some, Hi0|]. split; [|exact Hrest].
        intros j n' b' Hj. apply lookup_app_Some in Hj as [Hj|[_ Hj]]; [eauto|].
        destruct (j - length roles)%nat; discriminate.
      * intros j p Hj. apply lookup_app_Some in Hj as [Hj|[_ Hj]]; [eauto|].
        destruct (j - length roles)%nat; discriminate.
    + intros j t Hj Ht. simpl in Ht.
      apply lookup_app_Some in Ht as [Ht|[Hge Ht]].
      * apply (Hrd j t); [|exact Ht].
        rewrite lookup_app_l in Hj; [exact Hj|].
        rewrite <- Hlen. eapply lookup_lt_Some, Ht.
      * destruct (j - length (pool s))%nat; [|discriminate]. injection Ht as <-.
        exists config, rc, getRefreshToken.
        split; [apply reads_only_getRefreshToken|left; reflexivity].
  - destruct (pool s !! i) as [t|] eqn:Ht; [|discriminate].
    destruct (resume i t (world_of s)) as [[t' w']|] eqn:Hr; [|discriminate].
    injection Hstep as <-.
    destruct (Forall2_lookup_l _ _ _ _ _ (co_shaped _ _ Hco) Ht) as (r & Hi & Hsr).
    destruct (arriving_or_not r) as [->|Hne].
    + destruct (resume_reader i t _ _ _ (Hrd _ _ Hi Ht) Hr) as (r' & Hs' & Hm & Hnew).
      exists (<[i := r']> roles). split; [eapply coordinated_update; eassumption|].
      apply readers_update; assumption.
    + destruct (resume_shaped i t r _ _ _ Hsr Hr) as (r' & Hs' & Hm).
      exists (<[i := r']> roles). split; [eapply coordinated_update; eassumption|].
      apply readers_update; [assumption| |assumption].
      intros ->. exfalso. eapply moves_keeps_away; eauto.
  - destruct (pool s !! i) as [t|] eqn:Ht; [|discriminate].
    destruct (complete t a (world_of s)) as [[t' w']|] eqn:Hr; [|discriminate].
    injection Hstep as <-.
    destruct (Forall2_lookup_l _ _ _ _ _ (co_shaped _ _ Hco) Ht) as (r & Hi & Hsr).
    destruct (arriving_or_not r) as [->|Hne].
    + destruct (complete_reader i t _ _ _ _ (Hrd _ _ Hi Ht) Hr) as (Hs' & Hm & Hnew & _).
      exists (<[i := Arriving]> roles). split; [eapply coordinated_update; eassumption|].
      apply readers_update; auto.
    + destruct (complete_shaped i t r _ _ _ _ Hsr Hr) as (r' & Hs' & Hm).
      exists (<[i := r']> roles). split; [eapply coordinated_update; eassumption|].
      apply readers_update; [assumption| |assumption].
      intros ->. exfalso. eapply moves_keeps_away; eauto.
  - injection Hstep as <-.
    exists roles. destruct Hco as [Hsh Hidle Hbusy Hcalls Hpend Hnd Hq Hset Honce].
    split; [constructor; simpl; auto|exact Hrd].
  - injection Hstep as <-.
    exists roles. destruct Hco as [Hsh Hidle Hbusy Hcalls Hpend Hnd Hq Hset Honce].
    split; [constructor; simpl; auto|exact Hrd].
Qed.

Lemma guarded_exec (acts : list (action AxiosRequestConfig))
    (s s' : state AxiosRequestConfig) (roles : list role) :
  Forall interceptor_call acts -> coordinated s roles -> readers s roles ->
  exec acts s = Some s' ->
  exists roles', coordinated s' roles' /\ readers s' roles'.
Proof.
  revert s roles. induction acts as [|a acts IH]; intros s roles Hall Hco Hrd Hex;
    simpl in Hex.
  - injection Hex as <-. eauto.
  - apply Forall_cons in Hall as [Ha Hall].
    destruct (step a s) as [s1|] eqn:Hstep; [|discriminate].
    destruct (guarded_step _ _ _ _ Ha Hco Hrd Hstep) as (roles1 & Hco1 & Hrd1).
    exact (IH s1 roles1 Hall Hco1 Hrd1 Hex).
Qed.

(** X16.  In every state that interceptor calls can reach, a step that
    changes the stored item is a write from outside the calls, or the
    completion of a storage operation of the call that has set
    [isRefreshing] and not cleared it: a call that is arriving, queued or
    done never writes. *)
Theorem only_refreshing_call_writes_storage (acts : list (action AxiosRequestConfig))
    (stored : option raw) (now : Z) (s : state AxiosRequestConfig) :
  Forall interceptor_call acts ->
  exec acts (initial stored now) = Some s ->
  forall a s',
    step a s = Some s' ->
    storage (world_of s') <> storage (world_of s) ->
    (exists v, a = Store v) \/
    (exists i reply,
       a = Complete i reply /\
       isRefreshing (world_of s) = true /\ flag_owner (log (world_of s)) = Some i).
Proof.
  intros Hall Hex a s' Hstep Hne.
  assert (Hrd0 : readers (initial stored now) []).
  { intros j t Hj. rewrite lookup_nil in Hj. discriminate. }
  destruct (guarded_exec _ _ _ _ Hall (coordinated_initial stored now) Hrd0 Hex)
    as (roles & Hco & Hrd).
  destruct a as [p|i|i a|dt|v]; simpl in Hstep.
  - injection Hstep as <-. contradiction.
  - destruct (pool s !! i) as [t|] eqn:Ht; [|discriminate].
    destruct t as [p|p|r]; simpl in Hstep; try discriminate.
    injection Hstep as <-. simpl in Hne. rewrite run_sync_storage in Hne. contradiction.
  - right. destruct (pool s !! i) as [t|] eqn:Ht; [|discriminate].
    destruct (complete t a (world_of s)) as [[t' w']|] eqn:Hc; [|discriminate].
    injection Hstep as <-. simpl in Hne.
    destruct (Forall2_lookup_l _ _ _ _ _ (co_shaped _ _ Hco) Ht) as (r & Hi & Hsr).
    assert (Hreader : r = Arriving -> reader t) by (intros ->; exact (Hrd i t Hi Ht)).
    destruct (complete_storage i t r a _ _ _ Hsr Hreader Hc Hne) as (n & b & ->).
    destruct (leading_busy _ _ _ _ _ Hco Hi) as (Hfl & Hown & _).
    exists i, a. repeat split; assumption.
  - injection Hstep as <-. contradiction.
  - left. eauto.
Qed.

End SingleWriter.

(** ** Answers that arrive late, operations that fail *)

Section Steps.
Context `{Runtime}.

Lemma step_complete {A : Type} (s : state A) (i : pid) {X : Type} (ev : event X)
    (k : settled X -> prog A) (a : answer) (r : settled X) (w' : world) :
  pool s !! i = Some (Blocked (Vis ev k)) ->
  async_event ev a (world_of s) = Some (r, w') ->
  step (Complete i a) s = Some {| world_of := w'; pool := <[i := Running (k r)]> (pool s) |}.
Proof. intros Hi Ha. simpl. rewrite Hi. simpl. rewrite Ha. reflexivity. Qed.

Lemma step_resume {A : Type} (s : state A) (i : pid) (p : prog A) :
  pool s !! i = Some (Running p) ->
  step (Resume i) s = Some (update i s (run_sync i p (world_of s))).
Proof. intros Hi. simpl. rewrite Hi. reflexivity. Qed.

Lemma refreshSection_vis (h hp : string) (rc : AxiosRequestConfig) {X : Type}
    (ev : event X) (k : settled X -> prog jsval) :
  refreshSection h hp rc (Vis ev k) = Vis ev (fun r => refreshSection h hp rc (k r)).
Proof. reflexivity. Qed.

(** A call in the refresh section, blocked on an operation: the operation
    completes and the call runs its next stretch. *)
Lemma section_continues (s : state AxiosRequestConfig) (i : pid) (h hp : string)
    (rc : AxiosRequestConfig) {X : Type} (ev : event X) (k : settled X -> prog jsval)
    (a : answer) (r : settled X) (w' : world) :
  pool s !! i = Some (Blocked (refreshSection h hp rc (Vis ev k))) ->
  async_event ev a (world_of s) = Some (r, w') ->
  exec [Complete i a; Resume i] s =
  Some (update i {| world_of := w'; pool := <[i := Running (refreshSection h hp rc (k r))]> (pool s) |}
          (run_sync i (refreshSection h hp rc (k r)) w')).
Proof.
  intros Hi Ha. pose proof (lookup_lt_Some _ _ _ Hi) as Hlt.
  cbn [exec]. rewrite refreshSection_vis in Hi.
  rewrite (step_complete s i ev _ a r w' Hi Ha).
  rewrite (step_resume _ i (refreshSection h hp rc (k r)))
    by (apply list_lookup_insert_eq; exact Hlt).
  reflexivity.
Qed.

(** The shape of [refreshAttempt]: it waits for the callback; with a string
    for an answer it goes on to read the stored record, and fails when there
    is none; with an object that has an [accessToken] it goes on to write the
    object, and returns the token when that is done, or fails as the
    classification of the error says. *)
Lemma refreshAttempt_answers (cb : TokenRefreshRequest) (rt : jsval) :
  exists k,
    refreshAttempt cb rt = Vis (RequestRefresh cb rt) k /\
    (forall token : string, exists k2,
       k (Resolved (VStr token)) = Vis AsyncStorage_getItem k2 /\
       k2 (Resolved None) = Throw (newError nothing_to_update)) /\
    (forall v, typeof_object v = true -> truthy (get v "accessToken") = true ->
       exists k2,
         k (Resolved v) = Vis (AsyncStorage_setItem (JSON_stringify v)) k2 /\
         k2 (Resolved tt) = Ret (get v "accessToken") /\
         forall e, unauthorized e = false -> k2 (Rejected e) = Throw (newError e)).
Proof.
  eexists. split; [reflexivity|]. split.
  - intros token. eexists. split; reflexivity.
  - intros v Ho Ha. cbn [bind lift try_catch]. unfold opt_get. rewrite Ho, Ha.
    eexists. split; [reflexivity|]. split; [reflexivity|].
    intros e He. cbn [bind lift try_catch]. cbv beta zeta.
    unfold unauthorized, status_of, opt_get in He. rewrite He. reflexivity.
Qed.

End Steps.

Section Races.
Context `{Runtime}.

Lemma exec_app {A : Type} (acts1 acts2 : list (action A)) (s : state A) :
  exec (acts1 ++ acts2) s =
  match exec acts1 s with
  | Some s1 => exec acts2 s1
  | None => None
  end.
Proof.
  revert s. induction acts1 as [|a acts1 IH]; intros s; simpl; [reflexivity|].
  destruct (step a s) as [s1|]; [apply IH|reflexivity].
Qed.

Lemma answered_app (i : pid) (v : jsval) (a : answer) :
  answered i v a = [Complete i (Replying v); Resume i] ++ [Complete i a; Resume i].
Proof. reflexivity. Qed.

Lemma section_outcome_error (h hp : string) (rc : AxiosRequestConfig) (name message : string)
    (props : list (string * jsval)) :
  section_outcome h hp rc (Rejected (VError name message props))
  = Rejected (unable_to_refresh message).
Proof. reflexivity. Qed.

(** A call blocked on its callback in the refresh section: the callback
    answers with [v], after which the call waits for a storage operation,
    which completes with [r]. *)
Lemma section_answered (s : state AxiosRequestConfig) (i : pid) (h hp : string)
    (rc : AxiosRequestConfig) (cb : TokenRefreshRequest) (rt v : jsval)
    (k : settled jsval -> prog jsval) {X : Type} (ev : event X)
    (k2 : settled X -> prog jsval) (a : answer) (r : settled X) (w' : world) :
  pool s !! i = Some (Blocked (refreshSection h hp rc (Vis (RequestRefresh cb rt) k))) ->
  k (Resolved v) = Vis ev k2 ->
  sync_event i ev (world_of s) = None -> issue i ev (world_of s) = world_of s ->
  async_event ev a (world_of s) = Some (r, w') ->
  exists s',
    exec (answered i v a) s = Some s' /\
    pool s' !! i = Some (run_sync i (refreshSection h hp rc (k2 r)) w').1 /\
    world_of s' = (run_sync i (refreshSection h hp rc (k2 r)) w').2.
Proof.
  intros Hi Hk Hsync Hissue Ha. pose proof (lookup_lt_Some _ _ _ Hi) as Hlt.
  rewrite answered_app, exec_app.
  rewrite (section_continues s i h hp rc _ k (Replying v) (Resolved v) (world_of s) Hi eq_refl).
  rewrite Hk, refreshSection_vis. cbn [run_sync]. rewrite Hsync, Hissue.
  rewrite <- refreshSection_vis.
  match goal with
  | |- context [exec _ ?s1] =>
      rewrite (section_continues s1 i h hp rc ev k2 a r w')
  end.
  - eexists. split; [reflexivity|]. split; [|reflexivity].
    apply list_lookup_insert_eq. simpl. rewrite !length_insert. exact Hlt.
  - apply list_lookup_insert_eq. simpl. rewrite length_insert. exact Hlt.
  - exact Ha.
Qed.

(** X17.  The stored record is removed while the callback of the
    refreshing call is outstanding.  If the callback then resolves to a
    string, [setAccessToken] finds nothing to update: the call rejects with
    the error that wraps "Error: Unable to update access token since there
    are not tokens currently stored", and nothing is stored.  If it resolves
    to an object with an [accessToken], the object is written and the call
    succeeds: tokens are stored again.  Either way the flag is cleared and
    the queue emptied. *)
Theorem refresh_answer_after_logout (cb : TokenRefreshRequest) (rt : jsval)
    (s : state AxiosRequestConfig) (i : pid) (h hp : string) (rc : AxiosRequestConfig) :
  pool s !! i = Some (Blocked (refreshSection h hp rc (refreshAttempt cb rt))) ->
  storage (world_of s) = None ->
  (forall token : string,
     exists s',
       exec (answered i (VStr token) Normally) s = Some s' /\
       storage (world_of s') = None /\
       pool s' !! i
       = Some (Finished (Rejected (unable_to_refresh
           "Error: Unable to update access token since there are not tokens currently stored"))) /\
       isRefreshing (world_of s') = false /\ queue (world_of s') = []) /\
  (forall v,
     typeof_object v = true -> truthy (get v "accessToken") = true ->
     exists s',
       exec (answered i v Normally) s = Some s' /\
       storage (world_of s') = Some (JSON_stringify v) /\
       pool s' !! i = Some (Finished (section_outcome h hp rc (Resolved (get v "accessToken")))) /\
       isRefreshing (world_of s') = false /\ queue (world_of s') = []).
Proof.
  intros Hi Hst.
  destruct (refreshAttempt_answers cb rt) as (k & Hk & Hstr & Hobj). rewrite Hk in Hi.
  split.
  - intros token. destruct (Hstr token) as (k2 & Hk2 & Hnone).
    destruct (section_answered s i h hp rc cb rt (VStr token) k AsyncStorage_getItem k2
                Normally (Resolved (storage (world_of s))) (world_of s) Hi Hk2
                eq_refl eq_refl eq_refl) as (s' & Hex & Hpool & Hw).
    exists s'. split; [exact Hex|].
    rewrite Hst, Hnone, run_sync_refreshSection in Hpool, Hw.
    cbn [run_sync fst snd] in Hpool, Hw. rewrite Hw, Hpool.
    destruct (release_same i (Rejected (newError nothing_to_update)) (world_of s))
      as (-> & -> & ->).
    repeat split; assumption.
  - intros v Ho Ha. destruct (Hobj v Ho Ha) as (k2 & Hk2 & Hdone & _).
    destruct (section_answered s i h hp rc cb rt v k (AsyncStorage_setItem (JSON_stringify v))
                k2 Normally (Resolved tt) (set_storage (Some (JSON_stringify v)) (world_of s))
                Hi Hk2 eq_refl eq_refl eq_refl) as (s' & Hex & Hpool & Hw).
    exists s'. split; [exact Hex|].
    rewrite Hdone, run_sync_refreshSection in Hpool, Hw.
    cbn [run_sync fst snd] in Hpool, Hw. rewrite Hw, Hpool.
    match goal with
    | |- context [release i ?o ?w0] => destruct (release_same i o w0) as (-> & -> & ->)
    end.
    repeat split.
Qed.

Lemma refreshAttempt_updates (cb : TokenRefreshRequest) (rt : jsval) :
  exists k,
    refreshAttempt cb rt = Vis (RequestRefresh cb rt) k /\
    forall token : string, exists k2,
      k (Resolved (VStr token)) = Vis AsyncStorage_getItem k2 /\
      forall fields, exists value k3,
        k2 (Resolved (Some (RawJson (JObj fields)))) = Vis (AsyncStorage_setItem value) k3 /\
        value = RawJson (JObj (set_field "accessToken" (JStr token) fields)) /\
        k3 (Resolved tt) = Ret (VStr token).
Proof.
  eexists. split; [reflexivity|]. intros token. eexists. split; [reflexivity|].
  intros fields. eexists _, _. split; [reflexivity|]. split; [|reflexivity].
  change (JSON_stringify
            (VObj (set_field "accessToken" (of_json (JStr token))
                     match of_json (JObj fields) with VObj l => l | _ => [] end))
          = RawJson (JObj (set_field "accessToken" (JStr token) fields))).
  rewrite of_json_obj, set_of_json_fields. unfold JSON_stringify.
  rewrite to_json_obj, to_json_fields_of_json. reflexivity.
Qed.

(** X18.  The answer of the callback is written into the record that is
    stored when it arrives, which need not be the one the refresh token was
    read from: with a JSON object stored and the callback resolving to a
    string, the [accessToken] of that object is replaced and the rest of it
    stays, its refresh token in particular; the call succeeds with the new
    token, the flag is cleared and the queue emptied. *)
Theorem late_answer_updates_current_record (cb : TokenRefreshRequest) (rt : jsval)
    (s : state AxiosRequestConfig) (i : pid) (h hp : string) (rc : AxiosRequestConfig)
    (token : string) (fields : list (string * json)) :
  pool s !! i = Some (Blocked (refreshSection h hp rc (refreshAttempt cb rt))) ->
  storage (world_of s) = Some (RawJson (JObj fields)) ->
  exists s',
    exec (answered_and_written i (VStr token)) s = Some s' /\
    storage (world_of s')
    = Some (RawJson (JObj (set_field "accessToken" (JStr token) fields))) /\
    stored_get "refreshToken" (storage (world_of s'))
    = stored_get "refreshToken" (storage (world_of s)) /\
    pool s' !! i = Some (Finished (section_outcome h hp rc (Resolved (VStr token)))) /\
    isRefreshing (world_of s') = false /\ queue (world_of s') = [].
Proof.
  intros Hi Hst. pose proof (lookup_lt_Some _ _ _ Hi) as Hlt.
  destruct (refreshAttempt_updates cb rt) as (k & Hk & Hstr). rewrite Hk in Hi.
  destruct (Hstr token) as (k2 & Hk2 & Hobj).
  destruct (Hobj fields) as (value & k3 & Hk3 & Hvalue & Hdone).
  destruct (section_answered s i h hp rc cb rt (VStr token) k AsyncStorage_getItem k2
              Normally (Resolved (storage (world_of s))) (world_of s) Hi Hk2
              eq_refl eq_refl eq_refl) as (s1 & Hex1 & Hpool1 & Hw1).
  rewrite Hst, Hk3, refreshSection_vis in Hpool1, Hw1.
  cbn [run_sync sync_event issue fst snd] in Hpool1, Hw1.
  rewrite <- refreshSection_vis in Hpool1.
  unfold answered_and_written. rewrite exec_app, Hex1.
  rewrite (section_continues s1 i h hp rc (AsyncStorage_setItem value) k3 Normally
             (Resolved tt) (set_storage (Some value) (world_of s1)) Hpool1 eq_refl).
  rewrite Hdone, run_sync_refreshSection. cbn [run_sync fst snd].
  eexists. split; [reflexivity|]. unfold update. cbn [world_of pool fst snd].
  match goal with
  | |- context [release i ?o ?w0] => destruct (release_same i o w0) as (-> & -> & ->)
  end.
  cbn [storage set_storage]. rewrite Hvalue.
  split; [reflexivity|]. split.
  - rewrite Hst. unfold stored_get, stored_tokens. rewrite !of_json_obj. simpl.
    rewrite !lookup_of_json_fields, lookup_set_field_other by discriminate. reflexivity.
  - split; [|split; reflexivity].
    apply list_lookup_insert_eq. rewrite length_insert.
    eapply lookup_lt_Some, Hpool1.
Qed.

(** X19.  The callback has resolved to an object with an [accessToken],
    and writing it fails with a storage error [e] that carries no status 401
    or 422.  The refresh fails as if the callback had rejected with [e]: the
    call rejects with the error that wraps the text of [e], every pending
    waiter of the queue is rejected with an [Error] of that text, the
    storage is as it was, the flag is cleared and the queue emptied. *)
Theorem storage_write_failure_fails_refresh (cb : TokenRefreshRequest) (rt v e : jsval)
    (s : state AxiosRequestConfig) (i : pid) (h hp : string) (rc : AxiosRequestConfig) :
  pool s !! i = Some (Blocked (refreshSection h hp rc (refreshAttempt cb rt))) ->
  typeof_object v = true -> truthy (get v "accessToken") = true ->
  unauthorized e = false ->
  exists s',
    exec (answered i v (Failing e)) s = Some s' /\
    storage (world_of s') = storage (world_of s) /\
    pool s' !! i = Some (Finished (Rejected (unable_to_refresh (refresh_failure_message e)))) /\
    isRefreshing (world_of s') = false /\ queue (world_of s') = [] /\
    forall p, p ∈ queue (world_of s) -> promises (world_of s) !! p = Some None ->
      promises (world_of s') !! p
      = Some (Some (Rejected (VError "Error" (refresh_failure_message e) []))).
Proof.
  intros Hi Ho Ha He.
  destruct (refreshAttempt_answers cb rt) as (k & Hk & _ & Hobj). rewrite Hk in Hi.
  destruct (Hobj v Ho Ha) as (k2 & Hk2 & _ & Hfail).
  destruct (section_answered s i h hp rc cb rt v k (AsyncStorage_setItem (JSON_stringify v))
              k2 (Failing e) (Rejected e) (world_of s) Hi Hk2 eq_refl eq_refl eq_refl)
    as (s' & Hex & Hpool & Hw).
  exists s'. split; [exact Hex|].
  rewrite (Hfail e He), run_sync_refreshSection in Hpool, Hw.
  cbn [run_sync fst snd] in Hpool, Hw.
  assert (Hnew : newError e = VError "Error" (refresh_failure_message e) []).
  { unfold refresh_failure_message. rewrite He. destruct e; reflexivity. }
  rewrite Hnew in Hpool, Hw. rewrite section_outcome_error in Hpool.
  rewrite Hw, Hpool.
  split; [apply release_same|]. split; [reflexivity|].
  split; [apply release_same|]. split; [apply release_same|].
  intros p Hp Hpend. rewrite promises_release, Hpend.
  rewrite decide_True by exact Hp. reflexivity.
Qed.

Lemma arrived_lookup {A : Type} (l : list (task A)) (t : task A) :
  (l ++ [t]) !! length l = Some t.
Proof. rewrite lookup_app_r by reflexivity. rewrite Nat.sub_diag. reflexivity. Qed.

Lemma arrived_insert {A : Type} (l : list (task A)) (t t' : task A) :
  <[length l := t']> (l ++ [t]) = l ++ [t'].
Proof. rewrite insert_app_r_alt by reflexivity. rewrite Nat.sub_diag. reflexivity. Qed.

Lemma arrived_resume {A : Type} (l : list (task A)) (w : world) (p : prog A) :
  step (Resume (length l)) {| world_of := w; pool := l ++ [Running p] |}
  = Some {| world_of := (run_sync (length l) p w).2;
            pool := l ++ [(run_sync (length l) p w).1] |}.
Proof.
  simpl. rewrite arrived_lookup. simpl. unfold update. simpl.
  rewrite arrived_insert. reflexivity.
Qed.

Lemma arrived_complete {A X : Type} (l : list (task A)) (w : world) (ev : event X)
    (k : settled X -> prog A) (a : answer) (r : settled X) (w' : world) :
  async_event ev a w = Some (r, w') ->
  step (Complete (length l) a) {| world_of := w; pool := l ++ [Blocked (Vis ev k)] |}
  = Some {| world_of := w'; pool := l ++ [Running (k r)] |}.
Proof.
  intros Ha. simpl. rewrite arrived_lookup. simpl. rewrite Ha. simpl. unfold update. simpl.
  rewrite arrived_insert. reflexivity.
Qed.

(** A function that starts with a storage operation and has no handler
    around it. *)
Lemma first_failure {A X : Type} (p : prog A) (ev : event X) (k : settled X -> prog A)
    (e : jsval) :
  p = Vis ev k -> storage_event ev = true -> k (Rejected e) = Throw e ->
  first_failure_reaches_caller p e.
Proof.
  intros -> Hc Hk s.
  assert (Hev : run_sync (length (pool s)) (Vis ev k) (world_of s)
                = (Blocked (Vis ev k), world_of s) /\
                async_event ev (Failing e) (world_of s) = Some (Rejected e, world_of s)).
  { destruct ev; try discriminate; split; reflexivity. }
  destruct Hev as (Hsync & Hasync).
  cbn [exec].
  change (step (Spawn (Vis ev k)) s)
    with (Some {| world_of := world_of s; pool := pool s ++ [Running (Vis ev k)] |}).
  cbv iota beta. rewrite arrived_resume, Hsync. cbn [fst snd].
  rewrite (arrived_complete _ _ _ _ _ _ _ Hasync), arrived_resume, Hk.
  reflexivity.
Qed.

(** X20.  Outside the refresh section a failure of the storage reaches the
    caller as it is: when the first storage operation of a getter, of
    [isLoggedIn], [clearAuthTokens], [setAuthTokens], [setAccessToken],
    [refreshTokenIfNeeded] or the interceptor fails with [e], the call
    rejects with [e] itself and nothing has changed. *)
Theorem storage_failure_reaches_caller (e : jsval) :
  first_failure_reaches_caller getAccessToken e /\
  first_failure_reaches_caller getRefreshToken e /\
  first_failure_reaches_caller isLoggedIn e /\
  first_failure_reaches_caller clearAuthTokens e /\
  (forall tokens, first_failure_reaches_caller (setAuthTokens tokens) e) /\
  (forall token, first_failure_reaches_caller (setAccessToken token) e) /\
  (forall cb, first_failure_reaches_caller (refreshTokenIfNeeded cb) e) /\
  (forall config requestConfig,
     first_failure_reaches_caller (authTokenInterceptor config requestConfig) e).
Proof.
  repeat split; intros; eapply first_failure; reflexivity.
Qed.

End Races.

(** ** The claims on concrete calls *)

Module Checks.
Import Example Runs.

Lemma failing_refresh_calls : Forall interceptor_call failing_refresh.
Proof.
  unfold failing_refresh.
  repeat (apply Forall_cons; split; [first [exact I|eexists _, _; reflexivity]|]).
  apply Forall_nil. exact I.
Qed.

(** The run [failing_refresh] is a run of interceptor calls and ends in a
    state where at most one callback was invoked in the cycle. *)
Lemma single_flight_refresh_witness :
  exists s,
    exec failing_refresh start = Some s /\
    (calls_in_cycle (log (world_of s)) <= 1)%nat.
Proof.
  destruct (exec failing_refresh start) as [s|] eqn:Hex;
    [|vm_compute in Hex; discriminate].
  exists s. split; [reflexivity|].
  exact (proj1 (proj2 (single_flight_refresh failing_refresh _ _ s
                         failing_refresh_calls Hex))).
Defined.

(** A 401 from the callback removes the stored pair. *)
Lemma refresh_failure_classification_witness :
  exists err w',
    run (answers (Rejected (http_error 401))) (refreshToken 0%nat) (boot (pair "expired" "r1") now)
    = (Some (Rejected err), w') /\
    (storage w' = None <-> unauthorized (http_error 401) = true).
Proof.
  destruct (refresh_failure_classification (answers (Rejected (http_error 401)))
              0%nat (VStr "r1") (http_error 401) (boot (pair "expired" "r1") now))
    as (err & w' & Hrun & Hiff & _); [reflexivity..|].
  exists err, w'. split; assumption.
Defined.




(** C5: with nothing stored, [refreshTokenIfNeeded] does not return
    [undefined]; it throws. *)
Lemma refresh_without_tokens_throws :
  run (answers (Resolved (VStr "new-token"))) (refreshTokenIfNeeded 0%nat) (boot None now)
  = (Some (Rejected (VError "Error" "No refresh token available" [])), boot None now).
Proof. vm_compute. reflexivity. Qed.

(** With nothing stored the interceptor passes the request through. *)
Lemma no_refresh_token_stored_witness :
  run (answers (Resolved (VStr "new-token"))) (authTokenInterceptor config (request "/a"))
    (boot None now)
  = (Some (Resolved (request "/a")), boot None now).
Proof.
  apply (proj2 (no_refresh_token_stored (answers (Resolved (VStr "new-token"))) 0%nat VUndef
                  (boot None now) eq_refl eq_refl)).
Defined.

(** C6: in the run [failing_refresh] the refreshing call is rejected with
    one error, the queued waiter with another, and the queued call with a
    third. *)
Lemma waiter_error_is_not_caller_error :
  (fun s => (pool s !! 0%nat, promises (world_of s) !! 0%nat, pool s !! 1%nat))
    <$> exec failing_refresh start
  = Some (Some (Finished (Rejected caller_error)),
          Some (Some (Rejected waiter_error)),
          Some (Finished (Rejected (TypeError "PromiseReject called on non-object")))) /\
  waiter_error <> caller_error.
Proof. split; [vm_compute; reflexivity|discriminate]. Qed.

(** In the run [failing_refresh] no waiter was settled twice. *)
Lemma refresh_failure_propagation_witness :
  exists s,
    exec failing_refresh start = Some s /\
    NoDup (settled_waiters (log (world_of s))).
Proof.
  destruct (exec failing_refresh start) as [s|] eqn:Hex;
    [|vm_compute in Hex; discriminate].
  exists s. split; [reflexivity|].
  exact (proj1 (refresh_failure_propagation failing_refresh _ _ s
                  failing_refresh_calls Hex)).
Defined.

(** The scenario of the specification: ["expired"] ran out 100 s ago, the
    callback resolves to ["new-token"]. *)
Lemma bare_token_refresh_witness :
  exists w',
    run (answers (Resolved (VStr "new-token"))) (refreshTokenIfNeeded 0%nat)
      (boot (pair "expired" "r1") now)
    = (Some (Resolved (VStr "new-token")), w') /\
    run (answers (Resolved (VStr "new-token"))) getAccessToken w'
    = (Some (Resolved (VStr "new-token")), w') /\
    run (answers (Resolved (VStr "new-token"))) getRefreshToken w'
    = (Some (Resolved (VStr "r1")), w').
Proof.
  destruct (bare_token_refresh (answers (Resolved (VStr "new-token"))) 0%nat (VStr "r1")
              "new-token" (boot (pair "expired" "r1") now))
    as (w' & Hrun & Ha & Hr & _); [reflexivity|reflexivity| |reflexivity|].
  - exists (VStr "expired"). split; vm_compute; reflexivity.
  - exists w'. repeat split; assumption.
Defined.

(** A callback that resolves to the number 5. *)
Lemma protocol_violation_witness :
  run (answers (Resolved (VNum 5))) (refreshToken 0%nat) (boot (pair "expired" "r1") now)
  = (Some (Rejected (newError protocol_error)),
     invoked 0%nat (VStr "r1") (boot (pair "expired" "r1") now)).
Proof.
  apply (proj1 (proj1 (protocol_violation (answers (Resolved (VNum 5))) 0%nat (VStr "r1")
                         (VNum 5) (boot (pair "expired" "r1") now)
                         eq_refl eq_refl eq_refl
                         (conj eq_refl (fun Hhas => Bool.diff_false_true (proj1 Hhas)))))).
Defined.

(** The run [failing_refresh] ends idle, with an empty queue. *)
Lemma coordinator_state_invariant_witness :
  exists s,
    exec failing_refresh start = Some s /\
    (isRefreshing (world_of s) = false ->
     queue (world_of s) = [] /\ flag_owner (log (world_of s)) = None).
Proof.
  destruct (exec failing_refresh start) as [s|] eqn:Hex;
    [|vm_compute in Hex; discriminate].
  exists s. split; [reflexivity|].
  exact (proj1 (coordinator_state_invariant failing_refresh _ _ s
                  failing_refresh_calls Hex)).
Defined.

End Checks.

(** ** The further properties on concrete calls *)

Module Cases.
Import Example Runs Scenes.

(** The tokens of the examples at the time of the examples. *)
Lemma expired_is_stale (behaviour : TokenRefreshRequest -> jsval -> settled jsval)
    (refreshToken_ : string) :
  access_token_stale behaviour (boot (pair "expired" refreshToken_) now).
Proof. exists (VStr "expired"). split; vm_compute; reflexivity. Qed.


(** A run that succeeds and its next step. *)
Lemma next_state (acts : list (action AxiosRequestConfig)) (a : action AxiosRequestConfig) :
  exec (acts ++ [a]) start <> None ->
  exists s s', exec acts start = Some s /\ step a s = Some s'.
Proof.
  intros Hne. rewrite exec_app in Hne. destruct (exec acts start) as [s|]; [|congruence].
  simpl in Hne. destruct (step a s) as [s'|] eqn:Hstep; [|congruence].
  exists s, s'. split; [reflexivity|exact Hstep].
Qed.

Lemma refresh_under_way_calls : Forall interceptor_call refresh_under_way.
Proof.
  unfold refresh_under_way.
  repeat (apply Forall_cons; split; [first [exact I|eexists _, _; reflexivity]|]).
  apply Forall_nil. exact I.
Qed.

Lemma two_queued_calls : Forall interceptor_call two_queued.
Proof.
  apply Forall_app. split; [apply refresh_under_way_calls|].
  repeat (apply Forall_cons; split; [first [exact I|eexists _, _; reflexivity]|]).
  apply Forall_nil. exact I.
Qed.

Lemma about_to_write_calls : Forall interceptor_call about_to_write.
Proof.
  apply Forall_app. split; [apply two_queued_calls|].
  repeat (apply Forall_cons; split; [exact I|]). apply Forall_nil. exact I.
Qed.

Lemma about_to_release_calls : Forall interceptor_call about_to_release.
Proof.
  apply Forall_app. split; [apply about_to_write_calls|].
  repeat (apply Forall_cons; split; [exact I|]). apply Forall_nil. exact I.
Qed.

(** A pair is set over nothing and read back. *)
Lemma stored_pair_round_trip_witness :
  exists w',
    run (answers (Resolved VUndef)) (setAuthTokens new_pair) (boot None now)
    = (Some (Resolved tt), w') /\
    run (answers (Resolved VUndef)) getAccessToken w' = (Some (Resolved (VStr "fresh")), w') /\
    run (answers (Resolved VUndef)) getRefreshToken w' = (Some (Resolved (VStr "r2")), w') /\
    run (answers (Resolved VUndef)) isLoggedIn w' = (Some (Resolved true), w').
Proof.
  exact (stored_pair_round_trip (answers (Resolved VUndef))
           [("accessToken", VStr "fresh"); ("refreshToken", VStr "r2")] "fresh" "r2"
           (boot None now) eq_refl eq_refl).
Defined.

(** With nothing stored there is no access token to update. *)
Lemma setAccessToken_nothing_stored_witness :
  run (answers (Resolved VUndef)) (setAccessToken (VStr "fresh")) (boot None now)
  = (Some (Rejected nothing_to_update), boot None now).
Proof.
  exact (setAccessToken_nothing_stored (answers (Resolved VUndef)) (VStr "fresh") VUndef
           (boot None now) eq_refl eq_refl).
Defined.


(** A stored text that is not JSON. *)
Lemma malformed_record_surfaces_witness :
  run (answers (Resolved VUndef)) isLoggedIn (boot (Some (RawText "{oops")) now)
  = (Some (Rejected (parse_failure "{oops")), boot (Some (RawText "{oops")) now).
Proof.
  refine (proj1 (proj2 (proj2 (malformed_record_surfaces (answers (Resolved VUndef)) "{oops"
                                 (boot (Some (RawText "{oops")) now) eq_refl _)))).
  discriminate.
Defined.

(** The callback resolves to a new pair. *)
Lemma pair_refresh_replaces_record_witness :
  exists w',
    run (answers (Resolved new_pair)) (refreshTokenIfNeeded 0%nat)
      (boot (pair "expired" "r1") now)
    = (Some (Resolved (VStr "fresh")), w') /\
    storage w' = pair "fresh" "r2".
Proof.
  destruct (pair_refresh_replaces_record (answers (Resolved new_pair)) 0%nat (VStr "r1")
              [("accessToken", VStr "fresh"); ("refreshToken", VStr "r2")] "fresh"
              (boot (pair "expired" "r1") now))
    as (w' & Hrun & Hst & _);
    [reflexivity|reflexivity|apply expired_is_stale|reflexivity|reflexivity|discriminate|].
  exists w'. split; [exact Hrun|exact Hst].
Defined.



(** A request with an expired token stored: the scenario of a refresh. *)
Lemma interceptor_refreshes_stale_token_witness :
  exists requestConfig' w',
    run (answers (Resolved (VStr "fresh"))) (authTokenInterceptor config (request "/a"))
      (boot (pair "expired" "r1") now)
    = (Some (Resolved requestConfig'), w') /\
    headers requestConfig' = {[ "Authorization" := "Bearer fresh" ]} /\
    log w' = [OSetRefreshing 0 false; OCallRefresh 0 0 (VStr "r1"); OSetRefreshing 0 true].
Proof.
  destruct (interceptor_refreshes_stale_token (answers (Resolved (VStr "fresh"))) config
              (request "/a") (VStr "r1") "fresh" (boot (pair "expired" "r1") now))
    as (rc' & w' & Hrun & _ & Hh & _ & _ & Hlog & _);
    [reflexivity|reflexivity|reflexivity|reflexivity|apply expired_is_stale
    |reflexivity|discriminate|].
  exists rc', w'. split; [exact Hrun|]. split; [|exact Hlog].
  rewrite Hh. reflexivity.
Defined.

(** The callback fails with a network error: the tokens stay. *)
Lemma interceptor_failure_message_witness :
  exists w',
    run (answers (Rejected network_error)) (authTokenInterceptor config (request "/a"))
      (boot (pair "expired" "r1") now)
    = (Some (Rejected caller_error), w') /\
    storage w' = pair "expired" "r1".
Proof.
  destruct (interceptor_failure_message (answers (Rejected network_error)) config
              (request "/a") (VStr "r1") network_error (boot (pair "expired" "r1") now))
    as (w' & Hrun & Hst & _);
    [reflexivity|reflexivity|reflexivity|apply expired_is_stale|reflexivity|].
  exists w'. split; [exact Hrun|exact Hst].
Defined.


(** The callback resolves to the empty string. *)
Lemma empty_token_sends_no_header_witness :
  exists w',
    run (answers (Resolved (VStr ""))) (authTokenInterceptor config (request "/a"))
      (boot (pair "expired" "r1") now)
    = (Some (Resolved (request "/a")), w') /\
    run (answers (Resolved (VStr ""))) getAccessToken w' = (Some (Resolved (VStr "")), w').
Proof.
  destruct (proj1 (empty_token_sends_no_header (answers (Resolved (VStr ""))) config
                     (request "/a") (VStr "r1") (boot (pair "expired" "r1") now)
                     eq_refl eq_refl eq_refl (expired_is_stale _ _) eq_refl))
    as (w' & Hrun & Ha & _).
  exists w'. split; [exact Hrun|exact Ha].
Defined.

(** ["garbage"] is not a token: no request passes, and no refresh is made. *)
Lemma undecodable_token_blocks_refresh_witness :
  run (answers (Resolved (VStr "fresh"))) (refreshTokenIfNeeded 0%nat)
    (boot (pair "garbage" "r1") now)
  = (Some (Rejected (VError "InvalidTokenError" "Invalid token specified" [])),
     boot (pair "garbage" "r1") now).
Proof.
  exact (proj1 (undecodable_token_blocks_refresh (answers (Resolved (VStr "fresh")))
                  (VStr "garbage") "InvalidTokenError" "Invalid token specified" []
                  (boot (pair "garbage" "r1") now) eq_refl eq_refl eq_refl) 0%nat).
Defined.

(** The callback resolves to the empty string, and that is the token. *)
Lemma refresh_result_is_a_token_witness :
  exists w',
    run (answers (Resolved (VStr ""))) (refreshTokenIfNeeded 0%nat)
      (boot (pair "expired" "r1") now)
    = (Some (Resolved (VStr "")), w') /\
    (truthy (VStr "") = true \/
     (VStr "" = VStr "" /\ exists rt, answers (Resolved (VStr "")) 0%nat rt = Resolved (VStr ""))).
Proof.
  assert (Hrun : exists w',
            run (answers (Resolved (VStr ""))) (refreshTokenIfNeeded 0%nat)
              (boot (pair "expired" "r1") now)
            = (Some (Resolved (VStr "")), w'))
    by (eexists; vm_compute; reflexivity).
  destruct Hrun as [w' Hrun]. exists w'. split; [exact Hrun|].
  exact (refresh_result_is_a_token (answers (Resolved (VStr ""))) 0%nat (VStr "")
           (boot (pair "expired" "r1") now) w' Hrun).
Defined.

(** In the run [about_to_release] the waiter of ["/b"] was pushed before that
    of ["/c"], and the next stretch of the refreshing call resolves them in
    that order. *)
Lemma waiters_released_in_push_order_witness :
  exists s s' i o,
    exec about_to_release start = Some s /\
    step (Resume 0%nat) s = Some s' /\
    queued_since_release (log (world_of s)) = [0; 1]%nat /\
    log (world_of s')
    = OSetRefreshing i false :: [OSettle i 1%nat o; OSettle i 0%nat o] ++ log (world_of s).
Proof.
  destruct (next_state about_to_release (Resume 0%nat)) as (s & s' & Hex & Hstep);
    [vm_compute; discriminate|].
  assert (Hs : (fun s => (isRefreshing (world_of s), queued_since_release (log (world_of s))))
                 <$> exec about_to_release start = Some (true, [0; 1]%nat))
    by (vm_compute; reflexivity).
  assert (Hs' : (fun s => isRefreshing (world_of s))
                  <$> exec (about_to_release ++ [Resume 0%nat]) start = Some false)
    by (vm_compute; reflexivity).
  rewrite exec_app, Hex in Hs'. cbn [exec] in Hs'. rewrite Hstep in Hs'.
  rewrite Hex in Hs. injection Hs as Hfl Hq. injection Hs' as Hfl'.
  destruct (proj2 (waiters_released_in_push_order about_to_release _ _ s
                     about_to_release_calls Hex) _ _ Hstep Hfl Hfl') as (i & o & Hlog).
  exists s, s', i, o. split; [exact Hex|]. split; [exact Hstep|]. split; [exact Hq|].
  rewrite Hlog, Hq. reflexivity.
Defined.

(** In the run [about_to_write] the next completion writes the new record;
    it is a completion of call 0, which holds the flag. *)
Lemma only_refreshing_call_writes_storage_witness :
  exists s s',
    exec about_to_write start = Some s /\
    step (Complete 0%nat Normally) s = Some s' /\
    storage (world_of s') = pair "fresh" "r1" /\
    flag_owner (log (world_of s)) = Some 0%nat.
Proof.
  destruct (next_state about_to_write (Complete 0%nat Normally)) as (s & s' & Hex & Hstep);
    [vm_compute; discriminate|].
  assert (Hs : (fun s => storage (world_of s)) <$> exec about_to_write start
               = Some (pair "expired" "r1"))
    by (vm_compute; reflexivity).
  assert (Hs' : (fun s => storage (world_of s))
                  <$> exec (about_to_write ++ [Complete 0%nat Normally]) start
                = Some (pair "fresh" "r1"))
    by (vm_compute; reflexivity).
  rewrite exec_app, Hex in Hs'. cbn [exec] in Hs'. rewrite Hstep in Hs'.
  rewrite Hex in Hs. injection Hs as Hst. injection Hs' as Hst'.
  destruct (only_refreshing_call_writes_storage about_to_write _ _ s
              about_to_write_calls Hex _ _ Hstep)
    as [[v Hv]|(i & reply & Ha & _ & Hown)].
  - rewrite Hst, Hst'. discriminate.
  - discriminate.
  - injection Ha as <- _. exists s, s'. repeat split; assumption.
Defined.

(** In the run [logged_out_meanwhile] the callback answers with a new pair
    after the tokens were cleared: the pair is stored. *)
Lemma refresh_answer_after_logout_witness :
  exists s s',
    exec logged_out_meanwhile start = Some s /\
    storage (world_of s) = None /\
    exec (answered 0%nat new_pair Normally) s = Some s' /\
    storage (world_of s') = pair "fresh" "r2".
Proof.
  destruct (exec logged_out_meanwhile start) as [s|] eqn:Hex;
    [|vm_compute in Hex; discriminate].
  assert (Hs : (fun s => (pool s !! 0%nat, storage (world_of s)))
                 <$> exec logged_out_meanwhile start = Some (Some refreshing, None))
    by reflexivity.
  rewrite Hex in Hs. injection Hs as Hpool Hst.
  destruct (proj2 (refresh_answer_after_logout 0%nat (VStr "r1") s 0%nat _ _ _ Hpool Hst)
              new_pair eq_refl eq_refl) as (s' & Hrun & Hst' & _).
  exists s, s'. split; [reflexivity|]. split; [exact Hst|]. split; [exact Hrun|exact Hst'].
Defined.

(** In the run [replaced_meanwhile] the callback answers with ["fresh"]
    after another pair was stored: the token goes into that pair. *)
Lemma late_answer_updates_current_record_witness :
  exists s s',
    exec replaced_meanwhile start = Some s /\
    storage (world_of s) = pair "other" "r9" /\
    exec (answered_and_written 0%nat (VStr "fresh")) s = Some s' /\
    storage (world_of s') = pair "fresh" "r9".
Proof.
  destruct (exec replaced_meanwhile start) as [s|] eqn:Hex;
    [|vm_compute in Hex; discriminate].
  assert (Hs : (fun s => (pool s !! 0%nat, storage (world_of s)))
                 <$> exec replaced_meanwhile start
               = Some (Some refreshing, pair "other" "r9"))
    by reflexivity.
  rewrite Hex in Hs. injection Hs as Hpool Hst.
  destruct (late_answer_updates_current_record 0%nat (VStr "r1") s 0%nat _ _ _ "fresh"
              [("accessToken", JStr "other"); ("refreshToken", JStr "r9")] Hpool Hst)
    as (s' & Hrun & Hst' & _).
  exists s, s'. split; [reflexivity|]. split; [exact Hst|]. split; [exact Hrun|exact Hst'].
Defined.

(** In the run [refresh_under_way] the callback answers with a new pair and
    the write fails: the old pair stays, the flag is cleared. *)
Lemma storage_write_failure_fails_refresh_witness :
  exists s s',
    exec refresh_under_way start = Some s /\
    exec (answered 0%nat new_pair (Failing network_error)) s = Some s' /\
    storage (world_of s') = pair "expired" "r1" /\
    isRefreshing (world_of s') = false.
Proof.
  destruct (exec refresh_under_way start) as [s|] eqn:Hex;
    [|vm_compute in Hex; discriminate].
  assert (Hs : (fun s => (pool s !! 0%nat, storage (world_of s)))
                 <$> exec refresh_under_way start
               = Some (Some refreshing, pair "expired" "r1"))
    by reflexivity.
  rewrite Hex in Hs. injection Hs as Hpool Hst.
  destruct (storage_write_failure_fails_refresh 0%nat (VStr "r1") new_pair network_error
              s 0%nat _ _ _ Hpool eq_refl eq_refl eq_refl)
    as (s' & Hrun & Hst' & _ & Hfl & _).
  exists s, s'. split; [reflexivity|]. split; [exact Hrun|].
  split; [rewrite Hst', Hst; reflexivity|exact Hfl].
Defined.

End Cases.
